(** * eStat-mcp-server: the packers of [packing.ts] and the greedy grouping of
    [utils.ts], embedded as Rocq functions, with the properties of the
    specification proved about them.

    Conventions of the embedding:
    - a JS object used as a dictionary is the [gmap string _] of its own
      properties; where the code reads, tests or writes such an object
      through a key that comes from the payload, the members that every
      object inherits from [Object.prototype] are taken into account (see
      [inherited], [has_key], [set_prop] and [outcome] below);
    - a JS [Map] or [Set], whose iteration order is the insertion order, is a
      list in insertion order ([Map]: an association list with unique keys);
    - an optional field ([string | undefined], or [null] in a payload) is an
      [option]; [x != null] is [is_Some x];
    - strings are sequences of UTF-8 bytes;
    - a JS number is only ever carried around by this code, never computed
      with: it is a value of the type [number] below. *)

From Stdlib Require Import Ascii QArith Qcanon Sorted.
From stdpp Require Import base numbers option list gmap strings pretty.

Local Open Scope string_scope.
Local Open Scope nat_scope.
Local Open Scope list_scope.

(** ** The JavaScript values the code handles *)

Module Js.

(** An IEEE double as seen by the packers: finite (a rational), an infinity,
    or NaN. *)
Inductive number :=
  | Finite (q : Qc)
  | PosInfinity
  | NegInfinity
  | NaN.

(** [Number.isFinite] *)
Definition isFinite (n : number) : bool :=
  match n with Finite _ => true | _ => false end.

(** A scalar of a payload: [string | number]. *)
Inductive jsval :=
  | JNum (n : number)
  | JStr (s : string).

(** [a === b] on numbers: NaN is different from every number, itself
    included. *)
Definition number_strict_eq (a b : number) : bool :=
  match a, b with
  | Finite p, Finite q => bool_decide (p = q)
  | PosInfinity, PosInfinity => true
  | NegInfinity, NegInfinity => true
  | _, _ => false
  end.

(** [a === b] on scalars. *)
Definition strict_eq (a b : jsval) : bool :=
  match a, b with
  | JNum m, JNum n => number_strict_eq m n
  | JStr s, JStr t => bool_decide (s = t)
  | _, _ => false
  end.

(** Truthiness of an optional string: [undefined], [null] and the empty
    string are falsy. *)
Definition truthy (o : option string) : bool :=
  match o with
  | Some s => negb (bool_decide (s = ""))
  | None => false
  end.

(** *** [String.prototype.trim]

    The ECMAScript WhiteSpace and LineTerminator code points, by the length
    of their UTF-8 encoding. *)
Definition is_ws1 (a : ascii) : bool :=
  let n := nat_of_ascii a in
  (* U+0009 .. U+000D, U+0020 *)
  ((9 <=? n) && (n <=? 13)) || (n =? 32).

Definition is_ws2 (a b : ascii) : bool :=
  (* U+00A0 *)
  (nat_of_ascii a =? 194) && (nat_of_ascii b =? 160).

Definition is_ws3 (a b c : ascii) : bool :=
  let x := nat_of_ascii a in
  let y := nat_of_ascii b in
  let z := nat_of_ascii c in
  (* U+1680 *)
  ((x =? 225) && (y =? 154) && (z =? 128))
  (* U+2000 .. U+200A, U+2028, U+2029, U+202F *)
  || ((x =? 226) && (y =? 128)
      && (((128 <=? z) && (z <=? 138)) || (z =? 168) || (z =? 169) || (z =? 175)))
  (* U+205F *)
  || ((x =? 226) && (y =? 129) && (z =? 159))
  (* U+3000 *)
  || ((x =? 227) && (y =? 128) && (z =? 128))
  (* U+FEFF *)
  || ((x =? 239) && (y =? 187) && (z =? 191)).

Fixpoint trimStart (s : string) : string :=
  match s with
  | EmptyString => EmptyString
  | String a s1 =>
    if is_ws1 a then trimStart s1 else
    match s1 with
    | EmptyString => s
    | String b s2 =>
      if is_ws2 a b then trimStart s2 else
      match s2 with
      | EmptyString => s
      | String c s3 => if is_ws3 a b c then trimStart s3 else s
      end
    end
  end.

(** A string made of white space only. *)
Definition all_ws (s : string) : bool :=
  bool_decide (trimStart s = "").

Fixpoint trimEnd (s : string) : string :=
  match s with
  | EmptyString => EmptyString
  | String a s1 => if all_ws s then EmptyString else String a (trimEnd s1)
  end.

Definition trim (s : string) : string := trimEnd (trimStart s).

(** [Array.prototype.join] on an array of [string | null]: a [null] element
    is written as the empty string. *)
Fixpoint join (sep : string) (l : list (option string)) : string :=
  match l with
  | [] => ""
  | [x] => default "" x
  | x :: rest => default "" x +:+ sep +:+ join sep rest
  end.

(** What the code takes from the JavaScript runtime and this development
    does not define: [Number(s)], the conversion of a string to a number. *)
Class Runtime := { Number : string → number }.

(** A runtime to run the packers on examples: [Number] on plain decimal
    literals (sign, digits, fraction; no exponent, no radix prefix), read
    exactly; every other string is NaN. *)
Definition digit_of (a : ascii) : option Z :=
  let n := nat_of_ascii a in
  if (48 <=? n) && (n <=? 57) then Some (Z.of_nat (n - 48)) else None.

Fixpoint read_digits (s : string) (acc : Z) (cnt : nat) : Z * nat * string :=
  match s with
  | EmptyString => (acc, cnt, s)
  | String a rest =>
    match digit_of a with
    | Some d => read_digits rest (10 * acc + d)%Z (S cnt)
    | None => (acc, cnt, s)
    end
  end.

Definition sampleNumber (s : string) : number :=
  let '(neg, body) :=
    match s with
    | String "-" r => (true, r)
    | String "+" r => (false, r)
    | _ => (false, s)
    end in
  let sign := if neg then (-1)%Z else 1%Z in
  if bool_decide (body = "Infinity") then (if neg then NegInfinity else PosInfinity)
  else
    let '(ip, n1, rest) := read_digits body 0%Z 0 in
    match rest with
    | EmptyString => if n1 =? 0 then NaN else Finite (Qc_of_Z (sign * ip))
    | String "." frac =>
      let '(m, n2, rest2) := read_digits frac ip 0 in
      if bool_decide (rest2 = "") && negb (n1 + n2 =? 0)
      then Finite (Q2Qc (Qmake (sign * m) (Pos.pow 10 (Pos.of_nat n2)) ))
      else NaN
    | _ => NaN
    end.

Definition sample_runtime : Runtime := {| Number := sampleNumber |}.

(** A singleton-or-array field of the upstream payload. *)
Inductive Raw (A : Type) :=
  | One (a : A)
  | Many (l : list A).
Global Arguments One {A} a.
Global Arguments Many {A} l.

(** A set of strings in insertion order ([Set.prototype.add]). *)
Definition set_add (x : string) (s : list string) : list string :=
  if bool_decide (x ∈ s) then s else s ++ [x].

(** *** Plain objects

    An object made by [{}] is modelled by its own properties.  It also has
    the members of [Object.prototype], which is taken as the language
    defines it: eleven methods and the accessor [__proto__], none of them
    enumerable. *)
Definition OBJECT_PROTOTYPE_KEYS : list string :=
  ["constructor"; "__defineGetter__"; "__defineSetter__"; "hasOwnProperty";
   "__lookupGetter__"; "__lookupSetter__"; "isPrototypeOf";
   "propertyIsEnumerable"; "toString"; "valueOf"; "__proto__";
   "toLocaleString"].

(** Whether [obj[key]] of an object without that own property is an
    inherited member (a function, or for [__proto__] the prototype itself:
    truthy, and never [===] to a scalar) rather than [undefined]. *)
Definition inherited (key : string) : bool :=
  bool_decide (key ∈ OBJECT_PROTOTYPE_KEYS).

(** [key in obj] *)
Definition has_key {A} (obj : gmap string A) (key : string) : bool :=
  bool_decide (is_Some (obj !! key)) || inherited key.

(** Whether [obj[key] = v] gives [obj] an own property.  An inherited
    method is a writable data property, which the assignment shadows with
    an own one; [__proto__] is an accessor: its setter ignores a scalar and
    takes an object as the new prototype, and there is no own property in
    either case. *)
Definition own_on_write (key : string) : bool :=
  negb (bool_decide (key = "__proto__")).

(** [obj[key] = v] *)
Definition set_prop {A} (key : string) (v : A) (obj : gmap string A)
    : gmap string A :=
  if own_on_write key then <[key := v]> obj else obj.

(** What a call does: it returns, it throws (here always a TypeError, on
    reading a property of [undefined]), or it goes on inside a built-in
    object that it took for one of its own through an inherited name, where
    what it reads and writes is no longer its own data and this embedding
    does not follow it. *)
Inductive outcome (A : Type) : Type :=
  | Returns (a : A)
  | Throws
  | Escapes.
Global Arguments Returns {A} a.
Global Arguments Throws {A}.
Global Arguments Escapes {A}.

(** A [for (const x of l)] loop over a state, left at the first turn that
    does not return. *)
Fixpoint fold_outcome {A B} (f : A → B → outcome A) (l : list B) (a : A)
    : outcome A :=
  match l with
  | [] => Returns a
  | x :: rest =>
    match f a x with
    | Returns a' => fold_outcome f rest a'
    | Throws => Throws
    | Escapes => Escapes
    end
  end.

Definition map_outcome {A B} (f : A → B) (o : outcome A) : outcome B :=
  match o with
  | Returns a => Returns (f a)
  | Throws => Throws
  | Escapes => Escapes
  end.

End Js.

Export Js.

(** ** types.ts *)

Module Types.

Record CodeValue := { cv_code : string; cv_text : string }.

Inductive Title :=
  | TitleStr (s : string)
  | TitleObj (no : string) (text : string).

Record TableInf := {
  t_id : string;
  t_GOV_ORG : CodeValue;
  t_STATISTICS_NAME : string;
  t_TITLE : Title;
}.

Record ListInf := {
  li_id : string;
  li_STAT_NAME : CodeValue;
  li_GOV_ORG : CodeValue;
}.

Definition getStringValue (obj : Title) : string :=
  match obj with
  | TitleStr s => s
  | TitleObj _ text => text
  end.

Record ClassObjClass := {
  c_code : string;
  c_name : string;
  c_level : string;
  c_unit : option string;
  c_parentCode : option string;
  c_addInf : option string;
}.

Record ClassObj := {
  o_id : string;
  o_name : string;
  o_description : option string;
  o_EXPLANATION : option string;
  o_CLASS : Raw ClassObjClass;
}.

Record ClassInf := { CLASS_OBJ : list ClassObj }.

Record Note := { n_char : string; n_text : string }.
Record Annotation := { a_annotation : string; a_text : string }.

(** A value record: its attributes ([@tab], [@cat01], ..., [@area], [@time],
    [@unit], [@annotation]), keyed with their [@], and the measured value
    [$]. *)
Record Value := {
  v_attrs : gmap string string;
  v_val : jsval;
}.

Record DataInf := {
  NOTE : option (list Note);
  ANNOTATION : option (list Annotation);
  VALUE : Raw Value;
}.

End Types.

Export Types.

(** ** packing.ts *)

Module Packing.

Definition toArray {A} (value : Raw A) : list A :=
  match value with
  | One a => [a]
  | Many l => l
  end.

(** *** packTableInf *)

Record TableGroup := { tg_c : list string; tg_r : list (list string) }.

Record TablePacked := { tbls : gmap string (gmap string TableGroup) }.

(** The own group under [tbls[govOrg][statisticsName]]. *)
Definition tbl_get (t : gmap string (gmap string TableGroup))
    (govOrg statisticsName : string) : option TableGroup :=
  t !! govOrg ≫= λ inner, inner !! statisticsName.

(** One turn of the loop over the tables, on the state [(tbls, ids)].

    [tbls[govOrg]] and [tbls[govOrg][statisticsName]] are read before they
    are written: under an inherited name the read finds the inherited
    member, which is truthy, so that no group is made.  With such a
    [govOrg] the run goes on inside that member.  With such a
    [statisticsName], [tbls[govOrg][statisticsName].r] is [undefined] and
    the [push] throws; it is only reached for a new id. *)
Definition packTableInf_step
    (st : gmap string (gmap string TableGroup) * gset string) (tbl : TableInf)
    : outcome (gmap string (gmap string TableGroup) * gset string) :=
  let '(t, ids) := st in
  let id := t_id tbl in
  let govOrg := cv_text (t_GOV_ORG tbl) in
  let statisticsName := t_STATISTICS_NAME tbl in
  if inherited govOrg then Escapes
  else
    let t := if bool_decide (is_Some (t !! govOrg)) then t else <[govOrg := ∅]> t in
    if inherited statisticsName then
      (* Remove duplicates *)
      if bool_decide (id ∈ ids) then Returns (t, ids) else Throws
    else
      let t :=
        if bool_decide (is_Some (tbl_get t govOrg statisticsName)) then t
        else alter (insert statisticsName
                      {| tg_c := ["statsDataId"; "title"]; tg_r := [] |}) govOrg t in
      (* Remove duplicates *)
      if bool_decide (id ∈ ids) then Returns (t, ids)
      else
        Returns
          (alter (alter (λ g, {| tg_c := tg_c g;
                                 tg_r := tg_r g ++ [[id; getStringValue (t_TITLE tbl)]] |})
                        statisticsName) govOrg t,
           {[id]} ∪ ids).

Definition packTableInf (tableInf : Raw TableInf) : outcome TablePacked :=
  map_outcome (λ st, {| tbls := st.1 |})
              (fold_outcome packTableInf_step (toArray tableInf) (∅, ∅)).

(** *** packListInf *)

Record SurveyListPacked := { svys : gmap string TableGroup }.

(** One turn of the loop over the surveys.  Under an inherited name
    [svys[govOrg]] is the inherited member: it is truthy, so that no entry
    is made, and it has no [r], so that the [push] throws. *)
Definition packListInf_step (svys : gmap string TableGroup) (svy : ListInf)
    : outcome (gmap string TableGroup) :=
  let id := li_id svy in
  let govOrg := cv_text (li_GOV_ORG svy) in
  if inherited govOrg then Throws
  else
    let svys :=
      if bool_decide (is_Some (svys !! govOrg)) then svys
      else <[govOrg := {| tg_c := ["statsCode"; "name"]; tg_r := [] |}]> svys in
    Returns
      (alter (λ g, {| tg_c := tg_c g;
                      tg_r := tg_r g ++ [[id; cv_text (li_STAT_NAME svy)]] |})
             govOrg svys).

Definition packListInf (listInf : Raw ListInf) : outcome SurveyListPacked :=
  map_outcome (λ svys, {| svys := svys |})
              (fold_outcome packListInf_step (toArray listInf) ∅).

(** *** packClassInf *)

Record MetaDim := {
  md_n : string;
  md_l : gmap string string;
  md_u : option (gmap string string);
  md_d : option string;
  md_e : option string;
}.

Record MetaPacked := {
  mp_dims : list string;
  mp_m : gmap string MetaDim;
}.

(** One turn of the loop over the codes of a dimension, on [(label, unit)]. *)
Definition packClassInf_class (acc : gmap string string * gmap string string)
    (c : ClassObjClass) : gmap string string * gmap string string :=
  let label := set_prop (c_code c) (c_name c) acc.1 in
  let unit :=
    match c_unit c with
    | Some u => if truthy (c_unit c) then set_prop (c_code c) u acc.2 else acc.2
    | None => acc.2
    end in
  (label, unit).

(** The entry [m[id]] built from a dimension. *)
Definition packClassInf_dim (obj : ClassObj) : MetaDim :=
  let lu := foldl packClassInf_class (∅, ∅) (toArray (o_CLASS obj)) in
  {| md_n := o_name obj;
     md_l := lu.1;
     md_u := if bool_decide (size lu.2 = 0) then None else Some lu.2;
     md_d := if truthy (o_description obj) then o_description obj else None;
     md_e := if truthy (o_EXPLANATION obj) then o_EXPLANATION obj else None |}.

(** One turn of the loop over CLASS_OBJ, on [(dims, m)]. *)
Definition packClassInf_step (acc : list string * gmap string MetaDim)
    (obj : ClassObj) : list string * gmap string MetaDim :=
  let id := o_id obj in
  (acc.1 ++ [id], set_prop id (packClassInf_dim obj) acc.2).

Definition packClassInf (classInf : ClassInf) : MetaPacked :=
  let res := foldl packClassInf_step ([], ∅) (CLASS_OBJ classInf) in
  {| mp_dims := res.1; mp_m := res.2 |}.

(** *** normalizeValue *)

(** A cell of a packed row: [string | number | null]. *)
Inductive cell :=
  | CNull
  | CNum (n : number)
  | CStr (s : string).

Definition normalizeValue `{!Runtime} (x : jsval) : cell :=
  match x with
  | JNum n => CNum n
  | JStr x =>
    let s := trim x in
    if bool_decide (s = "") then CNull
    else
      let n := Number s in
      if isFinite n then CNum n else CStr s
  end.

(** *** The dimension vocabulary *)

(** [String(n).padStart(2, "0")] *)
Definition padStart2 (s : string) : string :=
  match String.length s with
  | 0 => "00"
  | 1 => "0" +:+ s
  | _ => s
  end.

(** List of keys for tab, cat01..cat15 *)
Definition PIVOT_CANDIDATE_KEYS : list string :=
  "tab" :: map (λ i, "cat" +:+ padStart2 (pretty (i + 1))) (seq 0 15).

(** All possible keys for dims (including area, time) *)
Definition ALL_DIM_KEYS : list string := PIVOT_CANDIDATE_KEYS ++ ["area"; "time"].

(** *** detectPivotDim *)

(** [classes.some((c) => c["@unit"] != null)] *)
Definition hasUnit (obj : ClassObj) : bool :=
  existsb (λ c, bool_decide (is_Some (c_unit c))) (toArray (o_CLASS obj)).

Fixpoint detectPivotDim_loop (objs : list ClassObj) : option (ClassObj * string) :=
  match objs with
  | [] => None
  | obj :: rest =>
    let id := o_id obj in
    if negb (bool_decide (id ∈ PIVOT_CANDIDATE_KEYS)) then detectPivotDim_loop rest
    else if hasUnit obj then Some (obj, id)
    else detectPivotDim_loop rest
  end.

Definition detectPivotDim (classInf : ClassInf) : option (ClassObj * string) :=
  detectPivotDim_loop (CLASS_OBJ classInf).

(** *** packDataInf *)

Record ValueColDef := {
  code : string;
  label : string;
  unit : option string;
}.

Record DataPacked := {
  pivotDim : option string;
  valueCols : list ValueColDef;
  fixed : option (gmap string string);
  dims : list string;
  rows : list (list cell);
  na : option (gmap string string);
  annDict : option (gmap string string);
  annRows : option (list (nat * nat * string));
}.

(** An entry of [groupMap]. *)
Record Group := {
  dimValues : list (option string);
  values : list cell;
  annotations : list (nat * string);
}.

(** [row[`@${k}`]] *)
Definition attr (row : Value) (k : string) : option string :=
  v_attrs row !! ("@" +:+ k).

(** [new Map(pivotCodes.map((code, i) => [code, i]))]: of two entries with
    one key, the later one stays. *)
Definition build_pivotIndex (pivotCodes : list string) : gmap string nat :=
  foldl (λ m e, <[e.1 := e.2]> m) ∅ (imap (λ i code, (code, i)) pivotCodes).

Definition build_valueCols (pivot : option (ClassObj * string)) : list ValueColDef :=
  match pivot with
  | Some (pivotObj, _) =>
    map (λ c, {| code := c_code c; label := c_name c;
                 unit := if truthy (c_unit c) then c_unit c else None |})
        (toArray (o_CLASS pivotObj))
  | None =>
    (* No pivot -> Only one value column *)
    [{| code := "_"; label := "value"; unit := None |}]
  end.

(** 2. Detect dimensions appearing in data (excluding pivot axis and unit) *)
Definition build_excludeFromDims (pivotId : option string) : list string :=
  let excludeFromDims := [] in
  let excludeFromDims :=
    match pivotId with
    | Some p => if truthy pivotId then set_add p excludeFromDims else excludeFromDims
    | None => excludeFromDims
    end in
  set_add "unit" excludeFromDims.

Definition present_row (excludeFromDims : list string) (present : list string)
    (row : Value) : list string :=
  foldl (λ present k,
           if bool_decide (k ∈ excludeFromDims) then present
           else if bool_decide (is_Some (attr row k)) then set_add k present
           else present)
        present ALL_DIM_KEYS.

Definition build_present (excludeFromDims : list string) (rows : list Value)
    : list string :=
  foldl (present_row excludeFromDims) [] rows.

Definition build_candidateDims (excludeFromDims present : list string) : list string :=
  foldl (λ candidateDims k,
           if negb (bool_decide (k ∈ excludeFromDims)) && bool_decide (k ∈ present)
           then candidateDims ++ [k] else candidateDims)
        [] ALL_DIM_KEYS.

(** 3. Promote dimensions with identical values across all rows to 'fixed' *)
Definition uniq_row (candidateDims : list string)
    (uniqueValuesPerDim : gmap string (list string)) (row : Value)
    : gmap string (list string) :=
  foldl (λ u dim,
           match attr row dim with
           | Some v => alter (set_add v) dim u
           | None => u
           end)
        uniqueValuesPerDim candidateDims.

Definition build_uniqueValuesPerDim (candidateDims : list string) (rows : list Value)
    : gmap string (list string) :=
  let uniqueValuesPerDim := foldl (λ u dim, <[dim := []]> u) ∅ candidateDims in
  foldl (uniq_row candidateDims) uniqueValuesPerDim rows.

Definition build_fixed_dims (candidateDims : list string)
    (uniqueValuesPerDim : gmap string (list string))
    : gmap string string * list string :=
  foldl (λ '(fixed, dims) dim,
           match uniqueValuesPerDim !! dim with
           | Some [v] => (<[dim := v]> fixed, dims)
           | _ => (fixed, dims ++ [dim])
           end)
        (∅, []) candidateDims.

(** 4. Group rows and pivot.  [groupMap] is a [Map]: an association list in
    insertion order. *)
Definition gm_has (groupMap : list (string * Group)) (k : string) : bool :=
  bool_decide (k ∈ groupMap.*1).

Definition gm_get (groupMap : list (string * Group)) (k : string) : option Group :=
  snd <$> find (λ e, bool_decide (e.1 = k)) groupMap.

(** The in-place update of the group held under [k]. *)
Fixpoint gm_update (f : Group → Group) (k : string) (groupMap : list (string * Group))
    : list (string * Group) :=
  match groupMap with
  | [] => []
  | e :: rest =>
    if bool_decide (e.1 = k) then (e.1, f e.2) :: rest
    else e :: gm_update f k rest
  end.

(** [x[i] = v] on a JS array: past the end, the array grows and the holes
    read as [undefined], written as [CNull] here (the code never gets
    there, see [group_step_colIdx_lt]). *)
Definition array_set (i : nat) (v : cell) (l : list cell) : list cell :=
  if bool_decide (i < length l) then <[i := v]> l
  else l ++ replicate (i - length l) CNull ++ [v].

(** Store values: the end of the loop body, once [colIdx] is known. *)
Definition store_value `{!Runtime} (colIdx : nat) (row : Value) (group : Group) : Group :=
  let values := array_set colIdx (normalizeValue (v_val row)) (values group) in
  let annotations :=
    match attr row "annotation" with
    | Some a =>
      if truthy (Some a) then annotations group ++ [(colIdx, a)]
      else annotations group
    | None => annotations group
    end in
  {| dimValues := dimValues group; values := values; annotations := annotations |}.

(** The column a record goes to; [None] where the loop body says
    [continue]. *)
Definition target_col (pivotId : option string) (pivotIndex : gmap string nat)
    (row : Value) : option nat :=
  match pivotId with
  | Some p =>
    if truthy pivotId then
      match attr row p with
      | None => None
      | Some pivotCode =>
        match pivotIndex !! pivotCode with
        | None => None
        | Some idx => Some idx
        end
      end
    else Some 0
  | None => Some 0
  end.

Definition row_dimValues (dims : list string) (row : Value) : list (option string) :=
  map (λ dim, attr row dim) dims.

Definition row_groupKey (dims : list string) (row : Value) : string :=
  join (String "000" "") (row_dimValues dims row).

(** One turn of the loop over the value records. *)
Definition group_step `{!Runtime} (pivotId : option string)
    (pivotIndex : gmap string nat) (valueCols : list ValueColDef)
    (dims : list string) (groupMap : list (string * Group)) (row : Value)
    : list (string * Group) :=
  (* Extract values for remaining dimensions *)
  let dimValues := row_dimValues dims row in
  let groupKey := join (String "000" "") dimValues in
  let groupMap :=
    if negb (gm_has groupMap groupKey) then
      groupMap ++ [(groupKey, {| dimValues := dimValues;
                                 values := replicate (length valueCols) CNull;
                                 annotations := [] |})]
    else groupMap in
  match target_col pivotId pivotIndex row with
  | None => groupMap
  | Some colIdx => gm_update (store_value colIdx row) groupKey groupMap
  end.

(** 5. Assemble results *)
Definition cell_of_dim (d : option string) : cell :=
  match d with
  | Some s => CStr s
  | None => CNull
  end.

Definition assemble_step (acc : list (list cell) * list (nat * nat * string))
    (group : Group) : list (list cell) * list (nat * nat * string) :=
  let '(rows, annRows) := acc in
  let rowIdx := length rows in
  (rows ++ [map cell_of_dim (dimValues group) ++ values group],
   annRows ++ map (λ a, (rowIdx, a.1, a.2)) (annotations group)).

Definition assemble (groupMap : list (string * Group))
    : list (list cell) * list (nat * nat * string) :=
  foldl assemble_step ([], []) (groupMap.*2).

(** [Object.fromEntries]: of two entries with one key, the later one stays. *)
Definition fromEntries (l : list (string * string)) : gmap string string :=
  foldl (λ m e, <[e.1 := e.2]> m) ∅ l.

(** What steps 1 to 3 of [packDataInf] compute before the loop over the
    value records starts. *)
Record Plan := {
  p_pivotId : option string;
  p_pivotIndex : gmap string nat;
  p_valueCols : list ValueColDef;
  p_fixed : gmap string string;
  p_dims : list string;
}.

Definition packDataInf_plan (dataInf : DataInf) (classInf : ClassInf) : Plan :=
  let pivot := detectPivotDim classInf in
  (* 1. Build valueCols for the pivot axis *)
  let pivotId := snd <$> pivot in
  let pivotCodes :=
    match pivot with
    | Some (pivotObj, _) => map c_code (toArray (o_CLASS pivotObj))
    | None => []
    end in
  let pivotIndex := build_pivotIndex pivotCodes in
  let valueCols := build_valueCols pivot in
  (* 2. *)
  let excludeFromDims := build_excludeFromDims pivotId in
  let present := build_present excludeFromDims (toArray (VALUE dataInf)) in
  let candidateDims := build_candidateDims excludeFromDims present in
  (* 3. *)
  let uniqueValuesPerDim :=
    build_uniqueValuesPerDim candidateDims (toArray (VALUE dataInf)) in
  let '(fixed, dims) := build_fixed_dims candidateDims uniqueValuesPerDim in
  {| p_pivotId := pivotId; p_pivotIndex := pivotIndex; p_valueCols := valueCols;
     p_fixed := fixed; p_dims := dims |}.

(** 4. The loop over the value records, from the empty [groupMap]. *)
Definition packDataInf_groups `{!Runtime} (plan : Plan) (rows : list Value)
    : list (string * Group) :=
  foldl (group_step (p_pivotId plan) (p_pivotIndex plan) (p_valueCols plan)
                    (p_dims plan)) [] rows.

Definition packDataInf `{!Runtime} (dataInf : DataInf) (classInf : ClassInf)
    : DataPacked :=
  let plan := packDataInf_plan dataInf classInf in
  let pivotId := p_pivotId plan in
  let fixed := p_fixed plan in
  let groupMap := packDataInf_groups plan (toArray (VALUE dataInf)) in
  (* 5. *)
  let '(rows, annRows) := assemble groupMap in
  let na :=
    match NOTE dataInf with
    | Some (n :: l) => Some (fromEntries (map (λ n, (n_char n, n_text n)) (n :: l)))
    | _ => None
    end in
  let annDict :=
    match ANNOTATION dataInf with
    | Some (a :: l) =>
      Some (fromEntries (map (λ a, (a_annotation a, a_text a)) (a :: l)))
    | _ => None
    end in
  (* 6. Pack *)
  {| dims := p_dims plan; valueCols := p_valueCols plan; rows := rows;
     pivotDim := if truthy pivotId then pivotId else None;
     fixed := if bool_decide (size fixed = 0) then None else Some fixed;
     na := na; annDict := annDict;
     annRows := if bool_decide (length annRows = 0) then None else Some annRows |}.

End Packing.


(** ** utils.ts *)

Module Utils.

(** A value record with the [@] of its keys removed: attribute name to
    scalar, the measured value under ["$"]. *)
Abbreviation AtTrimmedValue := (gmap string jsval).

Record OptimizedGroup := {
  metadata : gmap string jsval;
  g_values : list (gmap string jsval);
}.

(** [key.startsWith("@") ? key.slice(1) : key] *)
Definition strip_key (key : string) : string :=
  match key with
  | String "@" rest => rest
  | _ => key
  end.

(** [stripAtPrefix], on the own entries of the object in the order of
    [for (const key in obj)]. *)
Definition stripAtPrefix (obj : list (string * jsval)) : gmap string jsval :=
  foldl (λ res e, set_prop (strip_key e.1) e.2 res) ∅ obj.

Definition VALUE_KEYS : list string := ["$"].

Definition isValueKey (key : string) : bool := bool_decide (key ∈ VALUE_KEYS).

(** [key in obj && v === obj[key]] for a scalar [v]: an inherited member
    is never [===] to a scalar. *)
Definition same_prop (obj : AtTrimmedValue) (key : string) (v : jsval) : bool :=
  match obj !! key with
  | Some w => strict_eq v w
  | None => false
  end.

(** The loop runs over the own keys of [obj1]; [common[key] = ...] leaves
    an own property under the keys of [own_on_write]. *)
Definition findCommonProperties (obj1 obj2 : AtTrimmedValue) : gmap string jsval :=
  filter (λ kv, isValueKey kv.1 = false ∧ same_prop obj2 kv.1 kv.2 = true
                ∧ own_on_write kv.1 = true) obj1.

Definition findCommonInArray (items : list AtTrimmedValue) : gmap string jsval :=
  match items with
  | [] => ∅
  | first :: others =>
    let common :=
      filter (λ kv, isValueKey kv.1 = false ∧ own_on_write kv.1 = true) first in
    foldl (λ common item, filter (λ kv, same_prop item kv.1 kv.2 = true) common)
          common others
  end.

(** [if (!(key in metadata)) varying[key] = item[key]] over the own keys
    of [item]: [in] also finds the inherited members. *)
Definition extractVaryingProperties (item : AtTrimmedValue)
    (metadata : gmap string jsval) : gmap string jsval :=
  filter (λ kv, has_key metadata kv.1 = false) item.

Definition createGroup (items : list AtTrimmedValue) : OptimizedGroup :=
  let metadata := findCommonInArray items in
  {| metadata := metadata;
     g_values := map (λ item, extractVaryingProperties item metadata) items |}.

(** The group of an item that stays alone: the value fields on one side,
    everything else in the metadata. *)
Definition single_group (item : AtTrimmedValue) : OptimizedGroup :=
  {| metadata := filter (λ kv, isValueKey kv.1 = false ∧ own_on_write kv.1 = true) item;
     g_values := [filter (λ kv, isValueKey kv.1 = true) item] |}.

(** The search for the pair with the most common properties: the state is
    [(maxCommonCount, bestCommonProps)]. *)
Definition best_step (pivot : AtTrimmedValue) (acc : Z * gmap string jsval)
    (item : AtTrimmedValue) : Z * gmap string jsval :=
  let commonProps := findCommonProperties pivot item in
  let commonCount := Z.of_nat (size commonProps) in
  if bool_decide (commonCount > acc.1)%Z then (commonCount, commonProps) else acc.

(** [Object.entries(bestCommonProps).every(([key, value]) => item[key] === value)] *)
Definition hasAllCommonProps (bestCommonProps : gmap string jsval)
    (item : AtTrimmedValue) : bool :=
  bool_decide (map_Forall (λ key value,
    match item !! key with
    | Some w => strict_eq w value
    | None => false
    end = true) bestCommonProps).

(** The [while] loop, with [fuel] turns at most; [None] when the fuel runs
    out before [remaining] is empty. *)
Fixpoint grouping_loop (fuel : nat) (remaining : list AtTrimmedValue)
    (groups : list OptimizedGroup) : option (list OptimizedGroup) :=
  match remaining with
  | [] => Some groups
  | [item] => Some (groups ++ [single_group item])
  | pivot :: others =>
    match fuel with
    | O => None
    | S fuel =>
      let '(maxCommonCount, bestCommonProps) :=
        foldl (best_step pivot) ((-1)%Z, ∅) others in
      if bool_decide (maxCommonCount = 0%Z) then
        grouping_loop fuel others (groups ++ [single_group pivot])
      else
        let groupItems := filter (λ item, hasAllCommonProps bestCommonProps item = true) remaining in
        let nextRemaining := filter (λ item, hasAllCommonProps bestCommonProps item ≠ true) remaining in
        grouping_loop fuel nextRemaining (groups ++ [createGroup groupItems])
    end
  end.

(** [groups.sort((a, b) => keys(b.metadata).length - keys(a.metadata).length)]:
    a stable sort, the groups with more metadata keys first. *)
Fixpoint sort_insert (g : OptimizedGroup) (l : list OptimizedGroup) : list OptimizedGroup :=
  match l with
  | [] => [g]
  | h :: t =>
    if bool_decide (size (metadata g) < size (metadata h))
    then h :: sort_insert g t
    else g :: l
  end.

Definition sort_groups (l : list OptimizedGroup) : list OptimizedGroup :=
  foldr sort_insert [] l.

(** The groups of the result.  The sizes and the compression ratio, which
    are computed from the groups once they are final
    ([JSON.stringify(...).length]), are not part of the embedding. *)
Record GroupingResult := { groups : list OptimizedGroup }.

Definition optimizeGroupingByCommonElements (data : list AtTrimmedValue)
    : option GroupingResult :=
  match data with
  | [] => Some {| groups := [] |}
  | _ =>
    match grouping_loop (length data) data [] with
    | Some groups => Some {| groups := sort_groups groups |}
    | None => None
    end
  end.

End Utils.

Import Packing Utils.

(** ** The vocabulary of the statements *)

(** A string that is a sequence of white-space code points. *)
Inductive ws_only : string → Prop :=
  | ws_nil : ws_only ""
  | ws_one a s : is_ws1 a = true → ws_only s → ws_only (String a s)
  | ws_two a b s : is_ws2 a b = true → ws_only s → ws_only (String a (String b s))
  | ws_three a b c s :
      is_ws3 a b c = true → ws_only s → ws_only (String a (String b (String c s))).

Definition pivot_candidate (obj : ClassObj) : Prop :=
  o_id obj ∈ PIVOT_CANDIDATE_KEYS ∧ hasUnit obj = true.

Definition pivot_by_vocabulary_order (classInf : ClassInf) : option string :=
  find (λ k, existsb (λ obj, bool_decide (o_id obj = k) && hasUnit obj)
                     (CLASS_OBJ classInf))
       PIVOT_CANDIDATE_KEYS.

Definition mk_class (code : string) (u : option string) : ClassObjClass :=
  {| c_code := code; c_name := code; c_level := "1"; c_unit := u;
     c_parentCode := None; c_addInf := None |}.

Definition mk_obj (id : string) (classes : list ClassObjClass) : ClassObj :=
  {| o_id := id; o_name := id; o_description := None; o_EXPLANATION := None;
     o_CLASS := Many classes |}.

Definition classInf_cat_first : ClassInf :=
  {| CLASS_OBJ := [mk_obj "cat01" [mk_class "A" (Some "yen")];
                   mk_obj "tab" [mk_class "X" (Some "count")]] |}.

Global Instance CodeValue_eq_dec : EqDecision CodeValue.
Proof. solve_decision. Defined.

Global Instance Title_eq_dec : EqDecision Title.
Proof. solve_decision. Defined.

Global Instance TableInf_eq_dec : EqDecision TableInf.
Proof. solve_decision. Defined.

(** The list without the entries that repeat an earlier entry exactly. *)
Fixpoint dedup_first_aux (seen l : list TableInf) : list TableInf :=
  match l with
  | [] => []
  | x :: rest =>
    if bool_decide (x ∈ seen) then dedup_first_aux seen rest
    else x :: dedup_first_aux (x :: seen) rest
  end.

Definition dedup_first (l : list TableInf) : list TableInf := dedup_first_aux [] l.

(** The state of the loop has met the table [x], in a turn that
    returned. *)
Definition met (x : TableInf)
    (st : gmap string (gmap string TableGroup) * gset string) : Prop :=
  t_id x ∈ st.2
  ∧ inherited (cv_text (t_GOV_ORG x)) = false
  ∧ is_Some (st.1 !! cv_text (t_GOV_ORG x))
  ∧ (inherited (t_STATISTICS_NAME x) = false →
     is_Some (tbl_get st.1 (cv_text (t_GOV_ORG x)) (t_STATISTICS_NAME x))).

Global Arguments PIVOT_CANDIDATE_KEYS : simpl never.

Global Arguments ALL_DIM_KEYS : simpl never.

(** The values a dimension takes across the records. *)
Definition takes (rows : list Value) (k v : string) : Prop :=
  ∃ row, row ∈ rows ∧ attr row k = Some v.

Definition is_single (u : gmap string (list string)) (k : string) : Prop :=
  ∃ v, u !! k = Some [v].

Global Instance is_single_dec u k : Decision (is_single u k).
Proof.
  unfold is_single. destruct (u !! k) as [[|v [|w l]]|].
  - right. by intros [? ?].
  - left. by exists v.
  - right. by intros [? ?].
  - right. by intros [? ?].
Defined.

Definition value_of (attrs : list (string * string)) (v : string) : Value :=
  {| v_attrs := list_to_map attrs; v_val := JStr v |}.

Definition dataInf_partial : DataInf :=
  {| NOTE := None; ANNOTATION := None;
     VALUE := Many [value_of [("@area", "A")] "1"; value_of [] "2"] |}.

(** The distinct group keys of the records, in the order of their first
    record. *)
Definition keys_seen (dims : list string) (rows : list Value) : list string :=
  foldl (λ ks row, set_add (row_groupKey dims row) ks) [] rows.

(** The records of one group key. *)
Definition rows_of_key (dims : list string) (key : string) (rows : list Value)
    : list Value :=
  filter (λ row, row_groupKey dims row = key) rows.

(** The group a new key is given. *)
Definition blank_group (valueCols : list ValueColDef) (dims : list string)
    (row : Value) : Group :=
  {| dimValues := row_dimValues dims row;
     values := replicate (length valueCols) CNull;
     annotations := [] |}.

(** What a record does to the group of its key. *)
Definition feed `{!Runtime} (pivotId : option string) (pivotIndex : gmap string nat)
    (group : Group) (row : Value) : Group :=
  match target_col pivotId pivotIndex row with
  | Some colIdx => store_value colIdx row group
  | None => group
  end.

(** The group of a key once all its records have been through. *)
Definition group_of `{!Runtime} (pivotId : option string)
    (pivotIndex : gmap string nat) (valueCols : list ValueColDef)
    (dims : list string) (rows : list Value) (key : string) : Group :=
  match rows_of_key dims key rows with
  | [] => {| dimValues := []; values := []; annotations := [] |}
  | first :: _ =>
    foldl (feed pivotId pivotIndex) (blank_group valueCols dims first)
          (rows_of_key dims key rows)
  end.

(** The annotation a record leaves, with its column. *)
Definition ann_of (pivotId : option string) (pivotIndex : gmap string nat)
    (row : Value) : option (nat * string) :=
  match target_col pivotId pivotIndex row, attr row "annotation" with
  | Some colIdx, Some a => if truthy (Some a) then Some (colIdx, a) else None
  | _, _ => None
  end.

(** The position of a key in a list of keys. *)
Fixpoint key_index (keys : list string) (key : string) : nat :=
  match keys with
  | [] => 0
  | k :: rest => if decide (k = key) then 0 else S (key_index rest key)
  end.

(** [groupMap] as a function of its keys. *)
Definition tabulate (f : string → Group) (keys : list string) : list (string * Group) :=
  map (λ k, (k, f k)) keys.

(** The row of a group. *)
Definition row_of (group : Group) : list cell :=
  map cell_of_dim (dimValues group) ++ values group.

(** The annotations of a group, with the index of its row. *)
Definition tagged (rowIdx : nat) (group : Group) : list (nat * nat * string) :=
  map (λ a, (rowIdx, a.1, a.2)) (annotations group).

(** The values a sequence of records leaves in an array of cells. *)
Definition write_all `{!Runtime} (pivotId : option string)
    (pivotIndex : gmap string nat) (cells : list cell) (rows : list Value)
    : list cell :=
  foldl (λ cells row,
           match target_col pivotId pivotIndex row with
           | Some colIdx => array_set colIdx (normalizeValue (v_val row)) cells
           | None => cells
           end) cells rows.

(** Every record goes to a column below [n]. *)
Definition cols_below (pivotId : option string) (pivotIndex : gmap string nat)
    (n : nat) (rows : list Value) : Prop :=
  ∀ row c, row ∈ rows → target_col pivotId pivotIndex row = Some c → c < n.

(** The code list of the pivot axis. *)
Definition pivot_codes (pivot : option (ClassObj * string)) : list string :=
  match pivot with
  | Some (pivotObj, _) => map c_code (toArray (o_CLASS pivotObj))
  | None => []
  end.

Global Instance pivot_candidate_dec (obj : ClassObj) : Decision (pivot_candidate obj).
Proof. unfold pivot_candidate. apply _. Defined.

Definition classInf_tab : ClassInf :=
  {| CLASS_OBJ := [mk_obj "tab" [mk_class "X" (Some "yen"); mk_class "Y" (Some "count")];
                   mk_obj "cat01" [mk_class "A" None; mk_class "B" None]] |}.

Definition classInf_plain : ClassInf :=
  {| CLASS_OBJ := [mk_obj "tab" [mk_class "X" None];
                   mk_obj "cat01" [mk_class "A" None; mk_class "B" None]] |}.

Definition dataInf_overwrite : DataInf :=
  {| NOTE := None; ANNOTATION := None;
     VALUE := Many [value_of [("@tab", "X"); ("@cat01", "A"); ("@annotation", "*")] "a";
                    value_of [("@tab", "X"); ("@cat01", "A"); ("@annotation", "#")] "b";
                    value_of [("@tab", "Y"); ("@cat01", "B")] "c"] |}.

Definition dataInf_unknown : DataInf :=
  {| NOTE := None; ANNOTATION := None;
     VALUE := Many [value_of [("@tab", "Z")] "5"] |}.

(** What the search for the best pair keeps: properties of the pivot that
    are equal to themselves. *)
Definition of_pivot (pivot best : gmap string jsval) : Prop :=
  ∀ k v, best !! k = Some v →
         isValueKey k = false ∧ own_on_write k = true
         ∧ pivot !! k = Some v ∧ strict_eq v v = true.

(** A group stands alone or shares a property. *)
Definition alone_or_sharing (items : list (gmap string jsval)) : Prop :=
  items ≠ [] ∧ (length items = 1 ∨ metadata (createGroup items) ≠ ∅).

(** No metadata attribute of the item is NaN (a record read from JSON has
    none). *)
Definition nan_free (item : gmap string jsval) : Prop :=
  ∀ k v, item !! k = Some v → isValueKey k = false → v ≠ JNum NaN.

(** The item has no own property [__proto__] (a record that [stripAtPrefix]
    returns has none). *)
Definition proto_free (item : gmap string jsval) : Prop :=
  item !! "__proto__" = None.

Definition item_of (attrs : list (string * string)) : gmap string jsval :=
  list_to_map (map (λ p, (p.1, JStr p.2)) attrs).

Definition sample_items : list (gmap string jsval) :=
  [item_of [("area", "13"); ("time", "2020"); ("$", "5")];
   item_of [("area", "13"); ("time", "2021"); ("$", "6")];
   item_of [("cat01", "A"); ("$", "7")]].

(** Two records with an attribute named like a member that every object
    inherits. *)
Definition inherited_name_items : list (gmap string jsval) :=
  [item_of [("constructor", "a"); ("x", "1"); ("$", "5")];
   item_of [("constructor", "b"); ("x", "1"); ("$", "6")]].

(** The records of one result set carry the same dimension keys: a key of
    the vocabulary is on every record or on none. *)
Definition uniform_presence (rows : list Value) : Prop :=
  Forall (λ k, Forall (λ row, is_Some (attr row k)) rows
               ∨ Forall (λ row, attr row k = None) rows) ALL_DIM_KEYS.

(** The entries of one organisation. *)
Definition of_org (o : string) (l : list ListInf) : list ListInf :=
  filter (λ svy, cv_text (li_GOV_ORG svy) = o) l.

(** The tables that are the first of their id. *)
Definition first_by_id (l : list TableInf) : list TableInf :=
  foldl (λ acc tbl, if bool_decide (t_id tbl ∈ map t_id acc) then acc else acc ++ [tbl])
        [] l.

(** The tables of one organisation and series. *)
Definition of_group (o s : string) (l : list TableInf) : list TableInf :=
  filter (λ tbl, cv_text (t_GOV_ORG tbl) = o ∧ t_STATISTICS_NAME tbl = s) l.

(** The group a new organisation and series is given. *)
Definition blank_table : TableGroup :=
  {| tg_c := ["statsDataId"; "title"]; tg_r := [] |}.

(** The row of a table. *)
Definition table_row (tbl : TableInf) : list string :=
  [t_id tbl; getStringValue (t_TITLE tbl)].

(** The codes of a dimension with a given code, and those of them that
    carry a non-empty unit. *)
Definition with_code (code : string) (classes : list ClassObjClass) : list ClassObjClass :=
  filter (λ c, c_code c = code) classes.

Definition with_unit (code : string) (classes : list ClassObjClass) : list ClassObjClass :=
  filter (λ c, c_code c = code ∧ truthy (c_unit c) = true) classes.

(** The labels and units collected from the codes of a dimension. *)
Definition class_maps (classes : list ClassObjClass)
    : gmap string string * gmap string string :=
  foldl packClassInf_class (∅, ∅) classes.

(** The separator of the group keys, and the strings without it. *)
Definition NUL : string := String "000" "".

Fixpoint nul_free (s : string) : bool :=
  match s with
  | EmptyString => true
  | String a rest => negb (bool_decide (a = "000"%char)) && nul_free rest
  end.

(** The value of a dimension as the group key shows it: a missing value
    reads as the empty string. *)
Definition key_part (row : Value) (dim : string) : string :=
  default "" (attr row dim).

(** The order the groups are returned in: more metadata keys first. *)
Definition richer (a b : OptimizedGroup) : Prop :=
  size (metadata b) ≤ size (metadata a).

(** A key that starts with [@]. *)
Definition at_key (key : string) : Prop := ∃ rest, key = String "@" rest.

Definition dataInf_reordered : DataInf :=
  {| NOTE := None; ANNOTATION := None;
     VALUE := Many [value_of [("@tab", "X"); ("@cat01", "A"); ("@annotation", "#")] "b";
                    value_of [("@tab", "X"); ("@cat01", "A"); ("@annotation", "*")] "a";
                    value_of [("@tab", "Y"); ("@cat01", "B")] "c"] |}.

Definition dataInf_empty : DataInf :=
  {| NOTE := None; ANNOTATION := None; VALUE := Many [] |}.

(** ** Proofs *)

Lemma is_ws2_not_ws1 a b : is_ws2 a b = true → is_ws1 a = false.
Proof.
  unfold is_ws2, is_ws1. intros H.
  apply andb_true_iff in H as [H _]. apply Nat.eqb_eq in H. by rewrite H.
Qed.

Lemma is_ws3_lead a b c :
  is_ws3 a b c = true →
  nat_of_ascii a = 225 ∨ nat_of_ascii a = 226 ∨ nat_of_ascii a = 227
  ∨ nat_of_ascii a = 239.
Proof.
  unfold is_ws3. intros H.
  repeat (apply orb_true_iff in H as [H|H]);
    repeat (apply andb_true_iff in H as [H ?]);
    apply Nat.eqb_eq in H; tauto.
Qed.

Lemma is_ws3_not_ws1 a b c : is_ws3 a b c = true → is_ws1 a = false.
Proof.
  intros H. apply is_ws3_lead in H. unfold is_ws1.
  destruct H as [H|[H|[H|H]]]; by rewrite H.
Qed.

Lemma is_ws3_not_ws2 a b c : is_ws3 a b c = true → is_ws2 a b = false.
Proof.
  intros H. apply is_ws3_lead in H. unfold is_ws2.
  destruct H as [H|[H|[H|H]]]; by rewrite H.
Qed.

Lemma trimStart_ws_only s : ws_only s → trimStart s = "".
Proof.
  induction 1 as [|a s Ha _ IH|a b s Hab _ IH|a b c s Habc _ IH]; simpl.
  - done.
  - by rewrite Ha.
  - by rewrite (is_ws2_not_ws1 _ _ Hab), Hab.
  - by rewrite (is_ws3_not_ws1 _ _ _ Habc), (is_ws3_not_ws2 _ _ _ Habc), Habc.
Qed.

Lemma trim_ws_only s : ws_only s → trim s = "".
Proof. intros H. unfold trim. by rewrite (trimStart_ws_only _ H). Qed.

Section normalize.

Context `{!Runtime}.

(** C6: [normalizeValue] returns a numeric input unchanged; it trims a string
    input and gives the null marker when nothing is left (the empty string,
    a string of white space only), the number when the trimmed string parses
    to a finite number, and the trimmed string itself in every other case:
    ["  12.5 "] gives the number 12.5 and ["N/A"] gives the string ["N/A"]. *)
Theorem normalizeValue_spec :
  (∀ n, normalizeValue (JNum n) = CNum n)
  ∧ (∀ x, trim x = "" → normalizeValue (JStr x) = CNull)
  ∧ normalizeValue (JStr "") = CNull
  ∧ (∀ x, ws_only x → normalizeValue (JStr x) = CNull)
  ∧ (∀ x, trim x ≠ "" → isFinite (Number (trim x)) = true →
       normalizeValue (JStr x) = CNum (Number (trim x)))
  ∧ (∀ x, trim x ≠ "" → isFinite (Number (trim x)) = false →
       normalizeValue (JStr x) = CStr (trim x))
  ∧ (isFinite (Number "12.5") = true →
       normalizeValue (JStr "  12.5 ") = CNum (Number "12.5"))
  ∧ (isFinite (Number "N/A") = false →
       normalizeValue (JStr "N/A") = CStr "N/A").
Proof.
  assert (Hfin : ∀ x, trim x ≠ "" → isFinite (Number (trim x)) = true →
            normalizeValue (JStr x) = CNum (Number (trim x))).
  { intros x Hx Hf. unfold normalizeValue.
    rewrite bool_decide_eq_false_2 by done. by rewrite Hf. }
  assert (Hstr : ∀ x, trim x ≠ "" → isFinite (Number (trim x)) = false →
            normalizeValue (JStr x) = CStr (trim x)).
  { intros x Hx Hf. unfold normalizeValue.
    rewrite bool_decide_eq_false_2 by done. by rewrite Hf. }
  split_and!; try done.
  - intros x Hx. unfold normalizeValue. by rewrite Hx.
  - intros x Hx. unfold normalizeValue. by rewrite (trim_ws_only _ Hx).
  - intros Hf. by apply (Hfin "  12.5 ").
  - intros Hf. by apply (Hstr "N/A").
Qed.

End normalize.

Lemma normalizeValue_spec_witness :
  @normalizeValue sample_runtime (JStr "  12.5 ")
  = CNum (@Number sample_runtime "12.5")
  ∧ @normalizeValue sample_runtime (JStr "N/A") = CStr "N/A".
Proof.
  destruct (@normalizeValue_spec sample_runtime)
    as (_ & _ & _ & _ & _ & _ & Hnum & Hstr).
  split; [apply Hnum|apply Hstr]; vm_compute; reflexivity.
Defined.

Lemma detectPivotDim_loop_spec objs :
  match detectPivotDim_loop objs with
  | Some (obj, id) =>
    ∃ pre post, objs = pre ++ obj :: post ∧ id = o_id obj
      ∧ pivot_candidate obj ∧ Forall (λ o, ¬ pivot_candidate o) pre
  | None => Forall (λ o, ¬ pivot_candidate o) objs
  end.
Proof.
  induction objs as [|obj rest IH]; simpl; first by constructor.
  case_bool_decide as Hid; simpl.
  - destruct (hasUnit obj) eqn:Hu.
    + exists [], rest. do 3 (split; [done|]). constructor.
    + destruct (detectPivotDim_loop rest) as [[o i]|].
      * destruct IH as (pre & post & -> & -> & Hq & Hpre).
        exists (obj :: pre), post. do 3 (split; [done|]).
        constructor; [|done]. intros [_ ?]. congruence.
      * constructor; [|done]. intros [_ ?]. congruence.
  - destruct (detectPivotDim_loop rest) as [[o i]|].
    + destruct IH as (pre & post & -> & -> & Hq & Hpre).
      exists (obj :: pre), post. do 3 (split; [done|]).
      constructor; [|done]. by intros [? _].
    + constructor; [|done]. by intros [? _].
Qed.

Lemma first_candidate_unique (pre post pre' post' : list ClassObj) obj obj' :
  pre ++ obj :: post = pre' ++ obj' :: post' →
  pivot_candidate obj → Forall (λ o, ¬ pivot_candidate o) pre →
  pivot_candidate obj' → Forall (λ o, ¬ pivot_candidate o) pre' →
  pre = pre' ∧ obj = obj' ∧ post = post'.
Proof.
  revert pre'. induction pre as [|a pre IH]; intros [|a' pre'] Heq Hq Hpre Hq' Hpre';
    simplify_eq/=.
  - done.
  - by inversion Hpre'.
  - by inversion Hpre.
  - inversion Hpre; inversion Hpre'; subst.
    destruct (IH pre') as (-> & -> & ->); done.
Qed.

(** C1, amended: the pivot axis is the first object of CLASS_OBJ, in the
    order of the input list, whose id is one of tab, cat01, ..., cat15 and
    whose code list holds a unit-bearing code; there is no pivot axis exactly
    when no object qualifies. *)
Theorem detectPivotDim_first_in_input_order (classInf : ClassInf) :
  (∀ obj id,
     detectPivotDim classInf = Some (obj, id) ↔
     ∃ pre post, CLASS_OBJ classInf = pre ++ obj :: post ∧ id = o_id obj
       ∧ pivot_candidate obj ∧ Forall (λ o, ¬ pivot_candidate o) pre)
  ∧ (detectPivotDim classInf = None ↔
     Forall (λ o, ¬ pivot_candidate o) (CLASS_OBJ classInf)).
Proof.
  unfold detectPivotDim.
  pose proof (detectPivotDim_loop_spec (CLASS_OBJ classInf)) as H.
  destruct (detectPivotDim_loop (CLASS_OBJ classInf)) as [[o i]|]; split.
  - intros obj id. split.
    + intros [= <- <-]. done.
    + intros (pre & post & Heq & -> & Hq & Hpre).
      destruct H as (pre' & post' & Heq' & -> & Hq' & Hpre').
      rewrite Heq in Heq'.
      destruct (first_candidate_unique _ _ _ _ _ _ Heq' Hq Hpre Hq' Hpre')
        as (_ & -> & _). done.
  - split; [done|]. intros Hall.
    destruct H as (pre & post & Heq & _ & Hq & _).
    rewrite Heq in Hall. apply Forall_app in Hall as [_ Hall].
    by inversion Hall.
  - intros obj id. split; [done|].
    intros (pre & post & Heq & _ & Hq & _).
    rewrite Heq in H. apply Forall_app in H as [_ H]. by inversion H.
  - done.
Qed.

(** C1 as stated fails: with cat01 before tab in CLASS_OBJ, both carrying a
    unit, the pivot axis is cat01, not the first of the vocabulary order. *)
Lemma detectPivotDim_not_vocabulary_order :
  ¬ (∀ classInf : ClassInf,
       snd <$> detectPivotDim classInf = pivot_by_vocabulary_order classInf).
Proof.
  intros H. specialize (H classInf_cat_first). vm_compute in H. discriminate.
Qed.

Lemma fold_outcome_app {A B} (f : A → B → outcome A) (l1 l2 : list B) (a : A) :
  fold_outcome f (l1 ++ l2) a
  = match fold_outcome f l1 a with
    | Returns a' => fold_outcome f l2 a'
    | Throws => Throws
    | Escapes => Escapes
    end.
Proof.
  revert a. induction l1 as [|x l1 IH]; intros a; [done|].
  cbn [app fold_outcome]. destruct (f a x); [apply IH|done|done].
Qed.

Lemma fold_outcome_snoc {A B} (f : A → B → outcome A) (l : list B) (x : B) (a : A) :
  fold_outcome f (l ++ [x]) a
  = match fold_outcome f l a with
    | Returns a' => f a' x
    | Throws => Throws
    | Escapes => Escapes
    end.
Proof.
  rewrite fold_outcome_app. destruct (fold_outcome f l a) as [a'| |]; [|done|done].
  cbn [fold_outcome]. by destruct (f a' x).
Qed.

Lemma tbl_get_Some_org (t : gmap string (gmap string TableGroup)) (g s : string) :
  is_Some (tbl_get t g s) → is_Some (t !! g).
Proof. unfold tbl_get. destruct (t !! g); [eauto | by intros [? ?]]. Qed.

Lemma packTableInf_step_met_id (x : TableInf)
    (st : gmap string (gmap string TableGroup) * gset string) :
  met x st → packTableInf_step st x = Returns st.
Proof.
  destruct st as [t ids]. intros (Hid & Ho & Hg & Hs). cbn [fst snd] in *.
  unfold packTableInf_step. rewrite Ho.
  rewrite (bool_decide_eq_true_2 _ Hg).
  destruct (inherited (t_STATISTICS_NAME x)).
  - by rewrite (bool_decide_eq_true_2 _ Hid).
  - rewrite (bool_decide_eq_true_2 _ (Hs eq_refl)).
    by rewrite (bool_decide_eq_true_2 _ Hid).
Qed.

Lemma ensure_org_lookup (t : gmap string (gmap string TableGroup)) (o g : string) :
  is_Some (t !! g) →
  is_Some ((if bool_decide (is_Some (t !! o)) then t else <[o := ∅]> t) !! g).
Proof.
  intros H. case_bool_decide; [done|]. rewrite lookup_insert. by case_decide.
Qed.

Lemma tbl_get_ensure_org (t : gmap string (gmap string TableGroup)) (g s o : string) :
  is_Some (tbl_get t g s) →
  is_Some (tbl_get (if bool_decide (is_Some (t !! o)) then t else <[o := ∅]> t) g s).
Proof.
  intros H. case_bool_decide as Ho; [done|].
  unfold tbl_get. rewrite lookup_insert_ne; [done|].
  intros ->. by apply Ho, (tbl_get_Some_org _ _ s).
Qed.

Lemma tbl_get_alter_mono (f : gmap string TableGroup → gmap string TableGroup)
    (t : gmap string (gmap string TableGroup)) (o g s : string) :
  (∀ inner, is_Some (inner !! s) → is_Some (f inner !! s)) →
  is_Some (tbl_get t g s) → is_Some (tbl_get (alter f o t) g s).
Proof.
  intros Hf. unfold tbl_get. rewrite lookup_alter.
  case_decide as Hgo; [|done]. subst o.
  destruct (t !! g) as [inner|]; simpl; [apply Hf | done].
Qed.

Lemma lookup_alter_is_Some (f : gmap string TableGroup → gmap string TableGroup)
    (t : gmap string (gmap string TableGroup)) (o g : string) :
  is_Some (t !! g) → is_Some (alter f o t !! g).
Proof.
  intros [inner Hinner]. rewrite lookup_alter. case_decide; [|by eexists].
  subst. rewrite Hinner. by eexists.
Qed.

Lemma packTableInf_step_mono (x y : TableInf)
    (st st' : gmap string (gmap string TableGroup) * gset string) :
  met x st → packTableInf_step st y = Returns st' → met x st'.
Proof.
  destruct st as [t ids]. intros (Hid & Ho & Hg & Hs). cbn [fst snd] in *.
  unfold packTableInf_step.
  destruct (inherited (cv_text (t_GOV_ORG y))); [done|].
  set (t1 := if bool_decide (is_Some (t !! _)) then t else _).
  assert (Hg1 : is_Some (t1 !! cv_text (t_GOV_ORG x))) by by apply ensure_org_lookup.
  assert (Hs1 : inherited (t_STATISTICS_NAME x) = false →
                is_Some (tbl_get t1 (cv_text (t_GOV_ORG x)) (t_STATISTICS_NAME x))).
  { intros Hn. by apply tbl_get_ensure_org, Hs. }
  clearbody t1.
  destruct (inherited (t_STATISTICS_NAME y)).
  { case_bool_decide; [|done]. intros [= <-]. done. }
  set (t2 := if bool_decide (is_Some (tbl_get t1 _ _)) then t1 else _).
  assert (Hg2 : is_Some (t2 !! cv_text (t_GOV_ORG x))).
  { subst t2. case_bool_decide; [done|]. by apply lookup_alter_is_Some. }
  assert (Hs2 : inherited (t_STATISTICS_NAME x) = false →
                is_Some (tbl_get t2 (cv_text (t_GOV_ORG x)) (t_STATISTICS_NAME x))).
  { intros Hn. subst t2. case_bool_decide; [by apply Hs1|].
    apply tbl_get_alter_mono; [|by apply Hs1].
    intros inner Hi. rewrite lookup_insert. case_decide; [eauto | done]. }
  clearbody t2.
  case_bool_decide; intros [= <-]; (split; [|split; [|split]]); cbn [fst snd];
    try done.
  - set_solver.
  - by apply lookup_alter_is_Some.
  - intros Hn. apply tbl_get_alter_mono; [|by apply Hs2].
    intros inner [v Hv]. rewrite lookup_alter. case_decide as E; [|eauto].
    rewrite E, Hv. by eexists.
Qed.

Lemma packTableInf_step_met (x : TableInf)
    (st st' : gmap string (gmap string TableGroup) * gset string) :
  packTableInf_step st x = Returns st' → met x st'.
Proof.
  destruct st as [t ids]. unfold packTableInf_step.
  set (o := cv_text (t_GOV_ORG x)). set (s := t_STATISTICS_NAME x).
  destruct (inherited o) eqn:Hio; [done|].
  set (t1 := if bool_decide (is_Some (t !! o)) then t else _).
  assert (Ho : is_Some (t1 !! o)).
  { subst t1. case_bool_decide; [done|]. rewrite lookup_insert_eq. eauto. }
  clearbody t1.
  destruct (inherited s) eqn:His.
  { case_bool_decide as Hid; [|done]. intros [= <-].
    unfold met. fold o s. rewrite Hio, His. cbn [fst snd]. done. }
  set (t2 := if bool_decide (is_Some (tbl_get t1 o s)) then t1 else _).
  assert (Hg2 : is_Some (tbl_get t2 o s)).
  { subst t2. case_bool_decide; [done|].
    unfold tbl_get. rewrite lookup_alter_eq. destruct Ho as [inner ->]. simpl.
    rewrite lookup_insert_eq. eauto. }
  clearbody t2.
  case_bool_decide; intros [= <-]; unfold met; fold o s; rewrite Hio;
    cbn [fst snd]; (split; [|split; [done|split]]).
  - done.
  - by eapply tbl_get_Some_org.
  - done.
  - set_solver.
  - apply lookup_alter_is_Some. by eapply tbl_get_Some_org.
  - intros _. apply tbl_get_alter_mono; [|done].
    intros inner Hi. rewrite lookup_alter_eq. destruct Hi as [? ->]. by eexists.
Qed.

Lemma fold_step_mono (x : TableInf) (l : list TableInf) :
  ∀ st st' : gmap string (gmap string TableGroup) * gset string,
  met x st → fold_outcome packTableInf_step l st = Returns st' → met x st'.
Proof.
  induction l as [|y l IH]; intros st st' H; cbn [fold_outcome].
  - by intros [= <-].
  - destruct (packTableInf_step st y) as [st1| |] eqn:Hy; [|done|done].
    apply IH. exact (packTableInf_step_mono _ _ _ _ H Hy).
Qed.

Lemma fold_step_dedup (l : list TableInf) :
  ∀ (seen : list TableInf) (st : gmap string (gmap string TableGroup) * gset string),
  Forall (λ x, met x st) seen →
  fold_outcome packTableInf_step (dedup_first_aux seen l) st
  = fold_outcome packTableInf_step l st.
Proof.
  induction l as [|x l IH]; intros seen st Hseen; [done|].
  cbn [dedup_first_aux]. case_bool_decide as Hx.
  - rewrite Forall_forall in Hseen. cbn [fold_outcome].
    rewrite (packTableInf_step_met_id x st) by auto.
    apply IH. by apply Forall_forall.
  - cbn [fold_outcome].
    destruct (packTableInf_step st x) as [st1| |] eqn:Hstep; [|done|done].
    apply IH. constructor; [exact (packTableInf_step_met _ _ _ Hstep)|].
    eapply Forall_impl; [done|]. intros y Hy.
    exact (packTableInf_step_mono _ _ _ _ Hy Hstep).
Qed.

Lemma fold_step_repeat (l1 l2 l3 : list TableInf) (x : TableInf)
    (st : gmap string (gmap string TableGroup) * gset string) :
  fold_outcome packTableInf_step (l1 ++ x :: l2 ++ l3) st
  = fold_outcome packTableInf_step (l1 ++ x :: l2 ++ x :: l3) st.
Proof.
  rewrite !fold_outcome_app.
  destruct (fold_outcome packTableInf_step l1 st) as [st1| |]; [|done|done].
  cbn [fold_outcome].
  destruct (packTableInf_step st1 x) as [st2| |] eqn:Hx; [|done|done].
  rewrite !fold_outcome_app.
  destruct (fold_outcome packTableInf_step l2 st2) as [st3| |] eqn:Hl2; [|done|done].
  cbn [fold_outcome].
  rewrite (packTableInf_step_met_id x st3); [done|].
  eapply fold_step_mono; [|exact Hl2]. exact (packTableInf_step_met _ _ _ Hx).
Qed.

Lemma elem_of_set_add x y s : x ∈ set_add y s ↔ x = y ∨ x ∈ s.
Proof.
  unfold set_add. case_bool_decide as Hy.
  - split; [auto|]. by intros [->|].
  - rewrite elem_of_app, list_elem_of_singleton. tauto.
Qed.

Lemma NoDup_set_add y s : NoDup s → NoDup (set_add y s).
Proof.
  unfold set_add. case_bool_decide as Hy; [done|]. intros Hs.
  apply NoDup_app. split_and!; [done| |apply NoDup_singleton].
  intros x Hx ->%list_elem_of_singleton. done.
Qed.

Lemma NoDup_ALL_DIM_KEYS : NoDup ALL_DIM_KEYS.
Proof. apply (bool_decide_unpack _). by vm_compute. Qed.

Section present.

Variable exclude : list string.

Lemma elem_of_present_keys row k (keys : list string) : ∀ present,
  k ∈ foldl (λ present k,
               if bool_decide (k ∈ exclude) then present
               else if bool_decide (is_Some (attr row k)) then set_add k present
               else present) present keys
  ↔ k ∈ present ∨ (k ∈ keys ∧ (k ∉ exclude) ∧ is_Some (attr row k)).
Proof.
  induction keys as [|k' keys IH]; intros present; simpl.
  - set_solver.
  - rewrite IH. repeat case_bool_decide; rewrite ?elem_of_set_add; set_solver.
Qed.

Lemma elem_of_build_present_acc rows k : ∀ present,
  k ∈ foldl (present_row exclude) present rows
  ↔ k ∈ present
    ∨ (k ∈ ALL_DIM_KEYS ∧ (k ∉ exclude) ∧ ∃ row, row ∈ rows ∧ is_Some (attr row k)).
Proof.
  induction rows as [|row rows IH]; intros present; simpl.
  - set_solver.
  - rewrite IH. unfold present_row. rewrite elem_of_present_keys. set_solver.
Qed.

Lemma elem_of_build_present rows k :
  k ∈ build_present exclude rows
  ↔ k ∈ ALL_DIM_KEYS ∧ (k ∉ exclude) ∧ ∃ row, row ∈ rows ∧ is_Some (attr row k).
Proof. unfold build_present. rewrite elem_of_build_present_acc. set_solver. Qed.

Lemma build_candidateDims_acc (present keys : list string) : ∀ acc,
  foldl (λ candidateDims k,
           if negb (bool_decide (k ∈ exclude)) && bool_decide (k ∈ present)
           then candidateDims ++ [k] else candidateDims) acc keys
  = acc ++ filter (λ k, (k ∉ exclude) ∧ k ∈ present) keys.
Proof.
  induction keys as [|k keys IH]; intros acc; simpl.
  - by rewrite app_nil_r.
  - rewrite IH. rewrite filter_cons.
    repeat case_bool_decide; simpl; case_decide; try tauto.
    by rewrite <- app_assoc.
Qed.

Lemma build_candidateDims_filter (present : list string) :
  build_candidateDims exclude present
  = filter (λ k, (k ∉ exclude) ∧ k ∈ present) ALL_DIM_KEYS.
Proof. unfold build_candidateDims. by rewrite build_candidateDims_acc. Qed.

End present.

Lemma NoDup_build_candidateDims (exclude present : list string) :
  NoDup (build_candidateDims exclude present).
Proof.
  rewrite build_candidateDims_filter. apply NoDup_filter, NoDup_ALL_DIM_KEYS.
Qed.

Section uniq.

Variable candidateDims : list string.

Lemma uniq_row_spec row (d : string) (dims : list string) :
  ∀ (u : gmap string (list string)) (l : list string),
  u !! d = Some l →
  ∃ l', foldl (λ u dim,
                 match attr row dim with
                 | Some v => alter (set_add v) dim u
                 | None => u
                 end) u dims !! d = Some l'
        ∧ (NoDup l → NoDup l')
        ∧ ∀ v, v ∈ l' ↔ v ∈ l ∨ (d ∈ dims ∧ attr row d = Some v).
Proof.
  induction dims as [|dim dims IH]; intros u l Hl; simpl.
  - exists l. set_solver.
  - destruct (attr row dim) as [w|] eqn:Hw.
    + destruct (decide (dim = d)) as [->|Hne].
      * destruct (IH (alter (set_add w) d u) (set_add w l)) as (l' & Hl' & Hnd & Hin).
        { by rewrite lookup_alter_eq, Hl. }
        exists l'. split; [done|]. split.
        { intros ?. by apply Hnd, NoDup_set_add. }
        intros v. rewrite Hin, elem_of_set_add. rewrite Hw. set_solver.
      * destruct (IH (alter (set_add w) dim u) l) as (l' & Hl' & Hnd & Hin).
        { by rewrite lookup_alter_ne. }
        exists l'. split; [done|]. split; [done|].
        intros v. rewrite Hin. set_solver.
    + destruct (IH u l Hl) as (l' & Hl' & Hnd & Hin).
      exists l'. split; [done|]. split; [done|].
      intros v. rewrite Hin. split; [set_solver|].
      intros [?|[Hd ?]]; [by left|].
      apply elem_of_cons in Hd as [->|?]; [congruence|]. by right.
Qed.

Lemma uniq_rows_spec (rows : list Value) (d : string) :
  ∀ (u : gmap string (list string)) (l : list string),
  d ∈ candidateDims →
  u !! d = Some l →
  ∃ l', foldl (uniq_row candidateDims) u rows !! d = Some l'
        ∧ (NoDup l → NoDup l')
        ∧ ∀ v, v ∈ l' ↔ v ∈ l ∨ takes rows d v.
Proof.
  induction rows as [|row rows IH]; intros u l Hd Hl; simpl.
  - exists l. unfold takes. set_solver.
  - destruct (uniq_row_spec row d candidateDims u l Hl) as (l1 & Hl1 & Hnd1 & Hin1).
    destruct (IH (uniq_row candidateDims u row) l1 Hd Hl1) as (l' & Hl' & Hnd & Hin).
    exists l'. split; [done|]. split; [auto|].
    intros v. rewrite Hin, Hin1. unfold takes. set_solver.
Qed.

Lemma uniq_init_lookup d (dims : list string) : ∀ u : gmap string (list string),
  d ∈ dims → foldl (λ u dim, <[dim := []]> u) u dims !! d = Some [].
Proof.
  induction dims as [|dim dims IH]; intros u Hd; simpl; [set_solver|].
  destruct (decide (d ∈ dims)) as [?|Hn]; [by apply IH|].
  assert (d = dim) as -> by set_solver.
  clear IH Hd. revert u. induction dims as [|d' dims IH]; intros u; simpl.
  - by rewrite lookup_insert_eq.
  - rewrite insert_insert_ne by set_solver. apply IH. set_solver.
Qed.

Lemma build_uniqueValuesPerDim_spec (rows : list Value) (d : string) :
  d ∈ candidateDims →
  ∃ l, build_uniqueValuesPerDim candidateDims rows !! d = Some l
       ∧ NoDup l ∧ ∀ v, v ∈ l ↔ takes rows d v.
Proof.
  intros Hd. unfold build_uniqueValuesPerDim.
  destruct (uniq_rows_spec rows d _ [] Hd (uniq_init_lookup d candidateDims ∅ Hd))
    as (l & Hl & Hnd & Hin).
  exists l. split; [done|]. split; [apply Hnd; constructor|].
  intros v. rewrite Hin. set_solver.
Qed.

End uniq.

Lemma build_fixed_dims_acc (u : gmap string (list string)) (cands : list string) :
  ∀ (fixed : gmap string string) (dims : list string),
  let res := foldl (λ '(fixed, dims) dim,
                      match u !! dim with
                      | Some [v] => (<[dim := v]> fixed, dims)
                      | _ => (fixed, dims ++ [dim])
                      end) (fixed, dims) cands in
  res.2 = dims ++ filter (λ k, ¬ is_single u k) cands
  ∧ ∀ k v, res.1 !! k = Some v ↔
           (k ∈ cands ∧ u !! k = Some [v]) ∨ (¬ (k ∈ cands ∧ is_single u k) ∧ fixed !! k = Some v).
Proof.
  induction cands as [|dim cands IH]; intros fixed dims; simpl.
  - split; [by rewrite app_nil_r|]. set_solver.
  - rewrite filter_cons.
    destruct (u !! dim) as [[|w [|w' l]]|] eqn:Hu.
    + destruct (IH fixed (dims ++ [dim])) as [IH1 IH2]. split.
      * rewrite IH1. rewrite decide_True; [by rewrite <- app_assoc|].
        intros [? ?]; congruence.
      * intros k v. rewrite IH2. split.
        -- intros [[? ?]|[Hn ?]]; [left; set_solver|right]. split; [|done].
           intros [Hk [x Hx]]. apply elem_of_cons in Hk as [->|?]; [congruence|].
           apply Hn. split; [done|by exists x].
        -- intros [[Hk ?]|[Hn ?]].
           ++ apply elem_of_cons in Hk as [->|?]; [congruence|]. by left.
           ++ right. split; [|done]. intros [? ?]. apply Hn. set_solver.
    + destruct (IH (<[dim := w]> fixed) dims) as [IH1 IH2]. split.
      * rewrite IH1. rewrite decide_False; [done|].
        intros Hn. apply Hn. by exists w.
      * intros k v. rewrite IH2. split.
        -- intros [[? ?]|[Hn Hl]]; [left; set_solver|].
           rewrite lookup_insert in Hl. case_decide as E.
           ++ subst. inversion Hl; subst. left. set_solver.
           ++ right. split; [|done]. intros [Hk Hs]. apply Hn.
              apply elem_of_cons in Hk as [->|?]; done.
        -- intros [[Hk Hv]|[Hn Hf]].
           ++ destruct (decide (k ∈ cands)); [by left|].
              assert (k = dim) as -> by set_solver.
              right. split; [tauto|]. rewrite lookup_insert_eq. congruence.
           ++ right. split; [intros [? ?]; apply Hn; set_solver|].
              rewrite lookup_insert_ne; [done|]. intros ->.
              apply Hn. split; [set_solver|by exists w].
    + destruct (IH fixed (dims ++ [dim])) as [IH1 IH2]. split.
      * rewrite IH1. rewrite decide_True; [by rewrite <- app_assoc|].
        intros [? ?]; congruence.
      * intros k v. rewrite IH2. split.
        -- intros [[? ?]|[Hn ?]]; [left; set_solver|right]. split; [|done].
           intros [Hk [x Hx]]. apply elem_of_cons in Hk as [->|?]; [congruence|].
           apply Hn. split; [done|by exists x].
        -- intros [[Hk ?]|[Hn ?]].
           ++ apply elem_of_cons in Hk as [->|?]; [congruence|]. by left.
           ++ right. split; [|done]. intros [? ?]. apply Hn. set_solver.
    + destruct (IH fixed (dims ++ [dim])) as [IH1 IH2]. split.
      * rewrite IH1. rewrite decide_True; [by rewrite <- app_assoc|].
        intros [? ?]; congruence.
      * intros k v. rewrite IH2. split.
        -- intros [[? ?]|[Hn ?]]; [left; set_solver|right]. split; [|done].
           intros [Hk [x Hx]]. apply elem_of_cons in Hk as [->|?]; [congruence|].
           apply Hn. split; [done|by exists x].
        -- intros [[Hk ?]|[Hn ?]].
           ++ apply elem_of_cons in Hk as [->|?]; [congruence|]. by left.
           ++ right. split; [|done]. intros [? ?]. apply Hn. set_solver.
Qed.

Lemma build_fixed_dims_spec (u : gmap string (list string)) (cands : list string) :
  (build_fixed_dims cands u).2 = filter (λ k, ¬ is_single u k) cands
  ∧ ∀ k v, (build_fixed_dims cands u).1 !! k = Some v ↔ k ∈ cands ∧ u !! k = Some [v].
Proof.
  destruct (build_fixed_dims_acc u cands ∅ []) as [H1 H2]. split; [done|].
  intros k v. unfold build_fixed_dims. rewrite H2. rewrite lookup_empty. naive_solver.
Qed.

Lemma elem_of_build_excludeFromDims (pivotId : option string) (k : string) :
  k ∈ build_excludeFromDims pivotId
  ↔ k = "unit" ∨ (truthy pivotId = true ∧ pivotId = Some k).
Proof.
  unfold build_excludeFromDims. rewrite elem_of_set_add.
  destruct pivotId as [p|]; simpl.
  - case_bool_decide as Hp; simpl.
    + rewrite elem_of_nil. naive_solver.
    + rewrite elem_of_set_add, elem_of_nil. naive_solver.
  - rewrite elem_of_nil. naive_solver.
Qed.

Lemma unit_not_dim : "unit" ∉ ALL_DIM_KEYS.
Proof. apply (bool_decide_unpack _). by vm_compute. Qed.

Lemma packDataInf_plan_pivotId (dataInf : DataInf) (classInf : ClassInf) :
  p_pivotId (packDataInf_plan dataInf classInf) = snd <$> detectPivotDim classInf.
Proof. unfold packDataInf_plan. by destruct (build_fixed_dims _ _). Qed.

Lemma packDataInf_plan_fixed_dims (dataInf : DataInf) (classInf : ClassInf) :
  (p_fixed (packDataInf_plan dataInf classInf),
   p_dims (packDataInf_plan dataInf classInf))
  = build_fixed_dims
      (build_candidateDims
         (build_excludeFromDims (p_pivotId (packDataInf_plan dataInf classInf)))
         (build_present
            (build_excludeFromDims (p_pivotId (packDataInf_plan dataInf classInf)))
            (toArray (VALUE dataInf))))
      (build_uniqueValuesPerDim
         (build_candidateDims
            (build_excludeFromDims (p_pivotId (packDataInf_plan dataInf classInf)))
            (build_present
               (build_excludeFromDims (p_pivotId (packDataInf_plan dataInf classInf)))
               (toArray (VALUE dataInf))))
         (toArray (VALUE dataInf))).
Proof.
  rewrite packDataInf_plan_pivotId.
  unfold packDataInf_plan.
  destruct (build_fixed_dims _ _) as [fixed dims]. reflexivity.
Qed.

Section fixed_dims.

Context `{!Runtime}.

Lemma packDataInf_fixed (dataInf : DataInf) (classInf : ClassInf) :
  default ∅ (fixed (packDataInf dataInf classInf))
  = p_fixed (packDataInf_plan dataInf classInf).
Proof.
  unfold packDataInf. destruct (assemble _) as [rows annRows]. cbn [fixed].
  case_bool_decide as Hs; [|reflexivity]. cbn [default].
  symmetry. by apply map_size_empty_iff.
Qed.

Lemma packDataInf_dims (dataInf : DataInf) (classInf : ClassInf) :
  dims (packDataInf dataInf classInf) = p_dims (packDataInf_plan dataInf classInf).
Proof. unfold packDataInf. destruct (assemble _). reflexivity. Qed.

Lemma packDataInf_pivotDim (dataInf : DataInf) (classInf : ClassInf) :
  pivotDim (packDataInf dataInf classInf)
  = let pivotId := p_pivotId (packDataInf_plan dataInf classInf) in
    if truthy pivotId then pivotId else None.
Proof. unfold packDataInf. destruct (assemble _). reflexivity. Qed.

Lemma packDataInf_valueCols (dataInf : DataInf) (classInf : ClassInf) :
  valueCols (packDataInf dataInf classInf)
  = p_valueCols (packDataInf_plan dataInf classInf).
Proof. unfold packDataInf. destruct (assemble _). reflexivity. Qed.

Lemma fixed_dims_core (pivotId : option string) (rows : list Value)
    (exclude cands : list string) (u : gmap string (list string))
    (fixed : gmap string string) (dims : list string) (k : string) :
  exclude = build_excludeFromDims pivotId →
  cands = build_candidateDims exclude (build_present exclude rows) →
  u = build_uniqueValuesPerDim cands rows →
  (fixed, dims) = build_fixed_dims cands u →
  let pivotDim := if truthy pivotId then pivotId else None in
  ((is_Some (fixed !! k) ∨ k ∈ dims)
     ↔ k ∈ ALL_DIM_KEYS ∧ pivotDim ≠ Some k ∧ ∃ v, takes rows k v)
  ∧ ¬ (is_Some (fixed !! k) ∧ k ∈ dims)
  ∧ (∀ v, fixed !! k = Some v
       ↔ k ∈ ALL_DIM_KEYS ∧ pivotDim ≠ Some k
         ∧ takes rows k v ∧ ∀ w, takes rows k w → w = v)
  ∧ (k ∈ dims
       ↔ k ∈ ALL_DIM_KEYS ∧ pivotDim ≠ Some k
         ∧ ∃ v w, takes rows k v ∧ takes rows k w ∧ v ≠ w)
  ∧ NoDup dims.
Proof.
  intros Hexclude Hcands Hueq Hplan pd. subst pd.
  destruct (build_fixed_dims_spec u cands) as [Hdims Hfixed].
  rewrite <- Hplan in Hdims, Hfixed. cbn [fst snd] in Hdims, Hfixed.
  (* membership in the candidate dimensions *)
  assert (Hcand : ∀ k, k ∈ cands ↔
            k ∈ ALL_DIM_KEYS
            ∧ (if truthy (pivotId) then pivotId else None) ≠ Some k
            ∧ ∃ v, takes rows k v).
  { intros k'. rewrite Hcands, Hexclude.
    rewrite build_candidateDims_filter, list_elem_of_filter.
    rewrite elem_of_build_present, elem_of_build_excludeFromDims.
    split.
    - intros [[Hex (Hk & _ & row & Hrow & [v Hv])] _].
      split; [done|]. split; [|by exists v, row].
      destruct (truthy (pivotId)); [|done]. intros ?. apply Hex. by right.
    - intros (Hk & Hp & v & row & Hrow & Hv).
      assert (Hex : ¬ (k' = "unit" ∨ truthy (pivotId) = true ∧ pivotId = Some k')).
      { intros [->|[Ht Hpk]]; [by apply unit_not_dim|]. by rewrite Ht in Hp. }
      split; [|done]. split; [done|]. split_and!; [done..|].
      exists row. by rewrite Hv. }
  assert (Hu : ∀ k, k ∈ cands →
            ∃ l, u !! k = Some l ∧ NoDup l ∧ ∀ v, v ∈ l ↔ takes rows k v).
  { intros k' Hk'. rewrite Hueq. by apply build_uniqueValuesPerDim_spec. }
  assert (Hfx : ∀ v, fixed !! k = Some v
            ↔ k ∈ ALL_DIM_KEYS
              ∧ (if truthy (pivotId) then pivotId else None) ≠ Some k
              ∧ takes rows k v ∧ ∀ w, takes rows k w → w = v).
  { intros v. rewrite Hfixed. split.
    - intros [Hk Hv]. destruct (Hu k Hk) as (l & Hl & _ & Hin).
      rewrite Hv in Hl. injection Hl as <-.
      apply Hcand in Hk as (? & ? & _). split_and!; [done..| |].
      + apply Hin. by left.
      + intros w Hw%Hin. by apply list_elem_of_singleton in Hw.
    - intros (Hk & Hp & Hv & Huniq).
      assert (Hc : k ∈ cands) by (apply Hcand; eauto).
      split; [done|]. destruct (Hu k Hc) as (l & Hl & Hnd & Hin).
      rewrite Hl. f_equal.
      destruct l as [|a [|b l]].
      + apply Hin in Hv. by apply elem_of_nil in Hv.
      + f_equal. apply Huniq, Hin. by left.
      + exfalso. assert (a = v) as -> by (apply Huniq, Hin; by left).
        assert (b = v) as -> by (apply Huniq, Hin; right; by left).
        apply NoDup_cons in Hnd as [Hnd _]. apply Hnd. by left. }
  assert (Hdm : k ∈ dims
            ↔ k ∈ ALL_DIM_KEYS
              ∧ (if truthy (pivotId) then pivotId else None) ≠ Some k
              ∧ ∃ v w, takes rows k v ∧ takes rows k w ∧ v ≠ w).
  { rewrite Hdims, list_elem_of_filter. split.
    - intros [Hns Hk]. destruct (Hu k Hk) as (l & Hl & Hnd & Hin).
      apply Hcand in Hk as (? & ? & v & Hv). split_and!; [done..|].
      destruct l as [|a [|b l]].
      + apply Hin in Hv. by apply elem_of_nil in Hv.
      + exfalso. apply Hns. by exists a.
      + exists a, b. split_and!.
        * apply Hin. by left.
        * apply Hin. right. by left.
        * intros ->. apply NoDup_cons in Hnd as [Hnd _]. apply Hnd. by left.
    - intros (Hk & Hp & v & w & Hv & Hw & Hne).
      assert (Hc : k ∈ cands) by (apply Hcand; eauto).
      split; [|done]. intros [x Hx].
      destruct (Hu k Hc) as (l & Hl & Hnd & Hin).
      rewrite Hx in Hl. injection Hl as <-.
      apply Hin, list_elem_of_singleton in Hv, Hw. congruence. }
  split_and!.
  - split.
    + intros [[v Hv]|Hd].
      * apply Hfx in Hv as (? & ? & ? & _). eauto.
      * apply Hdm in Hd as (? & ? & v & _ & ? & _). eauto.
    + intros Hc. apply Hcand in Hc.
      destruct (decide (is_single u k)) as [[v Hv]|Hns].
      * left. exists v. by apply Hfixed.
      * right. rewrite Hdims, list_elem_of_filter. done.
  - intros [[v Hv] Hd].
    apply Hfx in Hv as (_ & _ & _ & Huniq).
    apply Hdm in Hd as (_ & _ & a & b & Ha & Hb & Hne).
    apply Huniq in Ha, Hb. congruence.
  - done.
  - done.
  - rewrite Hdims, Hcands. apply NoDup_filter, NoDup_build_candidateDims.
Qed.

(** [fixed] and [dims], whatever the records carry: a dimension key is in
    [fixed] or in [dims] exactly when it is in the vocabulary, is not the
    pivot axis and is carried by a record; it is never in both; [fixed]
    maps it to [v] exactly when [v] is the one value it takes; it is in
    [dims] exactly when it takes two distinct values. *)
Lemma packDataInf_fixed_xor_dims (dataInf : DataInf) (classInf : ClassInf)
    (k : string) :
  let out := packDataInf dataInf classInf in
  let rows := toArray (VALUE dataInf) in
  let fixed := default ∅ (fixed out) in
  ((is_Some (fixed !! k) ∨ k ∈ dims out)
     ↔ k ∈ ALL_DIM_KEYS ∧ pivotDim out ≠ Some k ∧ ∃ v, takes rows k v)
  ∧ ¬ (is_Some (fixed !! k) ∧ k ∈ dims out)
  ∧ (∀ v, fixed !! k = Some v
       ↔ k ∈ ALL_DIM_KEYS ∧ pivotDim out ≠ Some k
         ∧ takes rows k v ∧ ∀ w, takes rows k w → w = v)
  ∧ (k ∈ dims out
       ↔ k ∈ ALL_DIM_KEYS ∧ pivotDim out ≠ Some k
         ∧ ∃ v w, takes rows k v ∧ takes rows k w ∧ v ≠ w)
  ∧ NoDup (dims out).
Proof.
  cbv zeta.
  rewrite packDataInf_fixed, packDataInf_dims, packDataInf_pivotDim.
  eapply fixed_dims_core; [reflexivity..|].
  apply packDataInf_plan_fixed_dims.
Qed.

End fixed_dims.

(** Why the records are taken to carry the same keys: when a key is on some
    records only, [fixed] can hold a value that the other records do not
    have. *)
Lemma packDataInf_fixed_not_shared :
  ¬ (∀ (dataInf : DataInf) (classInf : ClassInf) (k v : string),
       default ∅ (fixed (@packDataInf sample_runtime dataInf classInf)) !! k = Some v →
       ∀ row, row ∈ toArray (VALUE dataInf) → attr row k = Some v).
Proof.
  intros H.
  specialize (H dataInf_partial {| CLASS_OBJ := [] |} "area" "A").
  assert (Hf : default ∅ (fixed (@packDataInf sample_runtime dataInf_partial
                                   {| CLASS_OBJ := [] |})) !! "area" = Some "A")
    by (vm_compute; reflexivity).
  specialize (H Hf (value_of [] "2")).
  assert (Hin : value_of [] "2" ∈ toArray (VALUE dataInf_partial)).
  { simpl. right. left. }
  specialize (H Hin).
  assert (Hn : attr (value_of [] "2") "area" = None) by (vm_compute; reflexivity).
  rewrite Hn in H. clear -H. discriminate H.
Qed.

Section groups.

Context `{!Runtime}.

Variable pivotId : option string.

Variable pivotIndex : gmap string nat.

Variable valueCols : list ValueColDef.

Variable dims : list string.

Local Abbreviation step := (group_step pivotId pivotIndex valueCols dims).

Local Abbreviation key := (row_groupKey dims).

Local Abbreviation G := (group_of pivotId pivotIndex valueCols dims).

Lemma keys_seen_snoc (rows : list Value) (row : Value) :
  keys_seen dims (rows ++ [row]) = set_add (key row) (keys_seen dims rows).
Proof. unfold keys_seen. by rewrite foldl_snoc. Qed.

Lemma elem_of_keys_seen (rows : list Value) (k : string) :
  k ∈ keys_seen dims rows ↔ ∃ row, row ∈ rows ∧ key row = k.
Proof.
  induction rows as [|row rows IH] using rev_ind.
  - split; [by intros ?%elem_of_nil|]. by intros (? & ?%elem_of_nil & _).
  - rewrite keys_seen_snoc, elem_of_set_add, IH. split.
    + intros [->|(r & Hr & Hk)].
      * exists row. split; [|done]. apply elem_of_app. right. by left.
      * exists r. split; [|done]. apply elem_of_app. by left.
    + intros (r & Hr & Hk). apply elem_of_app in Hr as [Hr|Hr].
      * right. by exists r.
      * left. apply list_elem_of_singleton in Hr. by subst.
Qed.

Lemma NoDup_keys_seen (rows : list Value) : NoDup (keys_seen dims rows).
Proof.
  induction rows as [|row rows IH] using rev_ind; [constructor|].
  rewrite keys_seen_snoc. by apply NoDup_set_add.
Qed.

Lemma rows_of_key_nil (rows : list Value) (k : string) :
  k ∉ keys_seen dims rows → rows_of_key dims k rows = [].
Proof.
  intros Hk. unfold rows_of_key.
  destruct (filter _ rows) as [|r l] eqn:Hf; [done|]. exfalso.
  assert (Hr : r ∈ filter (λ row, key row = k) rows) by (rewrite Hf; left).
  apply list_elem_of_filter in Hr as [Hkr Hr].
  apply Hk, elem_of_keys_seen. by exists r.
Qed.

Lemma rows_of_key_cons (rows : list Value) (k : string) :
  k ∈ keys_seen dims rows → ∃ r l, rows_of_key dims k rows = r :: l.
Proof.
  intros (r & Hr & Hk)%elem_of_keys_seen. unfold rows_of_key.
  destruct (filter _ rows) as [|r' l] eqn:Hf; [|by eauto].
  assert (Hin : r ∈ filter (λ row, key row = k) rows)
    by by apply list_elem_of_filter.
  rewrite Hf in Hin. by apply elem_of_nil in Hin.
Qed.

Lemma rows_of_key_snoc (rows : list Value) (row : Value) (k : string) :
  rows_of_key dims k (rows ++ [row])
  = rows_of_key dims k rows ++ (if decide (key row = k) then [row] else []).
Proof.
  unfold rows_of_key. rewrite filter_app. reflexivity.
Qed.

Lemma group_of_snoc_ne (rows : list Value) (row : Value) (k : string) :
  key row ≠ k → G (rows ++ [row]) k = G rows k.
Proof.
  intros Hne. unfold group_of. rewrite rows_of_key_snoc.
  rewrite decide_False by done. by rewrite app_nil_r.
Qed.

Lemma group_of_snoc_seen (rows : list Value) (row : Value) :
  key row ∈ keys_seen dims rows →
  G (rows ++ [row]) (key row) = feed pivotId pivotIndex (G rows (key row)) row.
Proof.
  intros (r & l & Hrl)%rows_of_key_cons. unfold group_of.
  rewrite rows_of_key_snoc, decide_True by done. rewrite Hrl.
  cbn [app]. by rewrite <- foldl_snoc.
Qed.

Lemma group_of_snoc_new (rows : list Value) (row : Value) :
  key row ∉ keys_seen dims rows →
  G (rows ++ [row]) (key row)
  = feed pivotId pivotIndex (blank_group valueCols dims row) row.
Proof.
  intros Hnil%rows_of_key_nil. unfold group_of.
  rewrite rows_of_key_snoc, decide_True by done. by rewrite Hnil.
Qed.

Lemma tabulate_keys (f : string → Group) (keys : list string) :
  (tabulate f keys).*1 = keys.
Proof.
  unfold tabulate. induction keys as [|k keys IH]; [done|].
  cbn [map fmap list_fmap]. cbn. f_equal. exact IH.
Qed.

Lemma tabulate_ext (f g : string → Group) (keys : list string) :
  (∀ k, k ∈ keys → f k = g k) → tabulate f keys = tabulate g keys.
Proof.
  intros Hfg. unfold tabulate. induction keys as [|k keys IH]; [done|].
  cbn [map]. rewrite Hfg by left. f_equal. apply IH.
  intros k' Hk'. apply Hfg. by right.
Qed.

Lemma gm_update_absent (f : Group → Group) (k : string) (gm : list (string * Group)) :
  k ∉ gm.*1 → gm_update f k gm = gm.
Proof.
  induction gm as [|[k' g] gm IH]; intros Hk; [done|].
  cbn [gm_update fst snd]. rewrite bool_decide_eq_false_2.
  - f_equal. apply IH. intros Hin. apply Hk. cbn. by right.
  - intros ->. apply Hk. cbn. by left.
Qed.

Lemma gm_update_app_r (f : Group → Group) (k : string) (gm1 gm2 : list (string * Group)) :
  k ∉ gm1.*1 → gm_update f k (gm1 ++ gm2) = gm1 ++ gm_update f k gm2.
Proof.
  induction gm1 as [|[k' g] gm1 IH]; intros Hk; [done|].
  cbn [gm_update fst snd app]. rewrite bool_decide_eq_false_2.
  - f_equal. apply IH. intros Hin. apply Hk. cbn. by right.
  - intros ->. apply Hk. cbn. by left.
Qed.

Lemma gm_update_tabulate (f : Group → Group) (g : string → Group) (k : string)
    (keys : list string) :
  NoDup keys →
  gm_update f k (tabulate g keys)
  = tabulate (λ k', if decide (k' = k) then f (g k') else g k') keys.
Proof.
  induction keys as [|k' keys IH]; intros Hnd; [done|].
  apply NoDup_cons in Hnd as [Hk' Hnd].
  unfold tabulate. cbn [map gm_update fst snd]. case_bool_decide as Hkk.
  - subst k'. rewrite decide_True by done. f_equal.
    apply (tabulate_ext g). intros k0 Hk0. rewrite decide_False; [done|].
    intros ->. done.
  - rewrite decide_False by done. f_equal. by apply IH.
Qed.

Lemma group_step_feed (gm : list (string * Group)) (row : Value) :
  step gm row
  = gm_update (λ g, feed pivotId pivotIndex g row) (key row)
      (if negb (gm_has gm (key row))
       then gm ++ [(key row, blank_group valueCols dims row)] else gm).
Proof.
  unfold group_step, feed, row_groupKey, blank_group.
  destruct (target_col pivotId pivotIndex row) as [c|]; [done|].
  set (gm' := if negb _ then _ else _). clearbody gm'.
  induction gm' as [|[k g] gm' IH]; [done|].
  cbn [gm_update fst snd]. case_bool_decide; [done|]. by rewrite <- IH.
Qed.

Lemma packDataInf_groups_tabulate (rows : list Value) :
  foldl step [] rows = tabulate (G rows) (keys_seen dims rows).
Proof.
  induction rows as [|row rows IH] using rev_ind; [done|].
  rewrite foldl_snoc, IH, group_step_feed, keys_seen_snoc.
  unfold gm_has. rewrite tabulate_keys. unfold set_add.
  case_bool_decide as Hseen; cbn [negb].
  - rewrite gm_update_tabulate by apply NoDup_keys_seen.
    apply tabulate_ext. intros k Hk. case_decide as Hkk.
    + subst k. by rewrite group_of_snoc_seen.
    + by rewrite group_of_snoc_ne.
  - rewrite gm_update_app_r by by rewrite tabulate_keys.
    unfold tabulate at 2. rewrite map_app. f_equal.
    + apply tabulate_ext. intros k Hk. rewrite group_of_snoc_ne; [done|].
      intros <-. done.
    + cbn [map gm_update fst snd]. rewrite bool_decide_eq_true_2 by done.
      by rewrite group_of_snoc_new.
Qed.

End groups.

Lemma assemble_acc (groups : list Group) :
  ∀ (rows : list (list cell)) (annRows : list (nat * nat * string)),
  foldl assemble_step (rows, annRows) groups
  = (rows ++ map row_of groups,
     annRows ++ concat (imap (λ i, tagged (length rows + i)) groups)).
Proof.
  induction groups as [|g groups IH]; intros rows annRows.
  - cbn. by rewrite !app_nil_r.
  - cbn [foldl assemble_step]. rewrite IH. cbn [map imap concat].
    rewrite <- !app_assoc. cbn [app]. f_equal.
    rewrite Nat.add_0_r. unfold tagged at 2. f_equal. f_equal. f_equal.
    apply imap_ext. intros i x _. cbn. rewrite length_app. cbn.
    f_equal. lia.
Qed.

Lemma assemble_spec (groupMap : list (string * Group)) :
  assemble groupMap
  = (map row_of (groupMap.*2), concat (imap tagged (groupMap.*2))).
Proof. unfold assemble. by rewrite assemble_acc. Qed.

Section feed.

Context `{!Runtime}.

Variable pivotId : option string.

Variable pivotIndex : gmap string nat.

Lemma feed_dimValues (g : Group) (row : Value) :
  dimValues (feed pivotId pivotIndex g row) = dimValues g.
Proof. unfold feed. by destruct (target_col _ _ _). Qed.

Lemma feed_values (g : Group) (row : Value) :
  values (feed pivotId pivotIndex g row)
  = write_all pivotId pivotIndex (values g) [row].
Proof. unfold feed, write_all. cbn. by destruct (target_col _ _ _). Qed.

Lemma feed_annotations (g : Group) (row : Value) :
  annotations (feed pivotId pivotIndex g row)
  = annotations g ++ option_list (ann_of pivotId pivotIndex row).
Proof.
  unfold feed, ann_of. destruct (target_col _ _ _) as [c|].
  - cbn [store_value annotations].
    destruct (attr row "annotation") as [a|]; [|by rewrite app_nil_r].
    destruct (truthy (Some a)); [done|by rewrite app_nil_r].
  - by rewrite app_nil_r.
Qed.

Lemma foldl_feed_dimValues (rows : list Value) : ∀ g,
  dimValues (foldl (feed pivotId pivotIndex) g rows) = dimValues g.
Proof.
  induction rows as [|row rows IH]; intros g; [done|].
  cbn [foldl]. by rewrite IH, feed_dimValues.
Qed.

Lemma foldl_feed_values (rows : list Value) : ∀ g,
  values (foldl (feed pivotId pivotIndex) g rows)
  = write_all pivotId pivotIndex (values g) rows.
Proof.
  induction rows as [|row rows IH]; intros g; [done|].
  cbn [foldl]. rewrite IH, feed_values. done.
Qed.

Lemma foldl_feed_annotations (rows : list Value) : ∀ g,
  annotations (foldl (feed pivotId pivotIndex) g rows)
  = annotations g ++ omap (ann_of pivotId pivotIndex) rows.
Proof.
  induction rows as [|row rows IH]; intros g.
  - cbn. by rewrite app_nil_r.
  - cbn [foldl]. rewrite IH, feed_annotations, <- app_assoc. f_equal.
    cbn [omap list_omap]. by destruct (ann_of _ _ _).
Qed.

Lemma write_all_snoc (cells : list cell) (rows : list Value) (row : Value) :
  write_all pivotId pivotIndex cells (rows ++ [row])
  = write_all pivotId pivotIndex (write_all pivotId pivotIndex cells rows) [row].
Proof. unfold write_all. by rewrite foldl_snoc. Qed.

Lemma write_all_length (n : nat) (rows : list Value) : ∀ cells,
  cols_below pivotId pivotIndex n rows → length cells = n →
  length (write_all pivotId pivotIndex cells rows) = n.
Proof.
  induction rows as [|row rows IH]; intros cells Hb Hlen; [done|].
  cbn [write_all foldl]. apply IH.
  - intros r c Hr. apply Hb. by right.
  - destruct (target_col _ _ row) as [c|] eqn:Hc; [|done].
    unfold array_set. rewrite bool_decide_eq_true_2.
    + by rewrite length_insert.
    + rewrite Hlen. apply (Hb row); [by left|done].
Qed.

(** Last write wins. *)
Lemma write_all_lookup (n c : nat) (rows : list Value) (cells : list cell) :
  cols_below pivotId pivotIndex n rows → length cells = n → c < n →
  write_all pivotId pivotIndex cells rows !! c
  = match last (filter (λ row, target_col pivotId pivotIndex row = Some c) rows) with
    | Some row => Some (normalizeValue (v_val row))
    | None => cells !! c
    end.
Proof.
  intros Hb Hlen Hc.
  induction rows as [|row rows IH] using rev_ind; [done|].
  assert (Hb' : cols_below pivotId pivotIndex n rows).
  { intros r c' Hr. apply Hb. apply elem_of_app. by left. }
  specialize (IH Hb').
  rewrite write_all_snoc, filter_app.
  pose proof (write_all_length n rows cells Hb' Hlen) as Hlen'.
  set (cells' := write_all pivotId pivotIndex cells rows) in *.
  cbn [write_all foldl]. rewrite filter_cons, filter_nil.
  destruct (target_col pivotId pivotIndex row) as [c'|] eqn:Hcol.
  - assert (Hc' : c' < n).
    { apply (Hb row); [|done]. apply elem_of_app. right. by left. }
    unfold array_set. rewrite bool_decide_eq_true_2 by by rewrite Hlen'.
    case_decide as Heq.
    + injection Heq as ->. rewrite last_snoc.
      apply list_lookup_insert_eq. by rewrite Hlen'.
    + rewrite app_nil_r, list_lookup_insert_ne by congruence. exact IH.
  - rewrite decide_False by done. rewrite app_nil_r. exact IH.
Qed.

End feed.

Lemma packDataInf_plan_pivotIndex (dataInf : DataInf) (classInf : ClassInf) :
  p_pivotIndex (packDataInf_plan dataInf classInf)
  = build_pivotIndex (pivot_codes (detectPivotDim classInf)).
Proof. unfold packDataInf_plan. by destruct (build_fixed_dims _ _). Qed.

Lemma packDataInf_plan_valueCols (dataInf : DataInf) (classInf : ClassInf) :
  p_valueCols (packDataInf_plan dataInf classInf)
  = build_valueCols (detectPivotDim classInf).
Proof. unfold packDataInf_plan. by destruct (build_fixed_dims _ _). Qed.

Lemma foldl_insert_lookup (l : list (string * nat)) (k : string) (i : nat) :
  ∀ m : gmap string nat,
  foldl (λ m e, <[e.1 := e.2]> m) m l !! k = Some i →
  m !! k = Some i ∨ (k, i) ∈ l.
Proof.
  induction l as [|[k' i'] l IH]; intros m Hm; [by left|].
  cbn [foldl fst snd] in Hm. apply IH in Hm as [Hm|Hm].
  - rewrite lookup_insert in Hm. case_decide as E.
    + right. injection Hm as ->. subst k'. left.
    + by left.
  - right. by right.
Qed.

Lemma build_pivotIndex_lt (codes : list string) (code : string) (i : nat) :
  build_pivotIndex codes !! code = Some i → i < length codes ∧ codes !! i = Some code.
Proof.
  unfold build_pivotIndex. intros [Hm|Hm]%foldl_insert_lookup.
  - by rewrite lookup_empty in Hm.
  - apply elem_of_lookup_imap in Hm as (j & c & [= -> ->] & Hj).
    split; [by eapply lookup_lt_Some|done].
Qed.

Lemma hasUnit_classes (obj : ClassObj) :
  hasUnit obj = true → 0 < length (toArray (o_CLASS obj)).
Proof.
  unfold hasUnit. destruct (toArray (o_CLASS obj)); [done|]. cbn. lia.
Qed.

Lemma detectPivotDim_hasUnit (classInf : ClassInf) (obj : ClassObj) (id : string) :
  detectPivotDim classInf = Some (obj, id) → hasUnit obj = true.
Proof.
  unfold detectPivotDim. generalize (CLASS_OBJ classInf). intros objs.
  induction objs as [|o objs IH]; [done|]. cbn [detectPivotDim_loop].
  destruct (negb _); [done|]. destruct (hasUnit o) eqn:Hu; [|done].
  by intros [= <- <-].
Qed.

Lemma plan_cols_below (dataInf : DataInf) (classInf : ClassInf) (rows : list Value) :
  let plan := packDataInf_plan dataInf classInf in
  cols_below (p_pivotId plan) (p_pivotIndex plan) (length (p_valueCols plan)) rows.
Proof.
  cbv zeta. rewrite packDataInf_plan_pivotId, packDataInf_plan_pivotIndex,
    packDataInf_plan_valueCols.
  intros row c _. unfold target_col.
  destruct (detectPivotDim classInf) as [[obj id]|] eqn:Hp.
  - cbn [fmap option_fmap option_map snd build_valueCols pivot_codes].
    rewrite length_map.
    destruct (truthy (Some id)).
    + destruct (attr row id) as [code|]; [|done].
      destruct (build_pivotIndex _ !! code) as [idx|] eqn:Hi; [|done].
      intros [= <-]. apply build_pivotIndex_lt in Hi as [Hi _].
      by rewrite length_map in Hi.
    + intros [= <-]. eapply hasUnit_classes, detectPivotDim_hasUnit, Hp.
  - intros [= <-]. cbn. lia.
Qed.

Lemma tabulate_groups (f : string → Group) (keys : list string) :
  (tabulate f keys).*2 = map f keys.
Proof.
  unfold tabulate. induction keys as [|k keys IH]; [done|].
  cbn. f_equal. exact IH.
Qed.

Lemma key_index_lookup (keys : list string) (k : string) : ∀ i,
  NoDup keys → keys !! i = Some k → key_index keys k = i.
Proof.
  induction keys as [|k' keys IH]; intros i Hnd Hi; [done|].
  apply NoDup_cons in Hnd as [Hk' Hnd]. cbn [key_index].
  destruct i as [|i]; cbn in Hi.
  - injection Hi as ->. by rewrite decide_True.
  - rewrite decide_False.
    + f_equal. by apply IH.
    + intros ->. apply Hk'. by eapply list_elem_of_lookup_2.
Qed.

Section output.

Context `{!Runtime}.

Variable dataInf : DataInf.

Variable classInf : ClassInf.

Local Abbreviation out := (packDataInf dataInf classInf).

Local Abbreviation plan := (packDataInf_plan dataInf classInf).

Local Abbreviation records := (toArray (VALUE dataInf)).

Local Abbreviation G :=
  (group_of (p_pivotId plan) (p_pivotIndex plan) (p_valueCols plan) (p_dims plan)
            records).

Local Abbreviation keys := (keys_seen (p_dims plan) records).

Lemma packDataInf_rows : rows out = map (λ k, row_of (G k)) keys.
Proof.
  unfold packDataInf. rewrite assemble_spec. cbn [rows].
  unfold packDataInf_groups. rewrite packDataInf_groups_tabulate, tabulate_groups.
  by rewrite map_map.
Qed.

Lemma packDataInf_annRows :
  default [] (annRows out) = concat (imap (λ i k, tagged i (G k)) keys).
Proof.
  unfold packDataInf. rewrite assemble_spec. cbn [annRows].
  unfold packDataInf_groups. rewrite packDataInf_groups_tabulate, tabulate_groups.
  rewrite imap_fmap. unfold compose.
  case_bool_decide as Hlen; [|reflexivity].
  cbn [default]. symmetry. by apply nil_length_inv.
Qed.

Lemma group_of_seen (k : string) :
  k ∈ keys →
  ∃ first rest,
    rows_of_key (p_dims plan) k records = first :: rest
    ∧ dimValues (G k) = row_dimValues (p_dims plan) first
    ∧ values (G k)
      = write_all (p_pivotId plan) (p_pivotIndex plan)
          (replicate (length (p_valueCols plan)) CNull)
          (rows_of_key (p_dims plan) k records)
    ∧ annotations (G k)
      = omap (ann_of (p_pivotId plan) (p_pivotIndex plan))
             (rows_of_key (p_dims plan) k records).
Proof.
  intros (first & rest & Hk)%rows_of_key_cons.
  exists first, rest. split; [done|]. unfold group_of. rewrite Hk.
  rewrite foldl_feed_dimValues, foldl_feed_values, foldl_feed_annotations.
  done.
Qed.

Lemma rows_of_key_below (k : string) :
  cols_below (p_pivotId plan) (p_pivotIndex plan) (length (p_valueCols plan))
             (rows_of_key (p_dims plan) k records).
Proof. apply plan_cols_below. Qed.

Lemma group_of_values_length (k : string) :
  k ∈ keys → length (values (G k)) = length (p_valueCols plan).
Proof.
  intros (first & rest & _ & _ & Hv & _)%group_of_seen. rewrite Hv.
  apply write_all_length; [apply rows_of_key_below|apply length_replicate].
Qed.

End output.

Section claims.

Context `{!Runtime}.

Lemma packDataInf_cell (dataInf : DataInf) (classInf : ClassInf)
    (k : string) (c i : nat) :
  let out := packDataInf dataInf classInf in
  let plan := packDataInf_plan dataInf classInf in
  let records := toArray (VALUE dataInf) in
  keys_seen (dims out) records !! i = Some k →
  c < length (valueCols out) →
  ∃ row,
    rows out !! i = Some row
    ∧ length row = length (dims out) + length (valueCols out)
    ∧ row !! (length (dims out) + c)
      = Some match last (filter (λ r, target_col (p_pivotId plan) (p_pivotIndex plan) r = Some c
                                      ∧ row_groupKey (dims out) r = k) records) with
             | Some r => normalizeValue (v_val r)
             | None => CNull
             end.
Proof.
  cbv zeta. rewrite packDataInf_dims, packDataInf_valueCols, packDataInf_rows.
  intros Hi Hc.
  assert (Hk : k ∈ keys_seen (p_dims (packDataInf_plan dataInf classInf))
                             (toArray (VALUE dataInf)))
    by by eapply list_elem_of_lookup_2.
  destruct (group_of_seen dataInf classInf k Hk)
    as (first & rest & Hrk & Hd & Hv & _).
  eexists. split; [by rewrite list_lookup_fmap, Hi|].
  pose proof (group_of_values_length dataInf classInf k Hk) as Hlen.
  assert (Hdl : length (map cell_of_dim (dimValues
             (group_of (p_pivotId (packDataInf_plan dataInf classInf))
                (p_pivotIndex (packDataInf_plan dataInf classInf))
                (p_valueCols (packDataInf_plan dataInf classInf))
                (p_dims (packDataInf_plan dataInf classInf))
                (toArray (VALUE dataInf)) k)))
           = length (p_dims (packDataInf_plan dataInf classInf))).
  { rewrite length_map, Hd. unfold row_dimValues. by rewrite length_map. }
  unfold row_of. split.
  - by rewrite length_app, Hdl, Hlen.
  - rewrite lookup_app_r by (rewrite Hdl; lia).
    rewrite Hdl. replace (_ + c - _) with c by lia.
    rewrite Hv.
    rewrite (write_all_lookup _ _ (length (p_valueCols (packDataInf_plan dataInf classInf))) c);
      [|apply rows_of_key_below|apply length_replicate|done].
    unfold rows_of_key. rewrite <- list_filter_filter.
    destruct (last _); [done|]. by apply lookup_replicate_2.
Qed.

(** C9: the cell of a group key and a value column holds the normalized
    value of the last record, in input order, that goes to that key and
    column, and the null marker when there is none. *)
Theorem packDataInf_last_write_wins (dataInf : DataInf) (classInf : ClassInf)
    (k : string) (c i : nat) :
  let out := packDataInf dataInf classInf in
  let plan := packDataInf_plan dataInf classInf in
  let records := toArray (VALUE dataInf) in
  keys_seen (dims out) records !! i = Some k →
  c < length (valueCols out) →
  ∃ row,
    rows out !! i = Some row
    ∧ length row = length (dims out) + length (valueCols out)
    ∧ row !! (length (dims out) + c)
      = Some match last (filter (λ r, target_col (p_pivotId plan) (p_pivotIndex plan) r = Some c
                                      ∧ row_groupKey (dims out) r = k) records) with
             | Some r => normalizeValue (v_val r)
             | None => CNull
             end.
Proof. apply packDataInf_cell. Qed.

Lemma no_candidate_no_pivot (classInf : ClassInf) :
  Forall (λ o, ¬ pivot_candidate o) (CLASS_OBJ classInf) →
  detectPivotDim classInf = None.
Proof.
  intros Hall. unfold detectPivotDim.
  pose proof (detectPivotDim_loop_spec (CLASS_OBJ classInf)) as Hspec.
  destruct (detectPivotDim_loop (CLASS_OBJ classInf)) as [[o i]|]; [|done].
  destruct Hspec as (pre & post & Heq & _ & Hq & _).
  rewrite Heq in Hall. apply Forall_app in Hall as [_ Hall].
  apply Forall_cons in Hall as [Hn _]. done.
Qed.

Lemma gm_get_tabulate (f : string → Group) (keys : list string) (k : string) :
  k ∈ keys → gm_get (tabulate f keys) k = Some (f k).
Proof.
  unfold gm_get, tabulate. induction keys as [|k' keys IH]; intros Hk.
  - by apply elem_of_nil in Hk.
  - cbn [map find fst]. case_bool_decide as E; [by subst|].
    apply IH. apply elem_of_cons in Hk as [->|Hk]; done.
Qed.

(** C8: when no pivot-candidate dimension of the classification tree has a
    unit-bearing code, the output has no pivot axis, its value columns are
    the single column [{code: "_", label: "value"}], every record goes to
    column 0, where its normalized value is written at its turn, and the
    row of a key ends with the value of the last record of that key. *)
Theorem packDataInf_no_pivot (dataInf : DataInf) (classInf : ClassInf) :
  Forall (λ o, ¬ pivot_candidate o) (CLASS_OBJ classInf) →
  let out := packDataInf dataInf classInf in
  let plan := packDataInf_plan dataInf classInf in
  let records := toArray (VALUE dataInf) in
  pivotDim out = None
  ∧ valueCols out = [{| code := "_"; label := "value"; unit := None |}]
  ∧ (∀ r, target_col (p_pivotId plan) (p_pivotIndex plan) r = Some 0)
  ∧ (∀ pre r post,
       records = pre ++ r :: post →
       ∃ g, gm_get (packDataInf_groups plan (pre ++ [r]))
                   (row_groupKey (dims out) r) = Some g
            ∧ values g = [normalizeValue (v_val r)])
  ∧ (∀ i k,
       keys_seen (dims out) records !! i = Some k →
       ∃ row r_last,
         rows out !! i = Some row
         ∧ last (rows_of_key (dims out) k records) = Some r_last
         ∧ length row = length (dims out) + 1
         ∧ row !! length (dims out) = Some (normalizeValue (v_val r_last))).
Proof.
  intros Hnone%no_candidate_no_pivot. cbv zeta.
  assert (Hpid : p_pivotId (packDataInf_plan dataInf classInf) = None)
    by by rewrite packDataInf_plan_pivotId, Hnone.
  assert (Hcols : p_valueCols (packDataInf_plan dataInf classInf)
                  = [{| code := "_"; label := "value"; unit := None |}])
    by by rewrite packDataInf_plan_valueCols, Hnone.
  assert (Hcol : ∀ r, target_col (p_pivotId (packDataInf_plan dataInf classInf))
                        (p_pivotIndex (packDataInf_plan dataInf classInf)) r = Some 0)
    by (intros r; by rewrite Hpid).
  rewrite packDataInf_pivotDim, packDataInf_valueCols, packDataInf_dims.
  split_and!.
  - cbv zeta. by rewrite Hpid.
  - done.
  - done.
  - intros pre r post _.
    unfold packDataInf_groups. rewrite packDataInf_groups_tabulate.
    rewrite gm_get_tabulate
      by (apply elem_of_keys_seen; exists r; split; [|done];
          apply elem_of_app; right; left).
    eexists. split; [done|].
    destruct (decide (row_groupKey (p_dims (packDataInf_plan dataInf classInf)) r
                      ∈ keys_seen (p_dims (packDataInf_plan dataInf classInf)) pre))
      as [Hseen|Hnew].
    + rewrite group_of_snoc_seen by done. rewrite feed_values.
      unfold write_all. cbn [foldl]. rewrite Hcol.
      destruct (rows_of_key_cons _ _ _ Hseen) as (first & rest & Hrk).
      unfold group_of. rewrite Hrk, foldl_feed_values.
      pose proof (write_all_length
        (p_pivotId (packDataInf_plan dataInf classInf))
        (p_pivotIndex (packDataInf_plan dataInf classInf))
        (length (p_valueCols (packDataInf_plan dataInf classInf)))
        (first :: rest)
        (values (blank_group (p_valueCols (packDataInf_plan dataInf classInf))
                             (p_dims (packDataInf_plan dataInf classInf)) first))
        (plan_cols_below dataInf classInf (first :: rest))
        (length_replicate _ _)) as Hlen.
      destruct (write_all _ _ _ _) as [|x [|y l]];
        rewrite Hcols in Hlen; [done|reflexivity|done].
    + rewrite group_of_snoc_new by done. rewrite feed_values.
      unfold write_all. cbn [foldl]. rewrite Hcol.
      cbn [blank_group values]. by rewrite Hcols.
  - intros i k Hi.
    destruct (packDataInf_cell dataInf classInf k 0 i) as (row & Hrow & Hlen & Hcell).
    { by rewrite packDataInf_dims. }
    { rewrite packDataInf_valueCols, Hcols. cbn. lia. }
    rewrite packDataInf_dims in Hlen, Hcell.
    rewrite packDataInf_valueCols, Hcols in Hlen.
    rewrite Nat.add_0_r in Hcell.
    assert (Hk : k ∈ keys_seen (p_dims (packDataInf_plan dataInf classInf))
                               (toArray (VALUE dataInf)))
      by by eapply list_elem_of_lookup_2.
    destruct (rows_of_key_cons _ _ _ Hk) as (first & rest & Hrk).
    assert (Hf : filter (λ r, target_col (p_pivotId (packDataInf_plan dataInf classInf))
                                (p_pivotIndex (packDataInf_plan dataInf classInf)) r = Some 0
                              ∧ row_groupKey (p_dims (packDataInf_plan dataInf classInf)) r = k)
                        (toArray (VALUE dataInf))
                 = rows_of_key (p_dims (packDataInf_plan dataInf classInf)) k
                               (toArray (VALUE dataInf))).
    { unfold rows_of_key. apply list_filter_iff. intros r. split; [tauto|]. auto. }
    rewrite Hf in Hcell.
    destruct (last (rows_of_key _ k _)) as [r_last|] eqn:Hlast.
    + exists row, r_last. split_and!; [exact Hrow|reflexivity|exact Hlen|exact Hcell].
    + apply last_None in Hlast. by rewrite Hrk in Hlast.
Qed.

End claims.

Lemma rows_of_key_complement (dims : list string) (k k' : string) (rows : list Value) :
  k' ≠ k →
  rows_of_key dims k' (filter (λ r, ¬ row_groupKey dims r = k) rows)
  = rows_of_key dims k' rows.
Proof.
  intros Hne. unfold rows_of_key. rewrite list_filter_filter.
  apply list_filter_iff. intros r. split; [tauto|].
  intros Hr. split; [done|]. congruence.
Qed.

(** Grouping the records by key only reorders them. *)
Lemma group_by_key_Permutation (dims : list string) (keys : list string) :
  ∀ rows : list Value,
  NoDup keys →
  (∀ r, r ∈ rows → row_groupKey dims r ∈ keys) →
  keys ≫= (λ k, rows_of_key dims k rows) ≡ₚ rows.
Proof.
  induction keys as [|k keys IH]; intros rows Hnd Hall.
  - destruct rows as [|r rows]; [done|].
    exfalso. eapply elem_of_nil, (Hall r). left.
  - apply NoDup_cons in Hnd as [Hk Hnd]. rewrite bind_cons.
    etrans; [|apply (filter_app_complement (λ r, row_groupKey dims r = k) rows)].
    apply Permutation_app; [done|].
    etrans; [|apply (IH (filter (λ r, ¬ row_groupKey dims r = k) rows) Hnd)].
    + apply reflexive_eq. apply Forall_bind_ext, Forall_forall.
      intros k' Hk'. symmetry. apply rows_of_key_complement.
      intros ->. done.
    + intros r [Hr Hin]%list_elem_of_filter.
      specialize (Hall r Hin). apply elem_of_cons in Hall as [?|?]; done.
Qed.

Lemma omap_bind_keys {A B} (f : A → option B) (g : string → list A) (keys : list string) :
  omap f (keys ≫= g) = keys ≫= (λ k, omap f (g k)).
Proof.
  induction keys as [|k keys IH]; [done|].
  by rewrite !bind_cons, omap_app, IH.
Qed.

Lemma concat_imap_bind {B} (f : nat → string → list B) (h : string → list B)
    (keys : list string) :
  (∀ i k, keys !! i = Some k → f i k = h k) →
  concat (imap f keys) = keys ≫= h.
Proof.
  revert f. induction keys as [|k keys IH]; intros f Hf; [done|].
  rewrite imap_cons, bind_cons. cbn [concat]. f_equal.
  - by apply Hf.
  - apply IH. intros i k' Hi. by apply (Hf (S i)).
Qed.

Section claims.

Context `{!Runtime}.

Lemma packDataInf_annRows_Permutation (dataInf : DataInf) (classInf : ClassInf) :
  default [] (annRows (packDataInf dataInf classInf))
  ≡ₚ omap (λ r, (λ a, (key_index (keys_seen (dims (packDataInf dataInf classInf))
                                            (toArray (VALUE dataInf)))
                                  (row_groupKey (dims (packDataInf dataInf classInf)) r),
                       a.1, a.2))
                <$> ann_of (p_pivotId (packDataInf_plan dataInf classInf))
                           (p_pivotIndex (packDataInf_plan dataInf classInf)) r)
          (toArray (VALUE dataInf)).
Proof.
  rewrite packDataInf_annRows, packDataInf_dims.
  set (F := λ r : Value, _ <$> ann_of _ _ r).
  rewrite (concat_imap_bind _
             (λ k, omap F (rows_of_key (p_dims (packDataInf_plan dataInf classInf)) k
                                       (toArray (VALUE dataInf))))).
  + rewrite <- omap_bind_keys. apply omap_Permutation.
    apply group_by_key_Permutation; [apply NoDup_keys_seen|].
    intros r Hr. apply elem_of_keys_seen. by exists r.
  + intros i k Hi.
    assert (Hk : k ∈ keys_seen (p_dims (packDataInf_plan dataInf classInf))
                               (toArray (VALUE dataInf)))
      by by eapply list_elem_of_lookup_2.
    destruct (group_of_seen dataInf classInf k Hk) as (_ & _ & _ & _ & _ & Ha).
    unfold tagged. rewrite Ha.
    rewrite (list_fmap_omap _ (λ a, (i, a.1, a.2))).
    apply list_omap_ext. apply Forall2_same_length_lookup. split; [done|].
    intros j x y Hx Hy. rewrite Hx in Hy. injection Hy as <-.
    subst F. cbn beta.
    assert (Hkx : row_groupKey (p_dims (packDataInf_plan dataInf classInf)) x = k).
    { apply list_elem_of_lookup_2 in Hx.
      by apply list_elem_of_filter in Hx as [? _]. }
    rewrite Hkx.
    by rewrite (key_index_lookup _ k i (NoDup_keys_seen _ _) Hi).
Qed.

Lemma ann_of_Some (pivotId : option string) (pivotIndex : gmap string nat)
    (r : Value) (c : nat) (a : string) :
  ann_of pivotId pivotIndex r = Some (c, a)
  ↔ target_col pivotId pivotIndex r = Some c
    ∧ attr r "annotation" = Some a ∧ a ≠ "".
Proof.
  unfold ann_of.
  destruct (target_col _ _ r) as [c'|]; [|naive_solver].
  destruct (attr r "annotation") as [a'|]; [|naive_solver].
  unfold truthy. case_bool_decide as Ha; cbn [negb]; naive_solver.
Qed.

(** C10: [annRows] holds, up to order, one entry [rowIndex, columnIndex,
    annotationCode] for every record that has a column and a non-empty
    annotation code, whatever became of the value of that record. *)
Theorem packDataInf_annotations_accumulate (dataInf : DataInf) (classInf : ClassInf) :
  let out := packDataInf dataInf classInf in
  let plan := packDataInf_plan dataInf classInf in
  let records := toArray (VALUE dataInf) in
  default [] (annRows out)
  ≡ₚ omap (λ r, (λ a, (key_index (keys_seen (dims out) records)
                                  (row_groupKey (dims out) r), a.1, a.2))
                <$> ann_of (p_pivotId plan) (p_pivotIndex plan) r) records
  ∧ ∀ r c a,
      ann_of (p_pivotId plan) (p_pivotIndex plan) r = Some (c, a)
      ↔ target_col (p_pivotId plan) (p_pivotIndex plan) r = Some c
        ∧ attr r "annotation" = Some a ∧ a ≠ "".
Proof.
  cbv zeta. split.
  - rewrite packDataInf_annRows, packDataInf_dims.
    set (F := λ r : Value, _ <$> ann_of _ _ r).
    rewrite (concat_imap_bind _
               (λ k, omap F (rows_of_key (p_dims (packDataInf_plan dataInf classInf)) k
                                         (toArray (VALUE dataInf))))).
    + rewrite <- omap_bind_keys. apply omap_Permutation.
      apply group_by_key_Permutation; [apply NoDup_keys_seen|].
      intros r Hr. apply elem_of_keys_seen. by exists r.
    + intros i k Hi.
      assert (Hk : k ∈ keys_seen (p_dims (packDataInf_plan dataInf classInf))
                                 (toArray (VALUE dataInf)))
        by by eapply list_elem_of_lookup_2.
      destruct (group_of_seen dataInf classInf k Hk) as (_ & _ & _ & _ & _ & Ha).
      unfold tagged. rewrite Ha.
      rewrite (list_fmap_omap _ (λ a, (i, a.1, a.2))).
      apply list_omap_ext. apply Forall2_same_length_lookup. split; [done|].
      intros j x y Hx Hy. rewrite Hx in Hy. injection Hy as <-.
      subst F. cbn beta.
      assert (Hkx : row_groupKey (p_dims (packDataInf_plan dataInf classInf)) x = k).
      { apply list_elem_of_lookup_2 in Hx.
        by apply list_elem_of_filter in Hx as [? _]. }
      rewrite Hkx.
      by rewrite (key_index_lookup _ k i (NoDup_keys_seen _ _) Hi).
  - intros r c a. unfold ann_of.
    destruct (target_col _ _ r) as [c'|]; [|naive_solver].
    destruct (attr r "annotation") as [a'|]; [|naive_solver].
    unfold truthy. case_bool_decide as Ha; cbn [negb]; naive_solver.
Qed.

Lemma detectPivotDim_candidate (classInf : ClassInf) (obj : ClassObj) (id : string) :
  detectPivotDim classInf = Some (obj, id) → id ∈ PIVOT_CANDIDATE_KEYS.
Proof.
  unfold detectPivotDim. intros Hp.
  pose proof (detectPivotDim_loop_spec (CLASS_OBJ classInf)) as Hspec.
  rewrite Hp in Hspec. destruct Hspec as (pre & post & _ & -> & [Hid _] & _).
  done.
Qed.

Lemma empty_not_candidate : "" ∉ PIVOT_CANDIDATE_KEYS.
Proof. apply (bool_decide_unpack _). by vm_compute. Qed.

Lemma group_step_no_col (pivotId : option string) (pivotIndex : gmap string nat)
    (valueCols : list ValueColDef) (dims : list string)
    (groupMap : list (string * Group)) (row : Value) :
  target_col pivotId pivotIndex row = None →
  group_step pivotId pivotIndex valueCols dims groupMap row
  = if gm_has groupMap (row_groupKey dims row) then groupMap
    else groupMap ++ [(row_groupKey dims row, blank_group valueCols dims row)].
Proof.
  intros Hcol. unfold group_step. rewrite Hcol.
  unfold row_groupKey, blank_group. by destruct (gm_has _ _).
Qed.

Lemma ann_of_no_col (pivotId : option string) (pivotIndex : gmap string nat)
    (row : Value) :
  target_col pivotId pivotIndex row = None → ann_of pivotId pivotIndex row = None.
Proof. intros Hcol. unfold ann_of. by rewrite Hcol. Qed.

(** C2, amended: a record whose pivot code is missing or not declared has
    no column: it writes no value and leaves no annotation, and no error is
    raised; its turn of the loop only adds the blank group of its dims-tuple
    when that tuple is new. *)
Theorem packDataInf_unknown_pivot_code (dataInf : DataInf) (classInf : ClassInf)
    (pivotObj : ClassObj) (pivotId : string) (row : Value)
    (groupMap : list (string * Group)) :
  detectPivotDim classInf = Some (pivotObj, pivotId) →
  (attr row pivotId = None
   ∨ ∃ pivotCode, attr row pivotId = Some pivotCode
                  ∧ pivotCode ∉ map c_code (toArray (o_CLASS pivotObj))) →
  let plan := packDataInf_plan dataInf classInf in
  target_col (p_pivotId plan) (p_pivotIndex plan) row = None
  ∧ ann_of (p_pivotId plan) (p_pivotIndex plan) row = None
  ∧ group_step (p_pivotId plan) (p_pivotIndex plan) (p_valueCols plan)
               (p_dims plan) groupMap row
    = if gm_has groupMap (row_groupKey (p_dims plan) row) then groupMap
      else groupMap ++ [(row_groupKey (p_dims plan) row,
                         blank_group (p_valueCols plan) (p_dims plan) row)].
Proof.
  intros Hp Hrow. cbv zeta.
  assert (Hcol : target_col (p_pivotId (packDataInf_plan dataInf classInf))
                   (p_pivotIndex (packDataInf_plan dataInf classInf)) row = None).
  { rewrite packDataInf_plan_pivotId, packDataInf_plan_pivotIndex, Hp.
    cbn [fmap option_fmap option_map snd pivot_codes]. unfold target_col.
    assert (Ht : truthy (Some pivotId) = true).
    { unfold truthy. rewrite bool_decide_eq_false_2; [done|].
      intros ->. eapply empty_not_candidate, detectPivotDim_candidate, Hp. }
    rewrite Ht. destruct Hrow as [->|(code & -> & Hcode)]; [done|].
    destruct (build_pivotIndex _ !! code) as [idx|] eqn:Hi; [|done].
    exfalso. apply Hcode. apply build_pivotIndex_lt in Hi as [_ Hi].
    by eapply list_elem_of_lookup_2. }
  split; [exact Hcol|]. split.
  - apply ann_of_no_col, Hcol.
  - apply group_step_no_col, Hcol.
Qed.

End claims.

Lemma packDataInf_last_write_wins_witness :
  let out := @packDataInf sample_runtime dataInf_overwrite classInf_tab in
  let plan := packDataInf_plan dataInf_overwrite classInf_tab in
  let records := toArray (VALUE dataInf_overwrite) in
  ∃ row,
    rows out !! 0 = Some row
    ∧ length row = length (dims out) + length (valueCols out)
    ∧ row !! (length (dims out) + 0)
      = Some match last (filter (λ r, target_col (p_pivotId plan) (p_pivotIndex plan) r = Some 0
                                      ∧ row_groupKey (dims out) r = "A") records) with
             | Some r => @normalizeValue sample_runtime (v_val r)
             | None => CNull
             end.
Proof.
  apply (@packDataInf_last_write_wins sample_runtime dataInf_overwrite classInf_tab "A" 0 0).
  - vm_compute. reflexivity.
  - vm_compute. lia.
Defined.

Lemma packDataInf_no_pivot_witness :
  pivotDim (@packDataInf sample_runtime dataInf_overwrite classInf_plain) = None
  ∧ valueCols (@packDataInf sample_runtime dataInf_overwrite classInf_plain)
    = [{| code := "_"; label := "value"; unit := None |}].
Proof.
  assert (Hplain : Forall (λ o, ¬ pivot_candidate o) (CLASS_OBJ classInf_plain)).
  { apply (bool_decide_unpack _). vm_compute. exact I. }
  destruct (@packDataInf_no_pivot sample_runtime dataInf_overwrite classInf_plain Hplain)
    as (Hp & Hc & _).
  exact (conj Hp Hc).
Defined.

Lemma packDataInf_unknown_pivot_code_witness :
  let plan := packDataInf_plan dataInf_unknown classInf_tab in
  let row := value_of [("@tab", "Z")] "5" in
  target_col (p_pivotId plan) (p_pivotIndex plan) row = None
  ∧ ann_of (p_pivotId plan) (p_pivotIndex plan) row = None
  ∧ @group_step sample_runtime (p_pivotId plan) (p_pivotIndex plan) (p_valueCols plan)
               (p_dims plan) [] row
    = if gm_has [] (row_groupKey (p_dims plan) row) then []
      else [] ++ [(row_groupKey (p_dims plan) row,
                   blank_group (p_valueCols plan) (p_dims plan) row)].
Proof.
  apply (@packDataInf_unknown_pivot_code sample_runtime dataInf_unknown classInf_tab
           (mk_obj "tab" [mk_class "X" (Some "yen"); mk_class "Y" (Some "count")])
           "tab" (value_of [("@tab", "Z")] "5") []).
  - vm_compute. reflexivity.
  - right. exists "Z". split.
    + vm_compute. reflexivity.
    + apply (bool_decide_unpack _). vm_compute. exact I.
Defined.

(** C2 as stated fails: a record whose pivot code is not declared still
    gets a row for its dims-tuple. *)
Lemma packDataInf_unknown_code_makes_row :
  ¬ (∀ (dataInf : DataInf) (classInf : ClassInf) (pivotObj : ClassObj)
       (pivotId pivotCode : string) (row : Value),
       detectPivotDim classInf = Some (pivotObj, pivotId) →
       VALUE dataInf = Many [row] →
       attr row pivotId = Some pivotCode →
       pivotCode ∉ map c_code (toArray (o_CLASS pivotObj)) →
       rows (@packDataInf sample_runtime dataInf classInf) = []).
Proof.
  intros Hclaim.
  assert (Hrows : rows (@packDataInf sample_runtime dataInf_unknown classInf_tab) = []).
  { apply (Hclaim dataInf_unknown classInf_tab
             (mk_obj "tab" [mk_class "X" (Some "yen"); mk_class "Y" (Some "count")])
             "tab" "Z" (value_of [("@tab", "Z")] "5")).
    - vm_compute. reflexivity.
    - reflexivity.
    - vm_compute. reflexivity.
    - apply (bool_decide_unpack _). vm_compute. exact I. }
  assert (Hreal : rows (@packDataInf sample_runtime dataInf_unknown classInf_tab)
                  = [[CNull; CNull]]) by (vm_compute; reflexivity).
  rewrite Hreal in Hrows. clear -Hrows. discriminate Hrows.
Qed.

Lemma number_strict_eq_eq (a b : number) : number_strict_eq a b = true → a = b.
Proof.
  destruct a, b; cbn; try done. intros Hq%bool_decide_eq_true. by subst.
Qed.

Lemma strict_eq_eq (a b : jsval) : strict_eq a b = true → a = b.
Proof.
  destruct a, b; cbn; try done.
  - by intros ->%number_strict_eq_eq.
  - intros Hs%bool_decide_eq_true. by subst.
Qed.

Lemma strict_eq_refl_iff (a : jsval) : strict_eq a a = true ↔ a ≠ JNum NaN.
Proof.
  destruct a as [[q| | |]|s]; cbn; split; try done.
  - intros _. by apply bool_decide_eq_true.
  - intros _. by apply bool_decide_eq_true.
Qed.

Lemma strict_eq_self (a b : jsval) : strict_eq a b = true → strict_eq a a = true.
Proof. intros H. pose proof (strict_eq_eq _ _ H) as <-. exact H. Qed.

Lemma same_prop_lookup (obj : gmap string jsval) (k : string) (v : jsval) :
  same_prop obj k v = true → obj !! k = Some v ∧ strict_eq v v = true.
Proof.
  unfold same_prop. destruct (obj !! k) as [w|]; [|done].
  intros H. pose proof (strict_eq_eq _ _ H) as <-. done.
Qed.

Lemma same_prop_intro (obj : gmap string jsval) (k : string) (v : jsval) :
  obj !! k = Some v → strict_eq v v = true → same_prop obj k v = true.
Proof. unfold same_prop. by intros ->. Qed.

Lemma inherited_proto (k : string) : own_on_write k = false → inherited k = true.
Proof.
  unfold own_on_write. case_bool_decide as Hk; [|done]. intros _. by subst k.
Qed.

Lemma inherited_value_key (k : string) : isValueKey k = true → inherited k = false.
Proof.
  unfold isValueKey, VALUE_KEYS. intros Hk%bool_decide_eq_true.
  apply list_elem_of_singleton in Hk. by subst k.
Qed.

Lemma findCommonProperties_lookup (obj1 obj2 : gmap string jsval) (k : string) (v : jsval) :
  findCommonProperties obj1 obj2 !! k = Some v
  ↔ isValueKey k = false ∧ own_on_write k = true
    ∧ obj1 !! k = Some v ∧ same_prop obj2 k v = true.
Proof. unfold findCommonProperties. rewrite map_lookup_filter_Some. cbn. tauto. Qed.

Lemma common_fold_lookup (others : list (gmap string jsval)) (k : string) (v : jsval) :
  ∀ common : gmap string jsval,
  foldl (λ common item, filter (λ kv, same_prop item kv.1 kv.2 = true) common)
        common others !! k = Some v
  ↔ common !! k = Some v ∧ Forall (λ item, same_prop item k v = true) others.
Proof.
  induction others as [|item others IH]; intros common; cbn [foldl].
  - split; [by intros ?; split|by intros [? _]].
  - rewrite IH, map_lookup_filter_Some, Forall_cons. cbn. tauto.
Qed.

Lemma findCommonInArray_lookup (first : gmap string jsval)
    (others : list (gmap string jsval)) (k : string) (v : jsval) :
  findCommonInArray (first :: others) !! k = Some v
  ↔ isValueKey k = false ∧ own_on_write k = true ∧ first !! k = Some v
    ∧ Forall (λ item, same_prop item k v = true) others.
Proof.
  unfold findCommonInArray. rewrite common_fold_lookup, map_lookup_filter_Some.
  cbn. tauto.
Qed.

(** The metadata of a group is carried by every member. *)
Lemma findCommonInArray_member (items : list (gmap string jsval))
    (item : gmap string jsval) (k : string) (v : jsval) :
  item ∈ items → findCommonInArray items !! k = Some v → item !! k = Some v.
Proof.
  destruct items as [|first others]; [by intros ?%elem_of_nil|].
  intros Hin (_ & _ & Hfirst & Hothers)%findCommonInArray_lookup.
  apply elem_of_cons in Hin as [->|Hin]; [done|].
  rewrite Forall_forall in Hothers. by apply same_prop_lookup, Hothers.
Qed.

Lemma extract_lookup (item metadata : gmap string jsval) (k : string) :
  extractVaryingProperties item metadata !! k
  = if has_key metadata k then None else item !! k.
Proof.
  unfold extractVaryingProperties.
  destruct (has_key metadata k) eqn:Hk.
  - apply map_lookup_filter_None. right. intros x _. cbn. by rewrite Hk.
  - destruct (item !! k) as [x|] eqn:Hi.
    + by apply map_lookup_filter_Some.
    + apply map_lookup_filter_None. by left.
Qed.

Lemma has_key_false {A} (obj : gmap string A) (k : string) :
  has_key obj k = false ↔ obj !! k = None ∧ inherited k = false.
Proof.
  unfold has_key. rewrite orb_false_iff, bool_decide_eq_false.
  by rewrite eq_None_not_Some.
Qed.

Lemma single_group_createGroup (item : gmap string jsval) :
  single_group item = createGroup [item].
Proof.
  unfold single_group, createGroup, findCommonInArray. cbn [foldl map].
  f_equal. f_equal. unfold extractVaryingProperties.
  apply map_filter_ext. intros k x Hk. cbn.
  rewrite has_key_false, map_lookup_filter_None. split.
  - intros Hv. split; [|by apply inherited_value_key].
    right. intros y _. cbn. rewrite Hv. by intros [? _].
  - intros [[Hn|Hn] Hinh]; [congruence|]. specialize (Hn x Hk). cbn in Hn.
    destruct (isValueKey k); [done|].
    destruct (own_on_write k) eqn:Hw; [by destruct Hn|].
    apply inherited_proto in Hw. congruence.
Qed.

Lemma best_step_of_pivot (pivot : gmap string jsval) (others : list (gmap string jsval)) :
  ∀ acc : Z * gmap string jsval,
  of_pivot pivot acc.2 → of_pivot pivot (foldl (best_step pivot) acc others).2.
Proof.
  induction others as [|item others IH]; intros acc Hacc; [done|].
  cbn [foldl]. apply IH. unfold best_step. case_bool_decide; [|done].
  cbn [snd]. intros k v (Hk & Hw & Hp & Hs)%findCommonProperties_lookup.
  split; [done|]. split; [done|]. split; [done|].
  by apply same_prop_lookup in Hs as [_ ?].
Qed.

Lemma hasAllCommonProps_pivot (pivot best : gmap string jsval) :
  of_pivot pivot best → hasAllCommonProps best pivot = true.
Proof.
  intros Hb. unfold hasAllCommonProps. apply bool_decide_eq_true.
  intros k v Hk. destruct (Hb k v Hk) as (_ & _ & -> & Hs). done.
Qed.

(** The count kept by the search is the size of the properties kept. *)
Lemma best_step_count (pivot : gmap string jsval) (others : list (gmap string jsval)) :
  ∀ acc : Z * gmap string jsval,
  (acc.1 = (-1)%Z ∨ acc.1 = Z.of_nat (size acc.2)) →
  let res := foldl (best_step pivot) acc others in
  (others = [] ∧ res = acc) ∨ res.1 = Z.of_nat (size res.2).
Proof.
  induction others as [|item others IH]; intros acc Hacc; [by left|].
  right. cbn [foldl].
  destruct (IH (best_step pivot acc item)) as [[_ ->]|Hres]; [| |exact Hres].
  - unfold best_step. case_bool_decide; [by right|done].
  - unfold best_step. case_bool_decide as Hgt; [done|].
    destruct Hacc as [Hacc|Hacc]; [|done]. rewrite Hacc in Hgt. lia.
Qed.

(** The members of a group that was built on common properties share
    them. *)
Lemma createGroup_shared (best : gmap string jsval) (items : list (gmap string jsval)) :
  (∀ k v, best !! k = Some v → isValueKey k = false ∧ own_on_write k = true) →
  Forall (λ item, hasAllCommonProps best item = true) items →
  items ≠ [] →
  ∀ k v, best !! k = Some v → metadata (createGroup items) !! k = Some v.
Proof.
  intros Hkeys Hall Hne k v Hk.
  assert (Hitem : ∀ item, item ∈ items → same_prop item k v = true).
  { intros item Hin. rewrite Forall_forall in Hall.
    specialize (Hall item Hin). unfold hasAllCommonProps in Hall.
    apply bool_decide_eq_true in Hall. specialize (Hall k v Hk). cbn in Hall.
    unfold same_prop. destruct (item !! k) as [w|]; [|done].
    pose proof (strict_eq_eq _ _ Hall) as ->. done. }
  destruct items as [|first others]; [done|].
  unfold createGroup. cbn [metadata]. apply findCommonInArray_lookup.
  split; [by eapply Hkeys|]. split; [by eapply Hkeys|]. split.
  - apply same_prop_lookup, Hitem. by left.
  - apply Forall_forall. intros item Hin. apply Hitem. by right.
Qed.

Lemma grouping_loop_parts (fuel : nat) :
  ∀ (remaining : list (gmap string jsval)) (groups : list OptimizedGroup),
  length remaining ≤ fuel →
  ∃ parts,
    grouping_loop fuel remaining groups = Some (groups ++ map createGroup parts)
    ∧ concat parts ≡ₚ remaining
    ∧ Forall alone_or_sharing parts.
Proof.
  induction fuel as [|fuel IH]; intros remaining groups Hlen.
  - destruct remaining as [|pivot [|x others]].
    + exists []. cbn. by rewrite app_nil_r.
    + exists [[pivot]]. cbn [grouping_loop map concat app].
      rewrite single_group_createGroup. split; [done|]. split; [done|].
      constructor; [|done]. split; [done|by left].
    + cbn in Hlen. lia.
  - destruct remaining as [|pivot [|x others]].
    + exists []. cbn. by rewrite app_nil_r.
    + exists [[pivot]]. cbn [grouping_loop map concat app].
      rewrite single_group_createGroup. split; [done|]. split; [done|].
      constructor; [|done]. split; [done|by left].
    + cbn [grouping_loop].
      pose proof (best_step_of_pivot pivot (x :: others) ((-1)%Z, ∅)) as Hbest.
      pose proof (best_step_count pivot (x :: others) ((-1)%Z, ∅)
                    (or_introl eq_refl)) as Hcount.
      cbv zeta in Hcount.
      destruct (foldl (best_step pivot) ((-1)%Z, ∅) (x :: others))
        as [maxCommonCount bestCommonProps].
      cbn [fst snd] in Hbest, Hcount.
      assert (Hof : of_pivot pivot bestCommonProps).
      { apply Hbest. intros k v Hk. by rewrite lookup_empty in Hk. }
      assert (Hpivot : hasAllCommonProps bestCommonProps pivot = true)
        by by apply hasAllCommonProps_pivot.
      destruct Hcount as [[? _]|Hcount]; [done|].
      case_bool_decide as Hmax.
      * destruct (IH (x :: others) (groups ++ [single_group pivot])) as (parts & Hrun & Hperm & Hne).
        { cbn in Hlen |- *. lia. }
        exists ([pivot] :: parts). rewrite Hrun. split; [|split].
        -- rewrite <- app_assoc. cbn [map app].
           by rewrite single_group_createGroup.
        -- cbn [concat app]. by constructor.
        -- constructor; [|done]. split; [done|by left].
      * set (remaining := pivot :: x :: others) in *.
        set (match_best := λ item : gmap string jsval,
               hasAllCommonProps bestCommonProps item = true).
        destruct (IH (filter (λ item, ¬ match_best item) remaining)
                     (groups ++ [createGroup (filter match_best remaining)]))
          as (parts & Hrun & Hperm & Hne).
        { assert (length (filter (λ item, ¬ match_best item) remaining)
                  < length remaining); [|lia].
          apply (length_filter_lt _ _ pivot); [by left|]. intros Hn. by apply Hn. }
        assert (Hin : pivot ∈ filter match_best remaining).
        { apply list_elem_of_filter. split; [done|by left]. }
        assert (Hnil : filter match_best remaining ≠ []).
        { intros Hnil. rewrite Hnil in Hin. by apply elem_of_nil in Hin. }
        exists (filter match_best remaining :: parts). split; [|split].
        -- etrans; [exact Hrun|]. by rewrite <- app_assoc.
        -- cbn [concat]. rewrite Hperm. apply filter_app_complement.
        -- constructor; [|done]. split; [done|]. right.
           assert (Hsize : size bestCommonProps ≠ 0) by lia.
           destruct (map_choose bestCommonProps) as (k & v & Hk).
           { intros ->. by rewrite map_size_empty in Hsize. }
           intros Hempty.
           assert (Hall : Forall match_best (filter match_best remaining)).
           { apply Forall_forall. intros item Hitem.
             by apply list_elem_of_filter in Hitem as [? _]. }
           pose proof (createGroup_shared bestCommonProps (filter match_best remaining)
                         (λ k v Hkv, conj (proj1 (Hof k v Hkv)) (proj1 (proj2 (Hof k v Hkv))))
                         Hall Hnil k v Hk) as Hshared.
           rewrite Hempty in Hshared. by rewrite lookup_empty in Hshared.
Qed.

Lemma sort_insert_Permutation (g : OptimizedGroup) (l : list OptimizedGroup) :
  sort_insert g l ≡ₚ g :: l.
Proof.
  induction l as [|h t IH]; [done|]. cbn [sort_insert].
  case_bool_decide; [|done]. rewrite IH. apply Permutation_swap.
Qed.

Lemma sort_groups_Permutation (l : list OptimizedGroup) : sort_groups l ≡ₚ l.
Proof.
  induction l as [|g l IH]; [done|]. cbn [sort_groups foldr].
  rewrite sort_insert_Permutation. by constructor.
Qed.

(** The groups of the result, with the members of each. *)
Lemma optimizeGrouping_parts (data : list (gmap string jsval)) :
  ∃ parts,
    optimizeGroupingByCommonElements data
    = Some {| groups := map createGroup parts |}
    ∧ concat parts ≡ₚ data
    ∧ Forall alone_or_sharing parts.
Proof.
  destruct data as [|d data].
  - exists []. done.
  - unfold optimizeGroupingByCommonElements.
    destruct (grouping_loop_parts (length (d :: data)) (d :: data) [])
      as (parts & -> & Hperm & Hne); [done|].
    cbn [app].
    pose proof (sort_groups_Permutation (map createGroup parts)) as Hsort.
    apply Permutation_map_inv in Hsort as (parts' & Heq & Hparts).
    exists parts'. rewrite Heq. split; [done|]. split.
    + rewrite <- Hperm. by rewrite Hparts.
    + by rewrite <- Hparts.
Qed.

Lemma own_on_write_lookup (item : gmap string jsval) (k : string) (v : jsval) :
  proto_free item → item !! k = Some v → own_on_write k = true.
Proof.
  unfold proto_free, own_on_write. intros Hp Hk.
  case_bool_decide as E; [|done]. subst k. congruence.
Qed.

Lemma createGroup_values (items : list (gmap string jsval)) :
  g_values (createGroup items)
  = map (λ item, extractVaryingProperties item (metadata (createGroup items))) items.
Proof. done. Qed.

Lemma createGroup_metadata (items : list (gmap string jsval)) (k : string) (v : jsval) :
  items ≠ [] → Forall nan_free items → Forall proto_free items →
  metadata (createGroup items) !! k = Some v
  ↔ isValueKey k = false ∧ Forall (λ item, item !! k = Some v) items.
Proof.
  intros Hne Hnan Hproto. destruct items as [|first others]; [done|].
  unfold createGroup. cbn [metadata]. rewrite findCommonInArray_lookup.
  rewrite Forall_cons. split.
  - intros (Hk & _ & Hfirst & Hothers). split; [done|]. split; [done|].
    eapply Forall_impl; [exact Hothers|]. intros item Hs.
    by apply same_prop_lookup in Hs as [? _].
  - intros (Hk & Hfirst & Hothers). split; [done|].
    apply Forall_cons in Hproto as [Hproto _].
    split; [by eapply own_on_write_lookup|]. split; [done|].
    apply Forall_cons in Hnan as [Hnan _].
    assert (Hv : strict_eq v v = true).
    { apply strict_eq_refl_iff. by apply (Hnan k). }
    eapply Forall_impl; [exact Hothers|]. intros item Hi.
    by apply same_prop_intro.
Qed.

(** C4: on two records that share the attribute [x] and differ on an
    attribute named [constructor], the result is one group with the
    metadata [{x}] and the entries [{$: 5}] and [{$: 6}]: the attribute
    [constructor] is in neither, and no entry joined with the metadata is
    an input record.  [extractVaryingProperties] leaves out the keys that
    [key in metadata] finds, the members that every object inherits among
    them. *)
Theorem optimizeGrouping_inherited_name_lost :
  optimizeGroupingByCommonElements inherited_name_items
  = Some {| groups := [{| metadata := item_of [("x", "1")];
                          g_values := [item_of [("$", "5")]; item_of [("$", "6")]] |}] |}
  ∧ ∀ entry item,
      entry ∈ [item_of [("$", "5")]; item_of [("$", "6")]] →
      item ∈ inherited_name_items →
      entry ∪ item_of [("x", "1")] ≠ item.
Proof.
  split; [vm_compute; reflexivity|].
  intros entry item Hentry Hitem Heq.
  assert (Hlost : (entry ∪ item_of [("x", "1")]) !! "constructor" = None).
  { rewrite lookup_union.
    repeat (apply elem_of_cons in Hentry as [->|Hentry]; [vm_compute; reflexivity|]).
    by apply elem_of_nil in Hentry. }
  assert (Hhas : is_Some (item !! "constructor")).
  { repeat (apply elem_of_cons in Hitem as [->|Hitem]; [by eexists|]).
    by apply elem_of_nil in Hitem. }
  rewrite Heq in Hlost. rewrite Hlost in Hhas. by destruct Hhas.
Qed.

(** C5: for items that have no NaN attribute and no own property
    [__proto__], as the records read from a payload and passed through
    [stripAtPrefix] are, the metadata of every group is the intersection of
    its members on the keys other than ["$"]: a key has value [v] in the
    metadata exactly when it is not the value key and every member carries
    it with value [v].  The members of a group are the items whose entries,
    as [extractVaryingProperties] gives them, are its values; the members
    of all groups are the input up to order. *)
Theorem optimizeGrouping_metadata_intersection (data : list (gmap string jsval)) :
  Forall nan_free data →
  Forall proto_free data →
  ∃ result parts,
    optimizeGroupingByCommonElements data = Some result
    ∧ concat parts ≡ₚ data
    ∧ Forall2 (λ group items,
                 items ≠ []
                 ∧ g_values group
                   = map (λ item, extractVaryingProperties item (metadata group)) items
                 ∧ ∀ k v, metadata group !! k = Some v
                          ↔ isValueKey k = false
                            ∧ Forall (λ item, item !! k = Some v) items)
              (groups result) parts.
Proof.
  intros Hnan Hproto.
  destruct (optimizeGrouping_parts data) as (parts & Hres & Hperm & Hne).
  eexists _, parts. split; [exact Hres|]. split; [done|].
  cbn [groups]. apply Forall2_fmap_l, Forall_Forall2_diag, Forall_forall.
  intros items Hitems. rewrite Forall_forall in Hne.
  split; [by apply Hne|]. split; [apply createGroup_values|].
  assert (Hsub : ∀ item, item ∈ items → item ∈ data).
  { intros item Hitem. rewrite <- Hperm. apply list_elem_of_In, in_concat.
    exists items. split; by apply list_elem_of_In. }
  intros k v. apply createGroup_metadata; [by apply Hne| |].
  - apply Forall_forall. intros item Hitem.
    rewrite Forall_forall in Hnan. by apply Hnan, Hsub.
  - apply Forall_forall. intros item Hitem.
    rewrite Forall_forall in Hproto. by apply Hproto, Hsub.
Qed.

Lemma nan_free_item_of (attrs : list (string * string)) : nan_free (item_of attrs).
Proof.
  intros k v Hk _. unfold item_of in Hk.
  apply elem_of_list_to_map_2, list_elem_of_fmap in Hk as ([k' s] & [= -> ->] & _).
  done.
Qed.

Lemma optimizeGrouping_metadata_intersection_witness :
  ∃ result parts,
    optimizeGroupingByCommonElements sample_items = Some result
    ∧ concat parts ≡ₚ sample_items
    ∧ Forall2 (λ group items,
                 items ≠ []
                 ∧ g_values group
                   = map (λ item, extractVaryingProperties item (metadata group)) items
                 ∧ ∀ k v, metadata group !! k = Some v
                          ↔ isValueKey k = false
                            ∧ Forall (λ item, item !! k = Some v) items)
              (groups result) parts.
Proof.
  apply (optimizeGrouping_metadata_intersection sample_items).
  - repeat constructor; apply nan_free_item_of.
  - repeat constructor; vm_compute; reflexivity.
Defined.

Section fixed_shared.

Context `{!Runtime}.

(** C3: when every dimension key is on every record or on none, as the data
    model takes it, a dimension key that a record carries, the pivot axis
    apart, is in [fixed] or in [dims] and never in both, and the pivot axis
    is in neither; [fixed] maps a key to [v] exactly when every record
    carries it with the value [v]; a key is in [dims] exactly when it takes
    two distinct values across the records. *)
Theorem packDataInf_fixed_shared (dataInf : DataInf) (classInf : ClassInf)
    (k : string) :
  uniform_presence (toArray (VALUE dataInf)) →
  let out := packDataInf dataInf classInf in
  let rows := toArray (VALUE dataInf) in
  let fixed := default ∅ (fixed out) in
  ((is_Some (fixed !! k) ∨ k ∈ dims out)
     ↔ k ∈ ALL_DIM_KEYS ∧ pivotDim out ≠ Some k ∧ ∃ v, takes rows k v)
  ∧ ¬ (is_Some (fixed !! k) ∧ k ∈ dims out)
  ∧ (pivotDim out = Some k → fixed !! k = None ∧ k ∉ dims out)
  ∧ (∀ v, fixed !! k = Some v
       ↔ k ∈ ALL_DIM_KEYS ∧ pivotDim out ≠ Some k
         ∧ rows ≠ [] ∧ ∀ row, row ∈ rows → attr row k = Some v)
  ∧ (k ∈ dims out
       ↔ k ∈ ALL_DIM_KEYS ∧ pivotDim out ≠ Some k
         ∧ ∃ v w, takes rows k v ∧ takes rows k w ∧ v ≠ w)
  ∧ NoDup (dims out).
Proof.
  intros Huni.
  pose proof (packDataInf_fixed_xor_dims dataInf classInf k) as Hcore.
  cbv zeta in Hcore |- *.
  destruct Hcore as (Hin & Hxor & Hfix & Hdims & Hnd).
  split; [exact Hin|]. split; [exact Hxor|].
  split.
  { intros Hp. split.
    - destruct (default ∅ (fixed (packDataInf dataInf classInf)) !! k) as [v|] eqn:Hv;
        [|reflexivity].
      exfalso. destruct (proj1 (Hfix v) eq_refl) as (_ & Hne & _). exact (Hne Hp).
    - intros Hk. apply Hdims in Hk as (_ & Hne & _). exact (Hne Hp). }
  split; [|split; [exact Hdims|exact Hnd]].
  intros v. rewrite Hfix. split.
  - intros (Hk & Hp & (row0 & Hrow0 & Hv0) & Hone).
    split; [exact Hk|]. split; [exact Hp|]. split.
    + intros Hnil. rewrite Hnil in Hrow0. by apply elem_of_nil in Hrow0.
    + intros row Hrow. unfold uniform_presence in Huni.
      rewrite Forall_forall in Huni. destruct (Huni k Hk) as [Hall|Hnone].
      * rewrite Forall_forall in Hall. destruct (Hall row Hrow) as [w Hw].
        rewrite Hw. f_equal. apply Hone. by exists row.
      * rewrite Forall_forall in Hnone. rewrite (Hnone row0 Hrow0) in Hv0.
        discriminate Hv0.
  - intros (Hk & Hp & Hne & Hall).
    split; [exact Hk|]. split; [exact Hp|].
    destruct (toArray (VALUE dataInf)) as [|row0 rest] eqn:Hrows; [done|].
    split.
    + exists row0. split; [by left|]. apply Hall. by left.
    + intros w (row & Hrow & Hw). rewrite (Hall row Hrow) in Hw. by injection Hw.
Qed.

End fixed_shared.

Lemma packDataInf_fixed_shared_witness :
  uniform_presence (toArray (VALUE dataInf_overwrite))
  ∧ "cat01" ∈ dims (@packDataInf sample_runtime dataInf_overwrite classInf_tab)
  ∧ default ∅ (fixed (@packDataInf sample_runtime dataInf_overwrite classInf_tab))
      !! "cat01" = None.
Proof.
  assert (Huni : uniform_presence (toArray (VALUE dataInf_overwrite))).
  { apply (bool_decide_unpack _). vm_compute. exact I. }
  split; [exact Huni|].
  destruct (@packDataInf_fixed_shared sample_runtime dataInf_overwrite classInf_tab
              "cat01" Huni) as (_ & Hxor & _ & _ & Hdims & _).
  assert (Hin : "cat01" ∈ dims (@packDataInf sample_runtime dataInf_overwrite classInf_tab)).
  { apply Hdims. split; [|split].
    - apply (bool_decide_unpack _). vm_compute. exact I.
    - vm_compute. intros Heq. discriminate Heq.
    - exists "A", "B". split; [|split].
      + exists (value_of [("@tab", "X"); ("@cat01", "A"); ("@annotation", "*")] "a").
        split; [left|vm_compute; reflexivity].
      + exists (value_of [("@tab", "Y"); ("@cat01", "B")] "c").
        split; [right; right; left|vm_compute; reflexivity].
      + intros Heq. discriminate Heq. }
  split; [exact Hin|].
  destruct (default ∅ (fixed (@packDataInf sample_runtime dataInf_overwrite classInf_tab))
              !! "cat01") as [v|] eqn:Hv; [|reflexivity].
  exfalso. apply Hxor. split; [by eexists|exact Hin].
Defined.

(** Inserting entry after entry: the last entry of a key stays. *)
Lemma foldl_insert_last {A B} (key : A → string) (val : A → B) (l : list A) (k : string) :
  foldl (λ m x, <[key x := val x]> m) (∅ : gmap string B) l !! k
  = val <$> last (filter (λ x, key x = k) l).
Proof.
  induction l as [|x l IH] using rev_ind; [done|].
  rewrite foldl_snoc, filter_app, lookup_insert.
  rewrite filter_cons, filter_nil.
  case_decide as Hk.
  - by rewrite last_snoc.
  - by rewrite app_nil_r.
Qed.

Lemma lookup_set_prop {B} (m : gmap string B) (key k : string) (v : B) :
  set_prop key v m !! k
  = if decide (key = k ∧ own_on_write key = true) then Some v else m !! k.
Proof.
  unfold set_prop. destruct (own_on_write key).
  - rewrite lookup_insert. destruct (decide (key = k)) as [->|Hk].
    + by rewrite decide_True.
    + by rewrite decide_False by tauto.
  - by rewrite decide_False by (intros [_ ?]; done).
Qed.

(** Writing entry after entry: the last entry of a key stays, and nothing
    stays under [__proto__]. *)
Lemma foldl_set_prop_last {A B} (key : A → string) (val : A → B) (l : list A) (k : string) :
  foldl (λ m x, set_prop (key x) (val x) m) (∅ : gmap string B) l !! k
  = if own_on_write k then val <$> last (filter (λ x, key x = k) l) else None.
Proof.
  induction l as [|x l IH] using rev_ind; [by destruct (own_on_write k)|].
  rewrite foldl_snoc, lookup_set_prop, filter_app, filter_cons, filter_nil.
  destruct (decide (key x = k)) as [Hk|Hk].
  - rewrite Hk. destruct (own_on_write k) eqn:Hw.
    + rewrite decide_True by done. by rewrite last_snoc.
    + rewrite decide_False by (intros [_ ?]; done). rewrite IH. by destruct (own_on_write k).
  - rewrite decide_False by tauto. by rewrite app_nil_r.
Qed.

Lemma packListInf_step_lookup (m m' : gmap string TableGroup) (svy : ListInf) (o : string) :
  packListInf_step m svy = Returns m' →
  m' !! o
  = if decide (cv_text (li_GOV_ORG svy) = o)
    then Some {| tg_c := tg_c (default {| tg_c := ["statsCode"; "name"]; tg_r := [] |} (m !! o));
                 tg_r := tg_r (default {| tg_c := ["statsCode"; "name"]; tg_r := [] |} (m !! o))
                         ++ [[li_id svy; cv_text (li_STAT_NAME svy)]] |}
    else m !! o.
Proof.
  unfold packListInf_step. destruct (inherited _); [done|]. intros [= <-].
  rewrite lookup_alter. case_decide as Ho.
  - subst o. case_bool_decide as Hm.
    + destruct Hm as [g Hg]. by rewrite Hg.
    + rewrite lookup_insert_eq.
      destruct (m !! cv_text (li_GOV_ORG svy)) as [g|] eqn:Hg; [|done].
      exfalso. apply Hm. by eexists.
  - case_bool_decide; [done|]. by rewrite lookup_insert_ne.
Qed.

Lemma packListInf_step_outcome (m : gmap string TableGroup) (svy : ListInf) :
  match packListInf_step m svy with
  | Returns _ => inherited (cv_text (li_GOV_ORG svy)) = false
  | Throws => inherited (cv_text (li_GOV_ORG svy)) = true
  | Escapes => False
  end.
Proof. unfold packListInf_step. by destruct (inherited _). Qed.

Lemma packListInf_fold (l : list ListInf) :
  match fold_outcome packListInf_step l ∅ with
  | Returns m =>
    Forall (λ svy, inherited (cv_text (li_GOV_ORG svy)) = false) l
    ∧ ∀ o, m !! o
           = match of_org o l with
             | [] => None
             | entries =>
               Some {| tg_c := ["statsCode"; "name"];
                       tg_r := map (λ svy, [li_id svy; cv_text (li_STAT_NAME svy)]) entries |}
             end
  | Throws => Exists (λ svy, inherited (cv_text (li_GOV_ORG svy)) = true) l
  | Escapes => False
  end.
Proof.
  induction l as [|svy l IH] using rev_ind; [by split|].
  rewrite fold_outcome_snoc.
  destruct (fold_outcome packListInf_step l ∅) as [m| |]; [|by apply Exists_app; left|done].
  destruct IH as [Hall Hget].
  pose proof (packListInf_step_outcome m svy) as Hout.
  destruct (packListInf_step m svy) as [m'| |] eqn:Hstep; [|by apply Exists_app; right; left|done].
  split; [apply Forall_app; split; [done|by constructor]|].
  intros o. rewrite (packListInf_step_lookup m m' svy o Hstep), Hget. unfold of_org.
  rewrite filter_app, filter_cons, filter_nil.
  case_decide as Ho.
  - destruct (filter _ l) as [|e es]; [done|].
    cbn [default tg_c tg_r app map]. by rewrite map_app.
  - by rewrite app_nil_r.
Qed.

(** X2: [packListInf] throws when the organisation name of a survey is a
    name that every object inherits, and only then; otherwise it returns,
    with an entry for an organisation exactly when a survey carries it,
    the columns [statsCode], [name], and one row [id, name] for every
    survey of the organisation, in input order, repeated ids included. *)
Theorem packListInf_rows (l : list ListInf) :
  match packListInf (Many l) with
  | Returns out =>
    Forall (λ svy, inherited (cv_text (li_GOV_ORG svy)) = false) l
    ∧ ∀ o, svys out !! o
           = match of_org o l with
             | [] => None
             | entries =>
               Some {| tg_c := ["statsCode"; "name"];
                       tg_r := map (λ svy, [li_id svy; cv_text (li_STAT_NAME svy)]) entries |}
             end
  | Throws => Exists (λ svy, inherited (cv_text (li_GOV_ORG svy)) = true) l
  | Escapes => False
  end.
Proof.
  unfold packListInf. cbn [toArray].
  pose proof (packListInf_fold l) as H.
  by destruct (fold_outcome packListInf_step l ∅).
Qed.

Lemma first_by_id_snoc (l : list TableInf) (x : TableInf) :
  first_by_id (l ++ [x])
  = if bool_decide (t_id x ∈ map t_id (first_by_id l)) then first_by_id l
    else first_by_id l ++ [x].
Proof. unfold first_by_id. by rewrite foldl_snoc. Qed.

Lemma first_by_id_ids (l : list TableInf) (id : string) :
  id ∈ map t_id (first_by_id l) ↔ id ∈ map t_id l.
Proof.
  induction l as [|x l IH] using rev_ind; [done|].
  rewrite first_by_id_snoc, map_app, elem_of_app. cbn [map].
  rewrite list_elem_of_singleton, <- IH.
  case_bool_decide as Hx.
  - split; [by left|]. intros [?| ->]; done.
  - rewrite map_app, elem_of_app. cbn [map]. by rewrite list_elem_of_singleton.
Qed.

Lemma first_by_id_subseteq (l : list TableInf) (x : TableInf) :
  x ∈ first_by_id l → x ∈ l.
Proof.
  induction l as [|y l IH] using rev_ind; [done|].
  rewrite first_by_id_snoc, elem_of_app. case_bool_decide.
  - intros ?. left. by apply IH.
  - rewrite elem_of_app. intros [?|?]; [left; by apply IH|by right].
Qed.

Lemma of_group_first_nil (o s : string) (l : list TableInf) :
  of_group o s l = [] → of_group o s (first_by_id l) = [].
Proof.
  unfold of_group. intros Hnil.
  destruct (filter _ (first_by_id l)) as [|x xs] eqn:Hf; [done|]. exfalso.
  assert (Hx : x ∈ filter (λ tbl, cv_text (t_GOV_ORG tbl) = o ∧ t_STATISTICS_NAME tbl = s)
                          (first_by_id l)) by (rewrite Hf; left).
  apply list_elem_of_filter in Hx as [Hp Hx%first_by_id_subseteq].
  assert (Hin : x ∈ filter (λ tbl, cv_text (t_GOV_ORG tbl) = o ∧ t_STATISTICS_NAME tbl = s) l)
    by by apply list_elem_of_filter.
  rewrite Hnil in Hin. by apply elem_of_nil in Hin.
Qed.

Lemma tbl_get_alter (F : gmap string TableGroup → gmap string TableGroup)
    (t : gmap string (gmap string TableGroup)) (ox o s : string) :
  tbl_get (alter F ox t) o s
  = if decide (ox = o) then t !! ox ≫= λ inner, F inner !! s else tbl_get t o s.
Proof.
  unfold tbl_get. rewrite lookup_alter. case_decide as Ho; [|done].
  subst. by destruct (t !! o).
Qed.

Lemma packTableInf_step_outcome (t : gmap string (gmap string TableGroup))
    (ids : gset string) (x : TableInf) :
  match packTableInf_step (t, ids) x with
  | Returns _ =>
    inherited (cv_text (t_GOV_ORG x)) = false
    ∧ (inherited (t_STATISTICS_NAME x) = true → t_id x ∈ ids)
  | Throws =>
    inherited (cv_text (t_GOV_ORG x)) = false
    ∧ inherited (t_STATISTICS_NAME x) = true ∧ t_id x ∉ ids
  | Escapes => inherited (cv_text (t_GOV_ORG x)) = true
  end.
Proof.
  unfold packTableInf_step.
  destruct (inherited (cv_text (t_GOV_ORG x))); [done|].
  destruct (inherited (t_STATISTICS_NAME x)).
  - case_bool_decide; [by split|by split].
  - case_bool_decide; by split.
Qed.

Lemma tbl_get_step (t : gmap string (gmap string TableGroup)) (ids : gset string)
    (x : TableInf) (st' : gmap string (gmap string TableGroup) * gset string)
    (o s : string) :
  packTableInf_step (t, ids) x = Returns st' →
  tbl_get st'.1 o s
  = if decide (cv_text (t_GOV_ORG x) = o ∧ t_STATISTICS_NAME x = s
               ∧ inherited (t_STATISTICS_NAME x) = false)
    then Some (let g := default blank_table (tbl_get t o s) in
               if bool_decide (t_id x ∈ ids) then g
               else {| tg_c := tg_c g; tg_r := tg_r g ++ [table_row x] |})
    else tbl_get t o s.
Proof.
  unfold packTableInf_step.
  set (ox := cv_text (t_GOV_ORG x)). set (sx := t_STATISTICS_NAME x).
  clearbody ox sx.
  destruct (inherited ox); [done|].
  set (t1 := if bool_decide (is_Some (t !! ox)) then t else <[ox := ∅]> t).
  assert (H1 : ∀ o s, tbl_get t1 o s = tbl_get t o s).
  { intros o' s'. subst t1. case_bool_decide as Hox; [done|].
    unfold tbl_get. rewrite lookup_insert. case_decide as E; [|done].
    subst o'. cbn. rewrite lookup_empty.
    destruct (t !! ox) eqn:Ht; [|done]. exfalso. apply Hox. by eexists. }
  assert (H1s : is_Some (t1 !! ox)).
  { subst t1. case_bool_decide; [done|]. rewrite lookup_insert_eq. by eexists. }
  clearbody t1.
  destruct (inherited sx) eqn:His.
  { case_bool_decide; [|done]. intros [= <-]. cbn [fst].
    rewrite decide_False by (intros (_ & _ & ?); done). apply H1. }
  set (t2 := if bool_decide (is_Some (tbl_get t1 ox sx)) then t1
             else alter (insert sx {| tg_c := ["statsDataId"; "title"]; tg_r := [] |}) ox t1).
  assert (H2 : ∀ o s, tbl_get t2 o s
                 = if decide (ox = o ∧ sx = s)
                   then Some (default blank_table (tbl_get t1 o s))
                   else tbl_get t1 o s).
  { intros o' s'. subst t2. case_bool_decide as Hg.
    - case_decide as E; [|done]. destruct E as [<- <-].
      destruct Hg as [g ->]. done.
    - rewrite tbl_get_alter. destruct H1s as [inner Hinner].
      case_decide as Eo.
      + subst o'. rewrite Hinner. cbn. rewrite lookup_insert.
        destruct (decide (sx = s')) as [Es|Es].
        * subst s'. rewrite decide_True by done.
          destruct (tbl_get t1 ox sx) eqn:Hget; [|done].
          exfalso. apply Hg. by eexists.
        * rewrite decide_False by tauto.
          unfold tbl_get. by rewrite Hinner.
      + rewrite decide_False by tauto. done. }
  clearbody t2.
  rewrite (decide_ext (ox = o ∧ sx = s ∧ false = false) (ox = o ∧ sx = s)) by tauto.
  case_bool_decide as Hid; intros [= <-]; cbn [fst].
  - rewrite H2. case_decide; [|by rewrite H1]. by rewrite H1.
  - rewrite tbl_get_alter. case_decide as Eo.
    + subst o.
      pose proof (H2 ox s) as H2'. unfold tbl_get in H2' at 1.
      destruct (t2 !! ox) as [inner|] eqn:Hinner; cbn [mbind option_bind] in *.
      * rewrite lookup_alter. destruct (decide (sx = s)) as [Es|Es].
        -- subst s. rewrite decide_True by done. rewrite H2'.
           rewrite decide_True by done. cbn. by rewrite H1.
        -- rewrite decide_False by tauto. rewrite H2'.
           rewrite decide_False by tauto. by rewrite H1.
      * destruct (decide (ox = ox ∧ sx = s)) as [E|E]; [done|].
        by rewrite <- H1, <- H2'.
    + rewrite decide_False by tauto. rewrite H2.
      rewrite decide_False by tauto. by rewrite H1.
Qed.

Lemma ids_step (t : gmap string (gmap string TableGroup)) (ids : gset string)
    (x : TableInf) (st' : gmap string (gmap string TableGroup) * gset string)
    (id : string) :
  packTableInf_step (t, ids) x = Returns st' →
  id ∈ st'.2 ↔ id = t_id x ∨ id ∈ ids.
Proof.
  unfold packTableInf_step. destruct (inherited _); [done|].
  destruct (inherited _).
  - case_bool_decide as Hid; [|done]. intros [= <-]. cbn [snd].
    split; [by right|]. by intros [-> |?].
  - case_bool_decide as Hid; intros [= <-]; cbn [snd].
    + split; [by right|]. by intros [-> |?].
    + rewrite elem_of_union, elem_of_singleton. done.
Qed.

Lemma of_group_snoc (o s : string) (l : list TableInf) (x : TableInf) :
  of_group o s (l ++ [x])
  = of_group o s l
    ++ (if decide (cv_text (t_GOV_ORG x) = o ∧ t_STATISTICS_NAME x = s) then [x] else []).
Proof. unfold of_group. by rewrite filter_app. Qed.

Lemma packTableInf_state (l : list TableInf) :
  ∀ st : gmap string (gmap string TableGroup) * gset string,
  fold_outcome packTableInf_step l (∅, ∅) = Returns st →
  (∀ id, id ∈ st.2 ↔ id ∈ map t_id l)
  ∧ ∀ o s, tbl_get st.1 o s
           = if inherited s then None
             else match of_group o s l with
                  | [] => None
                  | _ => Some {| tg_c := ["statsDataId"; "title"];
                                 tg_r := map table_row (of_group o s (first_by_id l)) |}
                  end.
Proof.
  induction l as [|x l IH] using rev_ind; intros st'.
  - intros [= <-]. split; [intros id; cbn; set_solver|]. intros o s. cbn.
    unfold tbl_get. rewrite lookup_empty. by destruct (inherited s).
  - rewrite fold_outcome_snoc.
    destruct (fold_outcome packTableInf_step l (∅, ∅)) as [[t ids]| |]; [|done|done].
    destruct (IH _ eq_refl) as [IHids IHget]. cbn [fst snd] in IHids, IHget.
    intros Hstep. split.
    + intros id. rewrite (ids_step t ids x st' id Hstep), IHids, map_app, elem_of_app.
      cbn [map]. rewrite list_elem_of_singleton. tauto.
    + intros o s. rewrite (tbl_get_step t ids x st' o s Hstep), IHget.
      destruct (inherited s) eqn:His.
      { rewrite decide_False; [done|]. intros (_ & <- & Hn). congruence. }
      rewrite first_by_id_snoc, of_group_snoc.
      assert (Hseen : t_id x ∈ ids ↔ t_id x ∈ map t_id (first_by_id l))
        by by rewrite IHids, first_by_id_ids.
      assert (Hbase : default blank_table
                match of_group o s l with
                | [] => None
                | _ => Some {| tg_c := ["statsDataId"; "title"];
                               tg_r := map table_row (of_group o s (first_by_id l)) |}
                end
              = {| tg_c := ["statsDataId"; "title"];
                   tg_r := map table_row (of_group o s (first_by_id l)) |}).
      { destruct (of_group o s l) eqn:Hl; [|done].
        by rewrite (of_group_first_nil o s l Hl). }
      destruct (decide (cv_text (t_GOV_ORG x) = o ∧ t_STATISTICS_NAME x = s)) as [Hg|Hg].
      * rewrite decide_True by (destruct Hg as [? Hs]; rewrite Hs; done).
        cbv zeta. rewrite Hbase.
        assert (Hne : ∃ y ys, of_group o s l ++ [x] = y :: ys).
        { destruct (of_group o s l); cbn; eauto. }
        destruct Hne as (y & ys & ->). f_equal.
        destruct (bool_decide (t_id x ∈ ids)) eqn:Hid.
        -- apply bool_decide_eq_true in Hid.
           rewrite bool_decide_eq_true_2 by by apply Hseen. done.
        -- apply bool_decide_eq_false in Hid.
           rewrite bool_decide_eq_false_2 by by rewrite <- Hseen.
           rewrite of_group_snoc, decide_True by done.
           cbn [tg_c tg_r]. by rewrite map_app.
      * rewrite decide_False by tauto. rewrite app_nil_r.
        destruct (of_group o s l) as [|y ys] eqn:Hl; [done|]. f_equal. f_equal.
        case_bool_decide; [done|].
        rewrite of_group_snoc, decide_False by done. by rewrite app_nil_r.
Qed.

Lemma packTableInf_fold_outcome (l : list TableInf) :
  match fold_outcome packTableInf_step l (∅, ∅) with
  | Returns _ =>
    Forall (λ tbl, inherited (cv_text (t_GOV_ORG tbl)) = false) l
    ∧ Forall (λ tbl, inherited (t_STATISTICS_NAME tbl) = false) (first_by_id l)
  | Throws => Exists (λ tbl, inherited (t_STATISTICS_NAME tbl) = true) (first_by_id l)
  | Escapes => Exists (λ tbl, inherited (cv_text (t_GOV_ORG tbl)) = true) l
  end.
Proof.
  induction l as [|x l IH] using rev_ind; [by split|].
  rewrite fold_outcome_snoc, first_by_id_snoc.
  pose proof (packTableInf_state l) as Hst.
  destruct (fold_outcome packTableInf_step l (∅, ∅)) as [[t ids]| |].
  - destruct (Hst _ eq_refl) as [Hids _]. cbn [snd] in Hids.
    destruct IH as [Horg Hser].
    pose proof (packTableInf_step_outcome t ids x) as Hout.
    assert (Hseen : t_id x ∈ ids ↔ t_id x ∈ map t_id (first_by_id l))
      by by rewrite Hids, first_by_id_ids.
    destruct (packTableInf_step (t, ids) x) as [st'| |].
    + destruct Hout as [Hox Hsx]. split; [apply Forall_app; split; [done|by constructor]|].
      case_bool_decide as Hin; [done|]. apply Forall_app. split; [done|].
      constructor; [|done]. destruct (inherited (t_STATISTICS_NAME x)); [|done].
      exfalso. apply Hin, Hseen, Hsx. done.
    + destruct Hout as (_ & Hsx & Hid).
      rewrite bool_decide_eq_false_2 by by rewrite <- Hseen.
      apply Exists_app. right. by left.
    + apply Exists_app. right. by left.
  - case_bool_decide; [done|]. apply Exists_app. by left.
  - apply Exists_app. by left.
Qed.



Lemma class_maps_snoc (classes : list ClassObjClass) (c : ClassObjClass) :
  class_maps (classes ++ [c]) = packClassInf_class (class_maps classes) c.
Proof. unfold class_maps. by rewrite foldl_snoc. Qed.

Lemma class_maps_label (classes : list ClassObjClass) (code : string) :
  (class_maps classes).1 !! code
  = if own_on_write code then c_name <$> last (with_code code classes) else None.
Proof.
  induction classes as [|c classes IH] using rev_ind; [by destruct (own_on_write code)|].
  rewrite class_maps_snoc. unfold with_code. rewrite filter_app, filter_cons, filter_nil.
  cbn [packClassInf_class fst]. rewrite lookup_set_prop.
  destruct (decide (c_code c = code)) as [Hc|Hc].
  - rewrite Hc. destruct (own_on_write code) eqn:Hw.
    + rewrite decide_True by done. by rewrite last_snoc.
    + rewrite decide_False by (intros [_ ?]; done). by rewrite IH.
  - rewrite decide_False by tauto. rewrite app_nil_r. exact IH.
Qed.

Lemma class_maps_unit (classes : list ClassObjClass) (code : string) :
  (class_maps classes).2 !! code
  = if own_on_write code then last (with_unit code classes) ≫= c_unit else None.
Proof.
  induction classes as [|c classes IH] using rev_ind; [by destruct (own_on_write code)|].
  rewrite class_maps_snoc. unfold with_unit. rewrite filter_app, filter_cons, filter_nil.
  cbn [packClassInf_class snd].
  destruct (c_unit c) as [u|] eqn:Hu.
  - destruct (truthy (Some u)) eqn:Ht.
    + rewrite lookup_set_prop. destruct (decide (c_code c = code)) as [Hc|Hc].
      * rewrite Hc. rewrite (decide_True (P := code = code ∧ true = true)) by done.
        destruct (own_on_write code) eqn:Hw.
        -- rewrite decide_True by done. rewrite last_snoc. cbn. by rewrite Hu.
        -- rewrite decide_False by (intros [_ ?]; done). by rewrite IH.
      * rewrite decide_False by tauto. rewrite decide_False by tauto.
        rewrite app_nil_r. exact IH.
    + rewrite decide_False by (intros [_ ?]; congruence).
      rewrite app_nil_r. exact IH.
  - rewrite decide_False by (intros [_ ?]; done).
    rewrite app_nil_r. exact IH.
Qed.

Lemma class_maps_no_unit (classes : list ClassObjClass) :
  (class_maps classes).2 = ∅
  ↔ Forall (λ c, truthy (c_unit c) = true → own_on_write (c_code c) = false) classes.
Proof.
  split.
  - intros Hempty. apply Forall_forall. intros c Hc Ht.
    destruct (own_on_write (c_code c)) eqn:Hw; [|done]. exfalso.
    pose proof (class_maps_unit classes (c_code c)) as Hu.
    rewrite Hempty, lookup_empty, Hw in Hu.
    assert (Hin : c ∈ with_unit (c_code c) classes)
      by by apply list_elem_of_filter.
    destruct (last (with_unit (c_code c) classes)) as [c'|] eqn:Hlast.
    + apply last_Some_elem_of, list_elem_of_filter in Hlast as [[_ Ht'] _].
      cbn in Hu. rewrite <- Hu in Ht'. done.
    + apply last_None in Hlast. rewrite Hlast in Hin. by apply elem_of_nil in Hin.
  - intros Hall. apply map_eq. intros code.
    rewrite class_maps_unit, lookup_empty.
    destruct (own_on_write code) eqn:Hw; [|done].
    destruct (last (with_unit code classes)) as [c|] eqn:Hlast; [|done].
    apply last_Some_elem_of, list_elem_of_filter in Hlast as [[Hcode Ht] Hc].
    rewrite Forall_forall in Hall. specialize (Hall c Hc Ht). congruence.
Qed.

Lemma packClassInf_fold (objs : list ClassObj) :
  ∀ acc : list string * gmap string MetaDim,
  foldl packClassInf_step acc objs
  = (acc.1 ++ map o_id objs,
     foldl (λ m obj, set_prop (o_id obj) (packClassInf_dim obj) m) acc.2 objs).
Proof.
  induction objs as [|obj objs IH]; intros [dims m].
  - cbn. by rewrite app_nil_r.
  - cbn [foldl]. rewrite IH. cbn [packClassInf_step fst snd map].
    by rewrite <- app_assoc.
Qed.

(** X3: [packClassInf] lists the ids of CLASS_OBJ in input order, repeated
    ids included; the entry of an id is built from the last object of that
    id, with its name, and its description and explanation when they are
    not empty; under the id [__proto__] there is no entry. *)
Theorem packClassInf_dims (classInf : ClassInf) (id : string) :
  mp_dims (packClassInf classInf) = map o_id (CLASS_OBJ classInf)
  ∧ match last (filter (λ obj, o_id obj = id) (CLASS_OBJ classInf)) with
    | None => mp_m (packClassInf classInf) !! id = None
    | Some obj =>
      if own_on_write id then
        ∃ d, mp_m (packClassInf classInf) !! id = Some d
             ∧ d = packClassInf_dim obj
             ∧ md_n d = o_name obj
             ∧ md_d d = (if truthy (o_description obj) then o_description obj else None)
             ∧ md_e d = (if truthy (o_EXPLANATION obj) then o_EXPLANATION obj else None)
      else mp_m (packClassInf classInf) !! id = None
    end.
Proof.
  unfold packClassInf. rewrite packClassInf_fold. cbn [mp_dims mp_m fst snd app].
  split; [done|].
  rewrite (foldl_set_prop_last o_id packClassInf_dim).
  destruct (last _) as [obj|]; [|by destruct (own_on_write id)].
  destruct (own_on_write id); [|done].
  eexists. split; [done|]. done.
Qed.

(** X4: in the entry that [packClassInf] builds from a dimension, the label
    of a code is the name of the last class with that code, and its unit
    the unit of the last class with that code and a non-empty unit; nothing
    is kept under the code [__proto__]; there is no unit map exactly when
    no class with another code has a non-empty unit. *)
Theorem packClassInf_labels_units (obj : ClassObj) (code : string) :
  let classes := toArray (o_CLASS obj) in
  md_l (packClassInf_dim obj) !! code
  = (if own_on_write code then c_name <$> last (with_code code classes) else None)
  ∧ (md_u (packClassInf_dim obj) = None
     ↔ Forall (λ c, truthy (c_unit c) = true → own_on_write (c_code c) = false) classes)
  ∧ ∀ units,
      md_u (packClassInf_dim obj) = Some units →
      units !! code
      = if own_on_write code then last (with_unit code classes) ≫= c_unit else None.
Proof.
  cbv zeta. unfold packClassInf_dim. cbn [md_l md_u].
  fold (class_maps (toArray (o_CLASS obj))). split_and!.
  - apply class_maps_label.
  - rewrite <- class_maps_no_unit. case_bool_decide as Hs.
    + apply map_size_empty_iff in Hs. done.
    + split; [done|]. intros He. exfalso. apply Hs. by apply map_size_empty_iff.
  - intros units. case_bool_decide; [done|]. intros [= <-]. apply class_maps_unit.
Qed.

Lemma build_pivotIndex_snoc (codes : list string) (code : string) :
  build_pivotIndex (codes ++ [code]) = <[code := length codes]> (build_pivotIndex codes).
Proof.
  unfold build_pivotIndex. rewrite imap_app, foldl_app. cbn [imap foldl fst snd].
  by rewrite Nat.add_0_r.
Qed.

(** The index of a code is the place of its last declaration. *)
Lemma build_pivotIndex_last (codes : list string) (code : string) (i : nat) :
  build_pivotIndex codes !! code = Some i
  ↔ codes !! i = Some code ∧ ∀ j, i < j → codes !! j ≠ Some code.
Proof.
  revert i. induction codes as [|c codes IH] using rev_ind; intros i.
  - unfold build_pivotIndex. cbn. rewrite lookup_empty. split; [done|].
    by intros [? _].
  - rewrite build_pivotIndex_snoc, lookup_insert. case_decide as Hc.
    + subst c. split.
      * intros [= <-]. split.
        -- by rewrite lookup_app_r, Nat.sub_diag.
        -- intros j Hj Hjc. apply lookup_lt_Some in Hjc.
           rewrite length_app in Hjc. cbn in Hjc. lia.
      * intros [Hi Hlast]. f_equal.
        destruct (decide (i = length codes)) as [->|Hne]; [done|]. exfalso.
        apply (Hlast (length codes)).
        -- apply lookup_lt_Some in Hi. rewrite length_app in Hi. cbn in Hi. lia.
        -- by rewrite lookup_app_r, Nat.sub_diag.
    + rewrite IH. split.
      * intros [Hi Hlast]. split.
        -- by apply lookup_app_l_Some.
        -- intros j Hj Hjc. apply lookup_app_Some in Hjc as [Hjc|[_ Hjc]].
           ++ by apply (Hlast j).
           ++ destruct (j - length codes) as [|n]; cbn in Hjc; [congruence|done].
      * intros [Hi Hlast].
        apply lookup_app_Some in Hi as [Hi|[_ Hi]].
        -- split; [done|]. intros j Hj Hjc. apply (Hlast j Hj).
           by apply lookup_app_l_Some.
        -- destruct (i - length codes) as [|n]; cbn in Hi; [congruence|done].
Qed.

Section pivot_and_rows.

Context `{!Runtime}.

(** X6: with a pivot axis, [pivotDim] is its id, one of tab, cat01, ...,
    cat15; there is at least one value column; the value columns are the
    classes of the pivot axis in order, with their code, name and non-empty
    unit; and a record goes to the last column whose code is its pivot
    code. *)
Theorem packDataInf_pivot_columns (dataInf : DataInf) (classInf : ClassInf)
    (pivotObj : ClassObj) (pivotId : string) :
  detectPivotDim classInf = Some (pivotObj, pivotId) →
  let out := packDataInf dataInf classInf in
  let plan := packDataInf_plan dataInf classInf in
  let classes := toArray (o_CLASS pivotObj) in
  pivotDim out = Some pivotId
  ∧ pivotId ∈ PIVOT_CANDIDATE_KEYS
  ∧ 0 < length (valueCols out)
  ∧ map code (valueCols out) = map c_code classes
  ∧ map label (valueCols out) = map c_name classes
  ∧ map unit (valueCols out)
    = map (λ c, if truthy (c_unit c) then c_unit c else None) classes
  ∧ ∀ row pivotCode colIdx,
      attr row pivotId = Some pivotCode →
      target_col (p_pivotId plan) (p_pivotIndex plan) row = Some colIdx
      ↔ map c_code classes !! colIdx = Some pivotCode
        ∧ ∀ j, colIdx < j → map c_code classes !! j ≠ Some pivotCode.
Proof.
  intros Hp. cbv zeta.
  rewrite packDataInf_pivotDim, packDataInf_valueCols.
  rewrite packDataInf_plan_pivotId, packDataInf_plan_pivotIndex,
    packDataInf_plan_valueCols, Hp.
  cbn [fmap option_fmap option_map snd build_valueCols pivot_codes].
  assert (Hid : pivotId ∈ PIVOT_CANDIDATE_KEYS) by by eapply detectPivotDim_candidate.
  assert (Ht : truthy (Some pivotId) = true).
  { unfold truthy. rewrite bool_decide_eq_false_2; [done|].
    intros ->. by apply empty_not_candidate. }
  rewrite Ht. split_and!; try done.
  - rewrite length_map. by eapply hasUnit_classes, detectPivotDim_hasUnit.
  - by rewrite map_map.
  - by rewrite map_map.
  - by rewrite map_map.
  - intros row pivotCode colIdx Hrow. unfold target_col. rewrite Ht, Hrow.
    rewrite <- build_pivotIndex_last.
    destruct (build_pivotIndex _ !! pivotCode); naive_solver.
Qed.

(** X7: [rows] has one row for each distinct group key, in the order in
    which the keys first occur in the records; every row has one cell for
    each dimension of [dims] followed by one for each value column, and its
    dimension cells are those of the first record of its key. *)
Theorem packDataInf_rows_shape (dataInf : DataInf) (classInf : ClassInf) :
  let out := packDataInf dataInf classInf in
  let records := toArray (VALUE dataInf) in
  let keys := keys_seen (dims out) records in
  length (rows out) = length keys
  ∧ NoDup keys
  ∧ (∀ k, k ∈ keys ↔ ∃ r, r ∈ records ∧ row_groupKey (dims out) r = k)
  ∧ (∀ pre post, records = pre ++ post → keys_seen (dims out) pre `prefix_of` keys)
  ∧ ∀ i k,
      keys !! i = Some k →
      ∃ first rest row,
        rows_of_key (dims out) k records = first :: rest
        ∧ rows out !! i = Some row
        ∧ length row = length (dims out) + length (valueCols out)
        ∧ take (length (dims out)) row
          = map cell_of_dim (row_dimValues (dims out) first).
Proof.
  cbv zeta. rewrite packDataInf_dims, packDataInf_valueCols, packDataInf_rows.
  split_and!.
  - by rewrite length_map.
  - apply NoDup_keys_seen.
  - intros k. apply elem_of_keys_seen.
  - intros pre post ->. clear.
    induction post as [|r post IH] using rev_ind.
    + by rewrite app_nil_r.
    + rewrite app_assoc, keys_seen_snoc. etrans; [exact IH|].
      unfold set_add. case_bool_decide; [done|]. by apply prefix_app_r.
  - intros i k Hi.
    assert (Hk : k ∈ keys_seen (p_dims (packDataInf_plan dataInf classInf))
                               (toArray (VALUE dataInf)))
      by by eapply list_elem_of_lookup_2.
    destruct (group_of_seen dataInf classInf k Hk) as (first & rest & Hrk & Hd & _ & _).
    pose proof (group_of_values_length dataInf classInf k Hk) as Hlen.
    exists first, rest. eexists. split; [done|].
    split; [by rewrite list_lookup_fmap, Hi|].
    unfold row_of. rewrite Hd. split.
    + rewrite length_app, length_map, Hlen. unfold row_dimValues.
      by rewrite length_map.
    + rewrite take_app_length'; [done|]. unfold row_dimValues.
      by rewrite !length_map.
Qed.

(** X8: every entry [rowIdx, colIdx, annCode] of [annRows] points at a row
    of [rows] and a value column, has a non-empty code, and comes from a
    record with that annotation whose group key is the one of that row. *)
Theorem packDataInf_annRows_in_range (dataInf : DataInf) (classInf : ClassInf)
    (rowIdx colIdx : nat) (annCode : string) :
  let out := packDataInf dataInf classInf in
  (rowIdx, colIdx, annCode) ∈ default [] (annRows out) →
  rowIdx < length (rows out)
  ∧ colIdx < length (valueCols out)
  ∧ annCode ≠ ""
  ∧ ∃ r, r ∈ toArray (VALUE dataInf)
         ∧ attr r "annotation" = Some annCode
         ∧ keys_seen (dims out) (toArray (VALUE dataInf)) !! rowIdx
           = Some (row_groupKey (dims out) r).
Proof.
  cbv zeta. rewrite packDataInf_annRows_Permutation.
  rewrite list_elem_of_omap. intros (r & Hr & Ha).
  destruct (ann_of _ _ r) as [[c a]|] eqn:Hann; [|done].
  cbn in Ha. injection Ha as <- <- <-.
  apply ann_of_Some in Hann as (Hcol & Hattr & Hne).
  rewrite packDataInf_valueCols, packDataInf_rows, length_map, packDataInf_dims.
  assert (Hk : row_groupKey (p_dims (packDataInf_plan dataInf classInf)) r
               ∈ keys_seen (p_dims (packDataInf_plan dataInf classInf))
                           (toArray (VALUE dataInf))).
  { apply elem_of_keys_seen. by exists r. }
  apply list_elem_of_lookup in Hk as [i Hi].
  rewrite (key_index_lookup _ _ i (NoDup_keys_seen _ _) Hi).
  split_and!.
  - by eapply lookup_lt_Some.
  - eapply (plan_cols_below dataInf classInf [r]); [left|done].
  - done.
  - by exists r.
Qed.

End pivot_and_rows.

Lemma fromEntries_lookup (l : list (string * string)) (k : string) :
  fromEntries l !! k = snd <$> last (filter (λ e, e.1 = k) l).
Proof. apply (foldl_insert_last fst snd). Qed.

Lemma fromEntries_cons_ne (e : string * string) (l : list (string * string)) :
  fromEntries (e :: l) ≠ ∅.
Proof.
  intros Hempty.
  destruct (last (e :: l)) as [x|] eqn:Hlast; [|by apply last_None in Hlast].
  pose proof (fromEntries_lookup (e :: l) x.1) as Hx.
  rewrite Hempty, lookup_empty in Hx.
  apply last_Some in Hlast as [l' Hl']. rewrite Hl' in Hx.
  rewrite filter_app, filter_cons, filter_nil, decide_True in Hx by done.
  by rewrite last_snoc in Hx.
Qed.

Lemma fromEntries_map_lookup {A} (key val : A → string) (l : list A) (k : string) :
  fromEntries (map (λ x, (key x, val x)) l) !! k
  = val <$> last (filter (λ x, key x = k) l).
Proof.
  unfold fromEntries. induction l as [|x l IH] using rev_ind; [done|].
  rewrite map_app, foldl_app, filter_app. cbn [map foldl fst snd].
  rewrite lookup_insert, filter_cons, filter_nil. case_decide.
  - by rewrite last_snoc.
  - by rewrite app_nil_r.
Qed.

Section side_tables.

Context `{!Runtime}.

Lemma packDataInf_na (dataInf : DataInf) (classInf : ClassInf) :
  na (packDataInf dataInf classInf)
  = match NOTE dataInf with
    | Some (n :: l) => Some (fromEntries (map (λ n, (n_char n, n_text n)) (n :: l)))
    | _ => None
    end.
Proof. unfold packDataInf. by destruct (assemble _). Qed.

Lemma packDataInf_annDict (dataInf : DataInf) (classInf : ClassInf) :
  annDict (packDataInf dataInf classInf)
  = match ANNOTATION dataInf with
    | Some (a :: l) =>
      Some (fromEntries (map (λ a, (a_annotation a, a_text a)) (a :: l)))
    | _ => None
    end.
Proof. unfold packDataInf. by destruct (assemble _). Qed.

(** X9: an optional field of the output is never present and empty:
    [pivotDim] is not the empty string, and [fixed], [annRows], [na] and
    [annDict] are not empty when they are there. *)
Theorem packDataInf_optional_fields (dataInf : DataInf) (classInf : ClassInf) :
  let out := packDataInf dataInf classInf in
  pivotDim out ≠ Some ""
  ∧ fixed out ≠ Some ∅
  ∧ annRows out ≠ Some []
  ∧ na out ≠ Some ∅
  ∧ annDict out ≠ Some ∅.
Proof.
  cbv zeta. rewrite packDataInf_na, packDataInf_annDict, packDataInf_pivotDim.
  split_and!.
  - cbv zeta. destruct (p_pivotId _) as [p|]; [|done]. unfold truthy.
    case_bool_decide as Hp; cbn [negb]; [done|]. by intros [= ->].
  - unfold packDataInf. destruct (assemble _). cbn [fixed].
    case_bool_decide as Hs; [done|]. intros [= He]. apply Hs.
    by apply map_size_empty_iff.
  - unfold packDataInf. destruct (assemble _) as [rs ar]. cbn [annRows].
    case_bool_decide as Hs; [done|]. intros [= He]. apply Hs. by rewrite He.
  - destruct (NOTE dataInf) as [[|n l]|]; [done| |done].
    intros [= He]. by apply fromEntries_cons_ne in He.
  - destruct (ANNOTATION dataInf) as [[|a l]|]; [done| |done].
    intros [= He]. by apply fromEntries_cons_ne in He.
Qed.

(** X10: [na] is absent exactly when NOTE is absent or empty, [annDict]
    exactly when ANNOTATION is; otherwise they map a character, or an
    annotation code, to the text of the last entry that carries it. *)
Theorem packDataInf_side_tables (dataInf : DataInf) (classInf : ClassInf) :
  let out := packDataInf dataInf classInf in
  (na out = None ↔ NOTE dataInf = None ∨ NOTE dataInf = Some [])
  ∧ (annDict out = None ↔ ANNOTATION dataInf = None ∨ ANNOTATION dataInf = Some [])
  ∧ (∀ m notes ch,
       na out = Some m → NOTE dataInf = Some notes →
       m !! ch = n_text <$> last (filter (λ n, n_char n = ch) notes))
  ∧ (∀ m anns code,
       annDict out = Some m → ANNOTATION dataInf = Some anns →
       m !! code = a_text <$> last (filter (λ a, a_annotation a = code) anns)).
Proof.
  cbv zeta. rewrite packDataInf_na, packDataInf_annDict. split_and!.
  - destruct (NOTE dataInf) as [[|n l]|]; naive_solver.
  - destruct (ANNOTATION dataInf) as [[|a l]|]; naive_solver.
  - intros m notes ch Hm [= Hn]. rewrite Hn in Hm.
    destruct notes as [|n l]; [done|]. injection Hm as <-.
    exact (fromEntries_map_lookup n_char n_text (n :: l) ch).
  - intros m anns code Hm [= Hn]. rewrite Hn in Hm.
    destruct anns as [|a l]; [done|]. injection Hm as <-.
    exact (fromEntries_map_lookup a_annotation a_text (a :: l) code).
Qed.

End side_tables.

Lemma join_ext (l1 : list (option string)) : ∀ l2 : list (option string),
  map (default "") l1 = map (default "") l2 → Js.join NUL l1 = Js.join NUL l2.
Proof.
  induction l1 as [|x l1 IH]; intros [|y l2] Heq; try done.
  cbn [map] in Heq. injection Heq as Hxy Hrest.
  specialize (IH l2 Hrest).
  destruct l1 as [|x' l1], l2 as [|y' l2]; try done.
  change (default "" x +:+ NUL +:+ Js.join NUL (x' :: l1)
          = default "" y +:+ NUL +:+ Js.join NUL (y' :: l2)).
  by rewrite Hxy, IH.
Qed.

Lemma append_sep_inj (a : string) : ∀ (b r r' : string),
  nul_free a = true → nul_free b = true →
  a +:+ NUL +:+ r = b +:+ NUL +:+ r' → a = b ∧ r = r'.
Proof.
  induction a as [|c a IH]; intros [|d b] r r' Ha Hb Heq; cbn in *.
  - by injection Heq.
  - injection Heq as <- _. by rewrite bool_decide_eq_true_2 in Hb.
  - injection Heq as -> _. by rewrite bool_decide_eq_true_2 in Ha.
  - injection Heq as -> Heq.
    apply andb_true_iff in Ha as [_ Ha]. apply andb_true_iff in Hb as [_ Hb].
    destruct (IH b r r' Ha Hb Heq) as [-> ->]. done.
Qed.

Lemma join_inj (l1 : list (option string)) : ∀ l2 : list (option string),
  length l1 = length l2 →
  Forall (λ x, nul_free (default "" x) = true) l1 →
  Forall (λ x, nul_free (default "" x) = true) l2 →
  Js.join NUL l1 = Js.join NUL l2 → map (default "") l1 = map (default "") l2.
Proof.
  induction l1 as [|x l1 IH]; intros [|y l2] Hlen H1 H2 Heq; try done.
  apply Forall_cons in H1 as [Hx H1]. apply Forall_cons in H2 as [Hy H2].
  destruct l1 as [|x' l1], l2 as [|y' l2]; try done.
  - cbn in Heq. cbn. by rewrite Heq.
  - change (default "" x +:+ NUL +:+ Js.join NUL (x' :: l1)
            = default "" y +:+ NUL +:+ Js.join NUL (y' :: l2)) in Heq.
    apply append_sep_inj in Heq as [Hxy Hrest]; [|done..].
    change (default "" x :: map (default "") (x' :: l1)
            = default "" y :: map (default "") (y' :: l2)).
    rewrite Hxy. f_equal. apply IH; try done.
    cbn in Hlen |- *. lia.
Qed.

(** X11: two records that agree on every dimension of [dims], a missing
    value reading as the empty string, have the same group key; two records
    with the same group key agree on every dimension, when no value holds
    the separator character. *)
Theorem row_groupKey_same (dims : list string) (r1 r2 : Value) :
  (Forall (λ dim, key_part r1 dim = key_part r2 dim) dims →
   row_groupKey dims r1 = row_groupKey dims r2)
  ∧ (Forall (λ dim, nul_free (key_part r1 dim) = true
                    ∧ nul_free (key_part r2 dim) = true) dims →
     row_groupKey dims r1 = row_groupKey dims r2 →
     Forall (λ dim, key_part r1 dim = key_part r2 dim) dims).
Proof.
  unfold row_groupKey, row_dimValues, key_part. split.
  - intros Hall. apply join_ext. rewrite !map_map.
    apply map_ext_in. intros d Hd%list_elem_of_In.
    rewrite Forall_forall in Hall. by apply Hall.
  - intros Hfree Hkey.
    apply join_inj in Hkey.
    + rewrite !map_map in Hkey. apply Forall_forall. intros d Hd.
      apply list_elem_of_In in Hd.
      by apply (proj1 map_ext_in_iff Hkey).
    + by rewrite !length_map.
    + apply Forall_map. eapply Forall_impl; [exact Hfree|]. by intros d [? _].
    + apply Forall_map. eapply Forall_impl; [exact Hfree|]. by intros d [_ ?].
Qed.

Lemma filter_ext_elem {A} (P Q : A → Prop) `{!∀ x, Decision (P x)}
    `{!∀ x, Decision (Q x)} (l : list A) :
  (∀ x, x ∈ l → P x ↔ Q x) → filter P l = filter Q l.
Proof.
  induction l as [|x l IH]; intros Hext; [done|].
  rewrite !filter_cons. rewrite IH by (intros y Hy; apply Hext; by right).
  destruct (decide (P x)) as [Hp|Hp], (decide (Q x)) as [Hq|Hq]; try done.
  - exfalso. apply Hq, (Hext x); [by left|done].
  - exfalso. apply Hp, (Hext x); [by left|done].
Qed.

Lemma filter_mem_self (P : string → Prop) `{!∀ x, Decision (P x)}
    (l d : list string) :
  d = filter P l → d = filter (λ k, k ∈ d) l.
Proof.
  intros Hd. rewrite Hd at 1. apply filter_ext_elem. intros k Hk.
  rewrite Hd, list_elem_of_filter. tauto.
Qed.

Lemma dims_filter_core (exclude present cands : list string)
    (u : gmap string (list string)) (fixed : gmap string string) (dims : list string) :
  cands = filter (λ k, (k ∉ exclude) ∧ k ∈ present) ALL_DIM_KEYS →
  (fixed, dims) = build_fixed_dims cands u →
  dims = filter (λ k, k ∈ dims) ALL_DIM_KEYS.
Proof.
  intros Hc Hfd. destruct (build_fixed_dims_spec u cands) as [Hdims _].
  rewrite <- Hfd in Hdims. cbn [snd] in Hdims.
  rewrite Hc, list_filter_filter in Hdims.
  by apply filter_mem_self in Hdims.
Qed.

Lemma packDataInf_plan_dims_filter (dataInf : DataInf) (classInf : ClassInf) :
  p_dims (packDataInf_plan dataInf classInf)
  = filter (λ k, k ∈ p_dims (packDataInf_plan dataInf classInf)) ALL_DIM_KEYS.
Proof.
  eapply dims_filter_core;
    [apply build_candidateDims_filter|apply packDataInf_plan_fixed_dims].
Qed.

Lemma takes_Permutation (rows rows' : list Value) (k v : string) :
  rows ≡ₚ rows' → takes rows k v ↔ takes rows' k v.
Proof.
  intros Hperm. unfold takes. split; intros (row & Hrow & Hv); exists row.
  - by rewrite <- Hperm.
  - by rewrite Hperm.
Qed.

Section record_order.

Context `{!Runtime}.

Lemma packDataInf_fixed_field (dataInf : DataInf) (classInf : ClassInf) :
  fixed (packDataInf dataInf classInf)
  = if bool_decide (size (p_fixed (packDataInf_plan dataInf classInf)) = 0) then None
    else Some (p_fixed (packDataInf_plan dataInf classInf)).
Proof. unfold packDataInf. destruct (assemble _). reflexivity. Qed.

(** X12: [dims] is a subsequence of the vocabulary tab, cat01, ..., cat15,
    area, time, and [dims], [fixed], [valueCols] and [pivotDim] do not
    depend on the order of the records. *)
Theorem packDataInf_record_order (dataInf dataInf' : DataInf) (classInf : ClassInf) :
  toArray (VALUE dataInf) ≡ₚ toArray (VALUE dataInf') →
  let out := packDataInf dataInf classInf in
  let out' := packDataInf dataInf' classInf in
  dims out `sublist_of` ALL_DIM_KEYS
  ∧ dims out = dims out'
  ∧ fixed out = fixed out'
  ∧ valueCols out = valueCols out'
  ∧ pivotDim out = pivotDim out'.
Proof.
  intros Hperm. cbv zeta.
  rewrite !packDataInf_dims, !packDataInf_fixed_field, !packDataInf_valueCols,
    !packDataInf_pivotDim.
  cbv zeta. rewrite !packDataInf_plan_valueCols, !packDataInf_plan_pivotId.
  pose proof (λ k, fixed_dims_core _ _ _ _ _ _ _ k
                eq_refl eq_refl eq_refl
                (packDataInf_plan_fixed_dims dataInf classInf)) as Hcore.
  pose proof (λ k, fixed_dims_core _ _ _ _ _ _ _ k
                eq_refl eq_refl eq_refl
                (packDataInf_plan_fixed_dims dataInf' classInf)) as Hcore'.
  cbv zeta in Hcore, Hcore'.
  rewrite !packDataInf_plan_pivotId in Hcore, Hcore'.
  assert (Hd : p_dims (packDataInf_plan dataInf classInf)
               = p_dims (packDataInf_plan dataInf' classInf)).
  { rewrite (packDataInf_plan_dims_filter dataInf),
      (packDataInf_plan_dims_filter dataInf').
    apply filter_ext_elem. intros k _.
    destruct (Hcore k) as (_ & _ & _ & Hk & _).
    destruct (Hcore' k) as (_ & _ & _ & Hk' & _).
    rewrite Hk, Hk'.
    split; intros (? & ? & v & w & Hv & Hw & ?); split_and!; try done;
      exists v, w; split_and!; try done;
      by (apply (takes_Permutation _ _ _ _ Hperm) || apply (takes_Permutation _ _ _ _ Hperm)).
  }
  assert (Hf : p_fixed (packDataInf_plan dataInf classInf)
               = p_fixed (packDataInf_plan dataInf' classInf)).
  { apply map_eq. intros k. apply option_eq. intros v.
    destruct (Hcore k) as (_ & _ & Hk & _).
    destruct (Hcore' k) as (_ & _ & Hk' & _).
    rewrite (Hk v), (Hk' v).
    split; intros (? & ? & Hv & Hall); split_and!; try done.
    - by apply (takes_Permutation _ _ _ _ Hperm).
    - intros w Hw. apply Hall. by apply (takes_Permutation _ _ _ _ Hperm).
    - by apply (takes_Permutation _ _ _ _ Hperm).
    - intros w Hw. apply Hall. by apply (takes_Permutation _ _ _ _ Hperm). }
  split_and!.
  - rewrite packDataInf_plan_dims_filter. apply sublist_filter.
  - exact Hd.
  - by rewrite Hf.
  - reflexivity.
  - reflexivity.
Qed.

End record_order.

(** X14: [findCommonProperties] does not depend on the order of its two
    arguments. *)
Theorem findCommonProperties_comm (obj1 obj2 : gmap string jsval) :
  findCommonProperties obj1 obj2 = findCommonProperties obj2 obj1.
Proof.
  apply map_eq. intros k. apply option_eq. intros v.
  rewrite !findCommonProperties_lookup. split.
  - intros (Hk & Hw & H1 & H2). apply same_prop_lookup in H2 as [H2 Hv].
    split; [done|]. split; [done|]. split; [done|]. by apply same_prop_intro.
  - intros (Hk & Hw & H1 & H2). apply same_prop_lookup in H2 as [H2 Hv].
    split; [done|]. split; [done|]. split; [done|]. by apply same_prop_intro.
Qed.

Lemma isValueKey_dollar (k : string) : isValueKey k = true ↔ k = "$".
Proof.
  unfold isValueKey, VALUE_KEYS. rewrite bool_decide_eq_true.
  rewrite list_elem_of_singleton. done.
Qed.

Lemma createGroup_value_key (items : list (gmap string jsval)) :
  metadata (createGroup items) !! "$" = None.
Proof.
  destruct items as [|first others]; [done|].
  destruct (metadata (createGroup (first :: others)) !! "$") as [v|] eqn:Hv; [|done].
  unfold createGroup in Hv. cbn [metadata] in Hv.
  apply findCommonInArray_lookup in Hv as [Hk _]. done.
Qed.

Lemma extract_entry (items : list (gmap string jsval)) (item : gmap string jsval) :
  item ∈ items →
  let md := findCommonInArray items in
  let entry := extractVaryingProperties item md in
  entry ⊆ item ∧ entry !! "$" = item !! "$" ∧ md ⊆ item ∧ entry ##ₘ md
  ∧ ∀ k, (entry ∪ md) !! k = if inherited k then md !! k else item !! k.
Proof.
  intros Hitem md entry.
  assert (Hmd : ∀ k v, md !! k = Some v → item !! k = Some v).
  { intros k v. by apply findCommonInArray_member. }
  assert (Hentry : ∀ k, entry !! k = if has_key md k then None else item !! k)
    by apply extract_lookup.
  assert (Hvalue : md !! "$" = None) by apply (createGroup_value_key items).
  split_and!.
  - apply map_subseteq_spec. intros k v. rewrite Hentry.
    by destruct (has_key md k).
  - rewrite Hentry. unfold has_key. by rewrite Hvalue.
  - apply map_subseteq_spec. exact Hmd.
  - apply map_disjoint_spec. intros k x y Hx Hy. rewrite Hentry in Hx.
    unfold has_key in Hx. rewrite Hy in Hx.
    rewrite bool_decide_eq_true_2 in Hx by by eexists. done.
  - intros k. rewrite lookup_union, Hentry. unfold has_key.
    destruct (md !! k) as [v|] eqn:Hk.
    + rewrite bool_decide_eq_true_2 by by eexists. cbn.
      rewrite (Hmd k v Hk). by destruct (inherited k).
    + rewrite bool_decide_eq_false_2 by by intros [? ?].
      cbn. destruct (inherited k); [done|]. by destruct (item !! k).
Qed.

(** X15: [optimizeGroupingByCommonElements] always returns; the metadata of
    a group never has the value key ["$"]; every entry of a group is a part
    of the member it stands for and keeps what that member has under
    ["$"]; the metadata is a part of every member and shares no key with
    the entries; entry and metadata together give the member back on every
    key that is not a name that every object inherits, and on such a name
    they have only what the metadata has. *)
Theorem optimizeGrouping_value_key (data : list (gmap string jsval)) :
  ∃ result parts,
    optimizeGroupingByCommonElements data = Some result
    ∧ concat parts ≡ₚ data
    ∧ Forall2 (λ group items,
                 metadata group !! "$" = None
                 ∧ g_values group
                   = map (λ item, extractVaryingProperties item (metadata group)) items
                 ∧ Forall2 (λ entry item,
                              entry ⊆ item ∧ entry !! "$" = item !! "$"
                              ∧ metadata group ⊆ item
                              ∧ entry ##ₘ metadata group
                              ∧ ∀ k, (entry ∪ metadata group) !! k
                                     = if inherited k then metadata group !! k
                                       else item !! k)
                           (g_values group) items)
              (groups result) parts.
Proof.
  destruct (optimizeGrouping_parts data) as (parts & Hres & Hperm & _).
  eexists _, parts. split; [exact Hres|]. split; [done|].
  cbn [groups]. apply Forall2_fmap_l, Forall_Forall2_diag, Forall_forall.
  intros items _. split; [apply createGroup_value_key|]. split; [done|].
  unfold createGroup. cbn [g_values metadata].
  apply Forall2_fmap_l, Forall_Forall2_diag, Forall_forall.
  intros item Hitem. by apply extract_entry.
Qed.

Lemma sort_insert_Sorted (g : OptimizedGroup) (l : list OptimizedGroup) :
  Sorted richer l → Sorted richer (sort_insert g l).
Proof.
  induction l as [|h t IH]; intros Hs.
  - cbn. by repeat constructor.
  - cbn [sort_insert]. apply Sorted_inv in Hs as [Hs Hhd].
    case_bool_decide as Hlt.
    + constructor; [by apply IH|].
      destruct t as [|h' t]; cbn [sort_insert].
      * constructor. unfold richer. lia.
      * apply HdRel_inv in Hhd. case_bool_decide.
        -- by constructor.
        -- constructor. unfold richer. lia.
    + constructor; [by constructor|]. constructor. unfold richer. lia.
Qed.

Lemma sort_groups_Sorted (l : list OptimizedGroup) : Sorted richer (sort_groups l).
Proof.
  induction l as [|g l IH]; [constructor|].
  cbn [sort_groups foldr]. by apply sort_insert_Sorted.
Qed.

Lemma richer_trans : Relations_1.Transitive richer.
Proof. unfold richer. intros a b c ? ?. lia. Qed.

Lemma optimizeGrouping_groups (data : list (gmap string jsval)) :
  ∃ gs, optimizeGroupingByCommonElements data
        = Some {| groups := sort_groups gs |}.
Proof.
  destruct data as [|d data]; [by exists []|].
  unfold optimizeGroupingByCommonElements.
  destruct (grouping_loop_parts (length (d :: data)) (d :: data) [])
    as (parts & -> & _); [done|].
  by eexists.
Qed.

(** X16: the groups are returned sorted by the number of keys of their
    metadata, the largest first. *)
Theorem optimizeGrouping_sorted (data : list (gmap string jsval)) :
  ∃ result,
    optimizeGroupingByCommonElements data = Some result
    ∧ StronglySorted richer (groups result).
Proof.
  destruct (optimizeGrouping_groups data) as [gs ->].
  eexists. split; [done|]. cbn [groups].
  apply Sorted_StronglySorted; [apply richer_trans|apply sort_groups_Sorted].
Qed.

Lemma createGroup_values_length (items : list (gmap string jsval)) :
  length (g_values (createGroup items)) = length items.
Proof. unfold createGroup. cbn [g_values]. by rewrite length_map. Qed.

(** X17: the groups hold as many entries as there are items; no group is
    empty; there are at most as many groups as items, and none for no item;
    a group of two or more entries has at least one metadata key. *)
Theorem optimizeGrouping_counts (data : list (gmap string jsval)) :
  ∃ result,
    optimizeGroupingByCommonElements data = Some result
    ∧ length (concat (map g_values (groups result))) = length data
    ∧ Forall (λ group, 0 < length (g_values group)) (groups result)
    ∧ length (groups result) ≤ length data
    ∧ (data = [] → groups result = [])
    ∧ Forall (λ group, 2 ≤ length (g_values group) → metadata group ≠ ∅)
             (groups result).
Proof.
  destruct (optimizeGrouping_parts data) as (parts & Hres & Hperm & Hparts).
  eexists. split; [exact Hres|]. cbn [groups].
  assert (Hlens : length (concat (map g_values (map createGroup parts)))
                  = length (concat parts)).
  { clear. induction parts as [|p parts IH]; [done|].
    cbn [map concat]. by rewrite !length_app, createGroup_values_length, IH. }
  assert (Hpos : Forall (λ items : list (gmap string jsval), 0 < length items) parts).
  { eapply Forall_impl; [exact Hparts|]. intros items [Hne _].
    destruct items; [done|]. cbn. lia. }
  split_and!.
  - by rewrite Hlens, Hperm.
  - apply Forall_fmap. eapply Forall_impl; [exact Hpos|].
    intros items Hi. unfold compose. cbv beta. by rewrite createGroup_values_length.
  - rewrite length_map, <- Hperm. clear -Hpos.
    induction Hpos as [|p parts Hp _ IH]; [done|].
    cbn [concat length]. rewrite length_app. lia.
  - intros ->. apply Permutation_nil_r in Hperm.
    destruct parts as [|p parts]; [done|]. exfalso.
    apply Forall_cons in Hpos as [Hp _].
    cbn [concat] in Hperm. apply app_eq_nil in Hperm as [-> _]. cbn in Hp. lia.
  - apply Forall_fmap. eapply Forall_impl; [exact Hparts|].
    intros items [_ [H1|Hmd]]; unfold compose; cbv beta.
    + rewrite createGroup_values_length. lia.
    + done.
Qed.

(** [stripAtPrefix] *)

Lemma stripAtPrefix_last (obj : list (string * jsval)) (k : string) :
  stripAtPrefix obj !! k
  = if own_on_write k then snd <$> last (filter (λ e, strip_key e.1 = k) obj)
    else None.
Proof. apply (foldl_set_prop_last (λ e, strip_key e.1) snd). Qed.

Lemma strip_key_inj (k1 k2 : string) :
  at_key k1 → at_key k2 → strip_key k1 = strip_key k2 → k1 = k2.
Proof. intros [r1 ->] [r2 ->]. cbn. by intros ->. Qed.

(** X18: on a record whose keys are ["$"] and attribute keys that start
    with [@], none of them ["@$"], [stripAtPrefix] keeps the value under
    ["$"] and has every attribute under its key without the [@], and
    nothing else; the attribute [@__proto__] is lost, and the result has no
    own property [__proto__]. *)
Theorem stripAtPrefix_value (attrs : gmap string string) (val : jsval)
    (obj : list (string * jsval)) :
  obj ≡ₚ map_to_list (JStr <$> attrs) ++ [("$", val)] →
  (∀ key, is_Some (attrs !! key) → at_key key ∧ key ≠ "@$") →
  stripAtPrefix obj !! "$" = Some val
  ∧ proto_free (stripAtPrefix obj)
  ∧ ∀ k, k ≠ "$" →
         stripAtPrefix obj !! k
         = if own_on_write k then JStr <$> attrs !! String "@" k else None.
Proof.
  intros Hperm Hkeys.
  assert (Hin : ∀ key v, (key, v) ∈ obj
            ↔ (JStr <$> attrs) !! key = Some v ∨ (key = "$" ∧ v = val)).
  { intros key v. rewrite Hperm, elem_of_app, elem_of_map_to_list,
      list_elem_of_singleton. naive_solver. }
  assert (Hattr : ∀ key v, (JStr <$> attrs) !! key = Some v → at_key key ∧ key ≠ "@$").
  { intros key v Hv. apply Hkeys. rewrite lookup_fmap in Hv.
    destruct (attrs !! key); [by eexists|done]. }
  assert (Hone : ∀ k v,
            (∃ key, (key, v) ∈ obj ∧ strip_key key = k)
            → ∀ e, e ∈ filter (λ e, strip_key e.1 = k) obj → e.2 = v).
  { intros k v (key & Hkv & Hstrip) [key' v'] [Hs He]%list_elem_of_filter.
    cbn in Hs |- *. apply Hin in Hkv, He.
    destruct Hkv as [Hkv|[-> ->]], He as [He|[-> ->]].
    - destruct (Hattr _ _ Hkv) as [Hat _], (Hattr _ _ He) as [Hat' _].
      assert (key' = key) as -> by (apply strip_key_inj; congruence).
      congruence.
    - destruct (Hattr _ _ Hkv) as [[r ->] Hne]. cbn in Hstrip, Hs. subst. done.
    - destruct (Hattr _ _ He) as [[r ->] Hne]. cbn in Hstrip, Hs. subst. done.
    - done. }
  assert (Hlookup : ∀ k v, own_on_write k = true →
                           (∃ key, (key, v) ∈ obj ∧ strip_key key = k)
                           → stripAtPrefix obj !! k = Some v).
  { intros k v Hw Hex. rewrite stripAtPrefix_last, Hw.
    destruct Hex as (key & Hkv & Hstrip).
    destruct (last (filter (λ e, strip_key e.1 = k) obj)) as [e|] eqn:Hlast.
    - cbn. f_equal. apply (Hone k v); [by exists key|].
      by apply last_Some_elem_of.
    - apply last_None in Hlast.
      assert (Hf : (key, v) ∈ filter (λ e, strip_key e.1 = k) obj)
        by by apply list_elem_of_filter.
      rewrite Hlast in Hf. by apply elem_of_nil in Hf. }
  split; [|split].
  - apply Hlookup; [done|]. exists "$". split; [|done]. apply Hin. by right.
  - unfold proto_free. by rewrite stripAtPrefix_last.
  - intros k Hk. destruct (own_on_write k) eqn:Hw;
      [|by rewrite stripAtPrefix_last, Hw].
    rewrite <- lookup_fmap.
    destruct ((JStr <$> attrs) !! String "@" k) as [v|] eqn:Hv.
    + apply Hlookup; [done|]. exists (String "@" k). split; [|done].
      apply Hin. by left.
    + rewrite stripAtPrefix_last, Hw.
      destruct (last (filter (λ e, strip_key e.1 = k) obj)) as [[key v]|] eqn:Hlast;
        [|done]. exfalso.
      apply last_Some_elem_of, list_elem_of_filter in Hlast as [Hs He].
      cbn in Hs. apply Hin in He as [He|[-> ->]]; [|done].
      destruct (Hattr _ _ He) as [[r ->] _]. cbn in Hs. subst r. congruence.
Qed.

(** X19: when two keys of the object become the same key, [stripAtPrefix]
    keeps the value of the later one; under [__proto__] it keeps
    nothing. *)
Theorem stripAtPrefix_later_wins (before after : list (string * jsval))
    (key k : string) (v : jsval) :
  strip_key key = k →
  Forall (λ e, strip_key e.1 ≠ k) after →
  stripAtPrefix (before ++ (key, v) :: after) !! k
  = if own_on_write k then Some v else None.
Proof.
  intros Hk Hafter. rewrite stripAtPrefix_last.
  destruct (own_on_write k); [|done].
  rewrite filter_app, filter_cons, decide_True by done.
  replace (filter (λ e : string * jsval, strip_key e.1 = k) after) with
    (@nil (string * jsval)).
  - by rewrite last_snoc.
  - symmetry. clear -Hafter. induction Hafter as [|e after He _ IH]; [done|].
    by rewrite filter_cons, decide_False.
Qed.

(** X20: what [stripAtPrefix] returns has no own property [__proto__]; each
    of its values is the value of a key of the object that becomes its key;
    and it has no NaN attribute when the object has none. *)
Theorem stripAtPrefix_item (obj : list (string * jsval)) :
  proto_free (stripAtPrefix obj)
  ∧ (∀ k v, stripAtPrefix obj !! k = Some v →
            ∃ key, (key, v) ∈ obj ∧ strip_key key = k)
  ∧ (Forall (λ e, e.2 ≠ JNum NaN) obj → nan_free (stripAtPrefix obj)).
Proof.
  assert (Hfrom : ∀ k v, stripAtPrefix obj !! k = Some v →
                         ∃ key, (key, v) ∈ obj ∧ strip_key key = k).
  { intros k v. rewrite stripAtPrefix_last. destruct (own_on_write k); [|done].
    destruct (last (filter (λ e, strip_key e.1 = k) obj)) as [[key w]|] eqn:Hlast;
      [|done].
    intros [= <-]. exists key.
    by apply last_Some_elem_of, list_elem_of_filter in Hlast as [Hs He]. }
  split_and!.
  - unfold proto_free. by rewrite stripAtPrefix_last.
  - exact Hfrom.
  - intros Hnan k v Hk _. destruct (Hfrom k v Hk) as (key & Hin & _).
    rewrite Forall_forall in Hnan. exact (Hnan (key, v) Hin).
Qed.

Lemma hasUnit_false (obj : ClassObj) :
  hasUnit obj = false ↔ ∀ c, c ∈ toArray (o_CLASS obj) → c_unit c = None.
Proof.
  unfold hasUnit. generalize (toArray (o_CLASS obj)). intros classes.
  induction classes as [|c classes IH].
  - split; [|done]. intros _ c Hc. by apply elem_of_nil in Hc.
  - cbn [existsb]. rewrite orb_false_iff, IH, bool_decide_eq_false.
    rewrite <- eq_None_not_Some. split.
    + intros [Hc Hall] c' [->|Hc']%elem_of_cons; [done|by apply Hall].
    + intros Hall. split; [apply Hall; by left|].
      intros c' Hc'. apply Hall. by right.
Qed.

(** X5: [detectPivotDim] finds no pivot axis exactly when no class of an
    object of CLASS_OBJ with an id among tab, cat01, ..., cat15 has a unit
    (an empty unit counts as one). *)
Theorem detectPivotDim_none (classInf : ClassInf) :
  detectPivotDim classInf = None
  ↔ ∀ obj c,
      obj ∈ CLASS_OBJ classInf → o_id obj ∈ PIVOT_CANDIDATE_KEYS →
      c ∈ toArray (o_CLASS obj) → c_unit c = None.
Proof.
  unfold detectPivotDim.
  pose proof (detectPivotDim_loop_spec (CLASS_OBJ classInf)) as Hspec.
  destruct (detectPivotDim_loop (CLASS_OBJ classInf)) as [[o i]|].
  - destruct Hspec as (pre & post & Heq & _ & [Hid Hu] & _).
    split; [done|]. intros Hall. exfalso.
    assert (Hf : hasUnit o = false).
    { apply hasUnit_false. intros c Hc. apply (Hall o c); [|done|done].
      rewrite Heq, elem_of_app, elem_of_cons. auto. }
    congruence.
  - split; [|done]. intros _ obj c Hobj Hid Hc.
    rewrite Forall_forall in Hspec. specialize (Hspec obj Hobj).
    destruct (hasUnit obj) eqn:Hu.
    + exfalso. apply Hspec. by split.
    + by apply (proj1 (hasUnit_false obj) Hu).
Qed.

Lemma no_records_core (exclude : list string)
    (fixed : gmap string string) (dims : list string) (u : gmap string (list string)) :
  (fixed, dims) = build_fixed_dims (build_candidateDims exclude (build_present exclude [])) u →
  fixed = ∅ ∧ dims = [].
Proof.
  rewrite build_candidateDims_filter.
  replace (filter (λ k : string, (k ∉ exclude) ∧ k ∈ build_present exclude []) ALL_DIM_KEYS)
    with (@nil string).
  - by intros [= -> ->].
  - symmetry. generalize ALL_DIM_KEYS. intros l.
    induction l as [|k l IH]; [done|].
    rewrite filter_cons, decide_False; [done|].
    intros [_ Hk]. by apply elem_of_nil in Hk.
Qed.

Section no_records.

Context `{!Runtime}.

(** X13: with no record, the output has no row, no dimension, no [fixed]
    and no [annRows]. *)
Theorem packDataInf_no_records (dataInf : DataInf) (classInf : ClassInf) :
  toArray (VALUE dataInf) = [] →
  let out := packDataInf dataInf classInf in
  rows out = [] ∧ dims out = [] ∧ fixed out = None ∧ annRows out = None.
Proof.
  intros Hempty. cbv zeta.
  pose proof (packDataInf_plan_fixed_dims dataInf classInf) as Hplan.
  rewrite Hempty in Hplan. apply no_records_core in Hplan as [Hfixed Hdims].
  split_and!.
  - by rewrite packDataInf_rows, Hempty.
  - by rewrite packDataInf_dims.
  - pose proof (packDataInf_fixed dataInf classInf) as Hf.
    rewrite Hfixed in Hf.
    destruct (fixed (packDataInf dataInf classInf)) as [m|] eqn:Hm; [|done].
    exfalso. simpl in Hf. subst m. revert Hm.
    unfold packDataInf. destruct (assemble _). cbn [fixed].
    case_bool_decide as Hs; [done|]. intros [= He]. apply Hs.
    by apply map_size_empty_iff.
  - pose proof (packDataInf_annRows dataInf classInf) as Ha.
    rewrite Hempty in Ha. cbn [keys_seen foldl imap concat] in Ha.
    destruct (annRows (packDataInf dataInf classInf)) as [l|] eqn:Hl; [|done].
    exfalso. simpl in Ha. subst l. revert Hl.
    unfold packDataInf. destruct (assemble _) as [rs ar]. cbn [annRows].
    case_bool_decide as Hs; [done|]. intros [= He]. apply Hs. by rewrite He.
Qed.

End no_records.

Lemma packDataInf_pivot_columns_witness :
  pivotDim (@packDataInf sample_runtime dataInf_overwrite classInf_tab) = Some "tab"
  ∧ map code (valueCols (@packDataInf sample_runtime dataInf_overwrite classInf_tab))
    = ["X"; "Y"].
Proof.
  assert (Hpivot : detectPivotDim classInf_tab
                   = Some (mk_obj "tab" [mk_class "X" (Some "yen");
                                         mk_class "Y" (Some "count")], "tab"))
    by (vm_compute; reflexivity).
  destruct (@packDataInf_pivot_columns sample_runtime dataInf_overwrite classInf_tab
              _ _ Hpivot) as (Hp & _ & _ & Hc & _).
  exact (conj Hp Hc).
Defined.

Lemma packDataInf_annRows_in_range_witness :
  0 < length (rows (@packDataInf sample_runtime dataInf_overwrite classInf_tab))
  ∧ 0 < length (valueCols (@packDataInf sample_runtime dataInf_overwrite classInf_tab)).
Proof.
  assert (Hin : (0, 0, "*")
                ∈ default [] (annRows (@packDataInf sample_runtime dataInf_overwrite
                                                    classInf_tab))).
  { apply (bool_decide_unpack _). vm_compute. exact I. }
  destruct (@packDataInf_annRows_in_range sample_runtime dataInf_overwrite classInf_tab
              0 0 "*" Hin) as (Hr & Hc & _).
  exact (conj Hr Hc).
Defined.

Lemma packDataInf_record_order_witness :
  dims (@packDataInf sample_runtime dataInf_overwrite classInf_tab)
  = dims (@packDataInf sample_runtime dataInf_reordered classInf_tab).
Proof.
  assert (Hperm : toArray (VALUE dataInf_overwrite) ≡ₚ toArray (VALUE dataInf_reordered))
    by exact (perm_swap _ _ _).
  destruct (@packDataInf_record_order sample_runtime dataInf_overwrite dataInf_reordered
              classInf_tab Hperm) as (_ & Hd & _).
  exact Hd.
Defined.

Lemma stripAtPrefix_value_witness :
  stripAtPrefix [("@tab", JStr "X"); ("$", JStr "5")] !! "$" = Some (JStr "5")
  ∧ proto_free (stripAtPrefix [("@tab", JStr "X"); ("$", JStr "5")])
  ∧ ∀ k, k ≠ "$" →
         stripAtPrefix [("@tab", JStr "X"); ("$", JStr "5")] !! k
         = if own_on_write k
           then JStr <$> ({["@tab" := "X"]} : gmap string string) !! String "@" k
           else None.
Proof.
  apply (stripAtPrefix_value {["@tab" := "X"]} (JStr "5")
           [("@tab", JStr "X"); ("$", JStr "5")]).
  - by rewrite map_fmap_singleton, map_to_list_singleton.
  - intros key [x Hx]. apply lookup_singleton_Some in Hx as [<- _].
    split; [by eexists|done].
Defined.

Lemma stripAtPrefix_later_wins_witness :
  stripAtPrefix ([("tab", JStr "old")] ++ ("@tab", JStr "new") :: [("$", JStr "1")])
    !! "tab" = Some (JStr "new").
Proof.
  apply (stripAtPrefix_later_wins [("tab", JStr "old")] [("$", JStr "1")]
           "@tab" "tab" (JStr "new")).
  - reflexivity.
  - repeat constructor. done.
Defined.

Lemma packDataInf_no_records_witness :
  let out := @packDataInf sample_runtime dataInf_empty classInf_tab in
  rows out = [] ∧ dims out = [] ∧ fixed out = None ∧ annRows out = None.
Proof.
  apply (@packDataInf_no_records sample_runtime dataInf_empty classInf_tab).
  reflexivity.
Defined.
